(** * pyneural: the Cython wrapper [pyneural.pyx] as a heap-passing model

    The wrapper keeps every parameter and buffer in a numpy array and hands
    raw pointers into those arrays to the C core ([neural.h]).  Python
    objects are shared by reference, so arrays live in a store and the
    layers hold addresses.  Scalars (numpy and Python floats) are kept
    abstract: the wrapper only copies, casts, compares and multiplies them. *)

From Stdlib Require Import ZArith Lia.
From Stdlib Require PrimFloat SpecFloat FloatOps FloatAxioms.
From stdpp Require Import base option list.

Set Default Proof Using "Type".
Open Scope Z_scope.

(** Python exceptions the wrapper can raise; [OverflowError] is Cython's
    when a Python int does not fit the C [int] it is assigned to; [Segfault]
    stands for the C core being handed a NULL pointer (a layer whose buffers
    were never set). *)
Inductive exn :=
  AssertionError | IndexError | ValueError | TypeError | OverflowError | Segfault.

Inductive outcome (A : Type) :=
| Ok (a : A)
| Raise (e : exn).
Arguments Ok {A} a.
Arguments Raise {A} e.

(** State and exception monad: an exception keeps the state reached so far,
    as a Python exception leaves every earlier mutation in place. *)
Definition M (S A : Type) : Type := S -> outcome A * S.

Definition ret {S A} (a : A) : M S A := fun s => (Ok a, s).
Definition raise {S A} (e : exn) : M S A := fun s => (Raise e, s).
Definition bind {S A B} (m : M S A) (k : A -> M S B) : M S B :=
  fun s => match m s with
           | (Ok a, s') => k a s'
           | (Raise e, s') => (Raise e, s')
           end.
Definition assert_ {S} (b : bool) : M S unit :=
  if b then ret tt else raise AssertionError.
Definition get {S} : M S S := fun s => (Ok s, s).
Definition put {S} (s : S) : M S unit := fun _ => (Ok tt, s).
Definition gets {S A} (f : S -> A) : M S A := fun s => (Ok (f s), s).
Definition modify {S} (f : S -> S) : M S unit := fun s => (Ok tt, f s).
(** A Python int assigned to, or passed as, a C [int] (32 bits). *)
Definition in_int (z : Z) : bool := (-2147483648 <=? z) && (z <? 2147483648).
Definition c_int {S} (z : Z) : M S Z :=
  if in_int z then ret z else raise OverflowError.
(** [x[i]] on a tuple or list: IndexError out of range. *)
Definition index {S A} (l : list A) (i : nat) : M S A :=
  match l !! i with Some x => ret x | None => raise IndexError end.

Notation "'let*' x ':=' m 'in' k" := (bind m (fun x => k))
  (at level 10, x name, m at level 100, k at level 200).
Notation "m ';;' k" := (bind m (fun _ => k))
  (at level 100, k at level 200, right associativity).

Abbreviation addr := nat.

Definition prod_list (l : list nat) : nat := foldr Nat.mul 1%nat l.

(** Scalars: numpy elements and Python floats.  The wrapper copies, casts,
    compares and multiplies them, and nothing more. *)
Class Scalar := {
  V : Type;
  vzero : V;                  (* 0.0 *)
  f32 : V -> V;               (* astype(np.float32), and a Python float
                                 passed as a C float *)
  init_scale : V -> V;        (* x |-> 0.24 * x - 0.12 *)
  vmul : V -> V -> V;         (* Python float product, alpha *= decay *)
  vleb : V -> V -> bool;      (* a <= b, as np.argmax compares *)
  visnan : V -> bool }.       (* npy_isnan *)

Section Arrays.
Context `{Scalar}.

(** numpy arrays: shape and the elements in C order. *)
Record ndarray := { shape : list nat; data : list V }.

(** The struct [neural_net_layer] as the C core sees it through its pointers:
    the contents of the four buffers and the two sizes. *)
Record c_layer := {
  c_bias : list V; c_theta : list V; c_act : list V; c_delta : list V;
  c_in_nodes : nat; c_out_nodes : nat }.

(** One call of [neural_train_iteration], as [train] issued it. *)
Record train_call := {
  tc_n_samples : nat; tc_batch_size : Z; tc_alpha : V; tc_lamb : V }.

End Arrays.

(** np.random: the generator state is threaded through the store. *)
Class NpRandom `{Scalar} := {
  RNG : Type;
  rand : nat -> RNG -> list V * RNG;                (* np.random.rand(n) *)
  permutation : nat -> RNG -> list nat * RNG }.     (* np.random.permutation(n) *)

(** The two entry points of [neural.h].  They return [void]: all they can do
    is write through the pointers they were given, the layers' and the two
    [float *] arguments (none is [const]), so each is a function from the
    contents of all those buffers to their new contents: the chain's, then
    those of [features], then those of [labels] or [preds]. *)
Class NeuralCore `{Scalar} := {
  neural_train_iteration :
    list c_layer -> list V -> list V -> nat -> Z -> V -> V ->
    list c_layer * list V * list V;
  neural_predict_prob :
    list c_layer -> list V -> list V -> nat -> Z ->
    list c_layer * list V * list V }.

Section Wrapper.
Context `{Sc : Scalar} `{!NpRandom} `{!NeuralCore}.

Definition np_size (a : ndarray) : nat := prod_list (shape a).
(** [np.zeros(sh, dtype=np.float32)] *)
Definition np_zeros (sh : list nat) : ndarray :=
  {| shape := sh; data := replicate (prod_list sh) (f32 vzero) |}.
(** [a.copy(order='C').astype(np.float32)]: a new array, every element cast. *)
Definition copy_astype_f32 (a : ndarray) : ndarray :=
  {| shape := shape a; data := f32 <$> data a |}.

Record world := {
  heap : list ndarray;            (* every array object; only the
                                     temporaries of a call are freed *)
  rng : RNG;
  trace : list train_call }.      (* calls into the C trainer, oldest first *)

Definition set_heap (h : list ndarray) (w : world) : world :=
  {| heap := h; rng := rng w; trace := trace w |}.

Definition alloc (a : ndarray) (w : world) : addr * world :=
  (length (heap w), set_heap (heap w ++ [a]) w).

(** The chain's buffers are float32 arrays and a C function cannot resize
    them: what it returns for a buffer is stored over the old contents as
    float32 values, length kept. *)
Definition overwrite (old new : list V) : list V :=
  take (length old) (f32 <$> new) ++ drop (length new) old.

Definition store_data (a : addr) (new : list V) (h : list ndarray) : list ndarray :=
  match h !! a with
  | Some arr => <[a := {| shape := shape arr; data := overwrite (data arr) new |}]> h
  | None => h
  end.

(** ** NetLayer *)

(** [self.bias] and [_net_layer.bias] (likewise theta, act, delta) are always
    assigned together, the pointer being the array's data: one field each. *)
Record NetLayer := {
  bias : addr; theta : addr;
  act : option addr; delta : option addr;
  in_nodes : nat; out_nodes : nat }.

Definition LM := M (NetLayer * world).

Definition lift_world {S A} (f : world -> A * world) : M (S * world) A :=
  fun '(s, w) => let '(a, w') := f w in (Ok a, (s, w')).

Definition np_random_rand (n : nat) : world -> list V * world :=
  fun w => let '(xs, g) := rand n (rng w) in
           (xs, {| heap := heap w; rng := g; trace := trace w |}).

Definition np_random_permutation (n : nat) : world -> list nat * world :=
  fun w => let '(p, g) := permutation n (rng w) in
           (p, {| heap := heap w; rng := g; trace := trace w |}).

(** [NetLayer.__init__]: bias drawn first, then theta; the two sizes are
    stored in C ints after both arrays are made; no batch buffers yet. *)
Definition NetLayer_init (in_n out_n : nat) : M world NetLayer :=
  fun w =>
    let '(rb, w1) := np_random_rand out_n w in
    let '(b, w2) :=
      alloc (copy_astype_f32 {| shape := [out_n]; data := init_scale <$> rb |}) w1 in
    let '(rt, w3) := np_random_rand (out_n * in_n) w2 in
    let '(t, w4) :=
      alloc (copy_astype_f32 {| shape := [(out_n * in_n)%nat];
                                data := init_scale <$> rt |}) w3 in
    (c_int (Z.of_nat in_n) ;; c_int (Z.of_nat out_n) ;;
     ret {| bias := b; theta := t; act := None; delta := None;
            in_nodes := in_n; out_nodes := out_n |}) w4.

(** [np.zeros(n)] for a Python int [n]: ValueError when negative. *)
Definition np_zeros_int {S} (n : Z) : M (S * world) addr :=
  if n <? 0 then raise ValueError
  else lift_world (alloc (np_zeros [Z.to_nat n])).

Definition layer_set_batch (batch_size : Z) : LM unit :=
  let* s := get in
  let* a := np_zeros_int (Z.of_nat (in_nodes (fst s)) * batch_size) in
  modify (fun '(l, w) =>
    ({| bias := bias l; theta := theta l; act := Some a; delta := delta l;
        in_nodes := in_nodes l; out_nodes := out_nodes l |}, w)) ;;
  let* d := np_zeros_int (Z.of_nat (in_nodes (fst s)) * batch_size) in
  modify (fun '(l, w) =>
    ({| bias := bias l; theta := theta l; act := act l; delta := Some d;
        in_nodes := in_nodes l; out_nodes := out_nodes l |}, w)).

(** [NetLayer.get_params]: the two array objects themselves. *)
Definition layer_get_params (l : NetLayer) : addr * addr := (bias l, theta l).

(** The arguments of [set_params] are arrays of the store.  A reference
    that names none stands for an object that is no ndarray, which [np.size]
    and [copy] treat in ways of their own: the model stops at it with
    TypeError and follows the code no further. *)
Definition the_array {S} (a : addr) : M (S * world) ndarray :=
  fun '(s, w) => match heap w !! a with
                 | Some arr => (Ok arr, (s, w))
                 | None => (Raise TypeError, (s, w))
                 end.

(** [NetLayer.set_params]; the sizes being C ints, the product is taken for
    layers of fewer than 2^31 weights, where it is the product of numbers. *)
Definition layer_set_params (b t : addr) : LM unit :=
  let* s := get in
  let l := fst s in
  let* barr := the_array b in
  assert_ (Nat.eqb (np_size barr) (out_nodes l)) ;;
  let* tarr := the_array t in
  assert_ (Nat.eqb (np_size tarr) (out_nodes l * in_nodes l)) ;;
  let* b' := lift_world (alloc (copy_astype_f32 barr)) in
  modify (fun '(l, w) =>
    ({| bias := b'; theta := theta l; act := act l; delta := delta l;
        in_nodes := in_nodes l; out_nodes := out_nodes l |}, w)) ;;
  let* t' := lift_world (alloc (copy_astype_f32 tarr)) in
  modify (fun '(l, w) =>
    ({| bias := bias l; theta := t'; act := act l; delta := delta l;
        in_nodes := in_nodes l; out_nodes := out_nodes l |}, w)).

(** ** NeuralNet *)

(** The chain [head -> ... -> tail] of layer objects is private to the
    network (head, tail, prev and next are cdef attributes), so it is kept as
    the list of its layers in [next] order. *)
Record NeuralNet := {
  layers : list nat;
  n_features : nat; n_labels : nat;
  batch_size : Z;
  chain : list NetLayer }.

Definition NM := M (NeuralNet * world).

Definition set_chain (c : list NetLayer) (n : NeuralNet) : NeuralNet :=
  {| layers := layers n; n_features := n_features n; n_labels := n_labels n;
     batch_size := batch_size n; chain := c |}.

(** [curr = self.head; while curr != None: body(curr, i); curr = curr.next] *)
Fixpoint each_layer (body : nat -> LM unit) (i : nat) (c : list NetLayer)
    (w : world) : outcome unit * (list NetLayer * world) :=
  match c with
  | [] => (Ok tt, ([], w))
  | l :: rest =>
      match body i (l, w) with
      | (Ok _, (l', w')) =>
          let '(r, (rest', w'')) := each_layer body (S i) rest w' in
          (r, (l' :: rest', w''))
      | (Raise e, (l', w')) => (Raise e, (l' :: rest, w'))
      end
  end.

Definition for_chain (body : nat -> LM unit) : NM unit :=
  fun '(n, w) =>
    let '(r, (c, w')) := each_layer body 0 (chain n) w in (r, (set_chain c n, w')).

(** The layers [random_init] creates, in creation order: (l0,l1), (l1,l2),
    ..., and the tail (l_last, 0); when a [NetLayer(...)] raises, the layers
    linked so far. *)
Fixpoint build_chain (ls : list nat) (w : world)
    : outcome unit * (list NetLayer * world) :=
  match ls with
  | [] => (Ok tt, ([], w))
  | n :: rest =>
      match NetLayer_init n (match rest with m :: _ => m | [] => 0%nat end) w with
      | (Ok l, w1) =>
          let '(r, (c, w2)) := build_chain rest w1 in (r, (l :: c, w2))
      | (Raise e, w1) => (Raise e, ([], w1))
      end
  end.

(** [self.head] is assigned once the first layer is made: when that one
    raises, the network keeps the chain it had. *)
Definition random_init : NM unit :=
  let* s := get in
  index (layers (fst s)) 0 ;;
  index (layers (fst s)) 1 ;;
  fun '(n, w) => let '(r, (c, w')) := build_chain (layers n) w in
                 (r, (match c with [] => n | _ => set_chain c n end, w')).

(** [self.batch_size] is a C int: the assignment raises before it stores.
    The layers get the Python object. *)
Definition set_batch (bs : Z) : NM unit :=
  let* b := c_int bs in
  modify (fun '(n, w) =>
    ({| layers := layers n; n_features := n_features n; n_labels := n_labels n;
        batch_size := b; chain := chain n |}, w)) ;;
  for_chain (fun _ => layer_set_batch bs).

(** [NeuralNet.__init__]; [n_features] and [n_labels] are C ints. *)
Definition NeuralNet_init (ls : list nat) : M world NeuralNet :=
  fun w =>
    if (length ls <? 2)%nat then (Raise AssertionError, w)
    else if negb (in_int (Z.of_nat (hd 0%nat ls))
                  && in_int (Z.of_nat (List.last ls 0%nat)))
    then (Raise OverflowError, w)
    else
      let self := {| layers := ls; n_features := hd 0%nat ls; n_labels := List.last ls 0%nat;
                     batch_size := 0; chain := [] |} in
      match (random_init ;; set_batch 100) (self, w) with
      | (Ok _, (n, w')) => (Ok n, w')
      | (Raise e, (_, w')) => (Raise e, w')
      end.

Definition get_params (n : NeuralNet) : list (addr * addr) :=
  layer_get_params <$> chain n.

Definition set_params (params : list (addr * addr)) : NM unit :=
  let* s := get in
  assert_ (Nat.eqb (length params) (length (layers (fst s)))) ;;
  for_chain (fun i => let* p := index params i in layer_set_params (fst p) (snd p)).

(** *** Calls into the C core *)

Definition deref_layer (h : list ndarray) (l : NetLayer) : option c_layer :=
  b ← h !! bias l; t ← h !! theta l;
  a ← act l ≫= (h !!.); d ← delta l ≫= (h !!.);
  Some {| c_bias := data b; c_theta := data t; c_act := data a; c_delta := data d;
          c_in_nodes := in_nodes l; c_out_nodes := out_nodes l |}.

Definition deref_chain (h : list ndarray) (c : list NetLayer) : option (list c_layer) :=
  mapM (deref_layer h) c.

Definition store_opt (a : option addr) (new : list V) (h : list ndarray) :=
  match a with Some a => store_data a new h | None => h end.

Definition write_layer (l : NetLayer) (c : c_layer) (h : list ndarray) : list ndarray :=
  store_opt (delta l) (c_delta c)
    (store_opt (act l) (c_act c)
       (store_data (theta l) (c_theta c)
          (store_data (bias l) (c_bias c) h))).

Fixpoint write_chain (ls : list NetLayer) (cs : list c_layer) (h : list ndarray) :=
  match ls, cs with
  | l :: ls', c :: cs' => write_chain ls' cs' (write_layer l c h)
  | _, _ => h
  end.

(** [self.head.get_ptr()], [self.tail.get_ptr()]: the whole chain is
    reachable from them; a missing head or an unset buffer is a NULL. *)
Definition c_view : NM (list c_layer) :=
  fun '(n, w) =>
    match chain n with
    | [] => (Raise Segfault, (n, w))
    | _ => match deref_chain (heap w) (chain n) with
           | Some cs => (Ok cs, (n, w))
           | None => (Raise Segfault, (n, w))
           end
    end.

(** The buffer behind [PyArray_DATA] of a temporary of the call. *)
Definition buffer (xs : list V) : ndarray := {| shape := [length xs]; data := xs |}.

(** What a call leaves in the store: the two temporaries [x] and [y] are
    array objects of their own for the time of the call; the core's writes
    go through the chain's pointers and through theirs, and the two are
    gone when the call returns. *)
Definition core_writes (c : list NetLayer) (x y : ndarray)
    (r : list c_layer * list V * list V) (h : list ndarray) : list ndarray :=
  let xa := length h in
  let ya := S (length h) in
  take (length h)
    (store_data ya (snd r)
       (store_data xa (snd (fst r))
          (write_chain c (fst (fst r)) (h ++ [x; y])))).

(** [neural_train_iteration(head, tail, data(_features), data(_labels),
    features.shape[0], batch_size, alpha, lamb)], the arguments being the
    contents of the two temporaries: the two counts are passed as C ints,
    [alpha] and [lamb] as C floats. *)
Definition call_train (features labels : list V) (n_samples : nat) (bs : Z)
    (alpha lamb : V) : NM unit :=
  c_int (Z.of_nat n_samples) ;;
  c_int bs ;;
  let* cs := c_view in
  modify (fun '(n, w) =>
    (n, {| heap := core_writes (chain n) (buffer features) (buffer labels)
                     (neural_train_iteration cs features labels n_samples bs
                        (f32 alpha) (f32 lamb))
                     (heap w);
           rng := rng w;
           trace := trace w ++ [{| tc_n_samples := n_samples; tc_batch_size := bs;
                                   tc_alpha := f32 alpha; tc_lamb := f32 lamb |}] |})).

(** [neural_predict_prob(head, tail, data(_features), data(preds),
    features.shape[0], self.batch_size)]; [preds] is read back after the
    call.  [self.batch_size] is a C int already; the row count is handed
    over as it is, for arrays of fewer than 2^31 rows. *)
Definition call_predict (features : list V) (preds : ndarray) (n_samples : nat)
    : NM ndarray :=
  let* cs := c_view in
  let* s := get in
  let r := neural_predict_prob cs features (data preds) n_samples (batch_size (fst s)) in
  modify (fun '(n, w) =>
    (n, set_heap (core_writes (chain n) (buffer features) preds r (heap w)) w)) ;;
  ret {| shape := shape preds; data := overwrite (data preds) (snd r) |}.

(** *** train *)

(** [isinstance(x, np.ndarray)] under [assert]. *)
Definition assert_ndarray {S} (a : addr) : M (S * world) ndarray :=
  fun '(s, w) => match heap w !! a with
                 | Some arr => (Ok arr, (s, w))
                 | None => (Raise AssertionError, (s, w))
                 end.

(** [a[idx]] for an index vector [idx]: the listed rows, in a new array. *)
Definition take_rows {S} (a : ndarray) (idx : list nat) : M S ndarray :=
  match shape a with
  | [] => raise IndexError
  | n :: rest =>
      if forallb (fun i => i <? n)%nat idx then
        ret {| shape := length idx :: rest;
               data := concat ((fun i => take (prod_list rest)
                                           (drop (i * prod_list rest) (data a))) <$> idx) |}
      else raise IndexError
  end.

(** One pass of the loop body of [train] (the timing report aside). *)
Definition train_epoch (features labels : addr) (bs : Z) (alpha lamb : V) : NM unit :=
  let* F := the_array features in
  let* n := index (shape F) 0 in
  let* idx := lift_world (np_random_permutation n) in
  let* F1 := take_rows F idx in
  let* L := the_array labels in
  let* L1 := take_rows L idx in
  call_train (data (copy_astype_f32 F1)) (data (copy_astype_f32 L1)) n bs alpha lamb.

Fixpoint train_loop (iters : nat) (features labels : addr) (bs : Z)
    (alpha lamb decay : V) : NM unit :=
  match iters with
  | O => ret tt
  | S k => train_epoch features labels bs alpha lamb ;;
           train_loop k features labels bs (vmul alpha decay) lamb decay
  end.

Definition train (features labels : addr) (max_iter bs : Z)
    (alpha lamb decay : V) : NM unit :=
  let* F := assert_ndarray features in
  let* L := assert_ndarray labels in
  let* f0 := index (shape F) 0 in
  let* l0 := index (shape L) 0 in
  assert_ (Nat.eqb f0 l0) ;;
  let* f1 := index (shape F) 1 in
  let* s := get in
  assert_ (Nat.eqb f1 (n_features (fst s))) ;;
  let* l1 := index (shape L) 1 in
  assert_ (Nat.eqb l1 (n_labels (fst s))) ;;
  assert_ (0 <? bs) ;;
  (if negb (bs =? batch_size (fst s)) then set_batch bs else ret tt) ;;
  train_loop (Z.to_nat max_iter) features labels bs alpha lamb decay.

(** *** predict *)

Definition predict_prob (features : addr) : NM ndarray :=
  let* F := assert_ndarray features in
  let* f1 := index (shape F) 1 in
  let* s := get in
  assert_ (Nat.eqb f1 (n_features (fst s))) ;;
  let* f0 := index (shape F) 0 in
  call_predict (data (copy_astype_f32 F)) (np_zeros [f0; n_labels (fst s)]) f0.

(** [np.argmax] of one row: numpy keeps the first entry as the running
    maximum, moves on when [not (x <= max)], and stops at the first NaN it
    takes, a NaN being maximal. *)
Fixpoint argmax_from (best_i : nat) (best : V) (i : nat) (xs : list V) : nat :=
  match xs with
  | [] => best_i
  | x :: rest => if vleb x best then argmax_from best_i best (S i) rest
                 else if visnan x then i
                 else argmax_from i x (S i) rest
  end.

Definition argmax (row : list V) : nat :=
  match row with
  | [] => 0%nat
  | x :: rest => if visnan x then 0%nat else argmax_from 0 x 1 rest
  end.

(** The [n] rows of width [m] of a C-ordered buffer. *)
Fixpoint rows_of (n m : nat) (xs : list V) : list (list V) :=
  match n with
  | O => []
  | S n' => take m xs :: rows_of n' m (drop m xs)
  end.

(** [np.argmax(a, axis=1)] on a matrix: ValueError on rows of width 0. *)
Definition np_argmax_axis1 {S} (a : ndarray) : M S (list nat) :=
  match shape a with
  | [n; m] => if Nat.eqb m 0 then raise ValueError
              else ret (argmax <$> rows_of n m (data a))
  | _ => raise ValueError
  end.

Definition predict_label (features : addr) : NM (list nat) :=
  let* preds := predict_prob features in
  np_argmax_axis1 preds.

(** *** Serialization *)






End Wrapper.

(** ** The C core, from its specification

    [neural.c] is not part of the sources at hand; the layer arithmetic below
    follows the written description of the forward and backward engines. *)

(** Float arithmetic of the core. *)
Class Arith `{Scalar} := {
  vone : V;
  vadd : V -> V -> V;
  vsub : V -> V -> V;
  vdiv : V -> V -> V;
  sigmoid : V -> V;           (* the logistic function *)
  of_int : Z -> V }.          (* an int as a float *)

Section SpecCore.
Context `{Sc : Scalar} `{!Arith}.

Local Abbreviation matrix := (list (list V)).

Definition vsum (xs : list V) : V := foldl vadd vzero xs.
Definition dot (xs ys : list V) : V := vsum (zip_with vmul xs ys).

(** Row [o] of theta, a row-major (out_nodes, in_nodes) matrix. *)
Definition theta_row (l : c_layer) (o : nat) : list V :=
  take (c_in_nodes l) (drop (o * c_in_nodes l) (c_theta l)).
Definition at_ (xs : list V) (i : nat) : V := default vzero (xs !! i).

(** One row through one layer: [sigmoid(x . theta^T + bias)]. *)
Definition affine (l : c_layer) (x : list V) : list V :=
  (fun o => sigmoid (vadd (dot x (theta_row l o)) (at_ (c_bias l) o)))
    <$> seq 0 (c_out_nodes l).

(** A matrix written at the start of a buffer. *)
Definition fill (buf : list V) (m : matrix) : list V :=
  concat m ++ drop (length (concat m)) buf.

Definition set_act (l : c_layer) (m : matrix) : c_layer :=
  {| c_bias := c_bias l; c_theta := c_theta l; c_act := fill (c_act l) m;
     c_delta := c_delta l; c_in_nodes := c_in_nodes l; c_out_nodes := c_out_nodes l |}.

(** Modelled from the spec: the forward pass engine of [neural.c] (absent
    from the sources).  Each layer's [act] receives the batch flowing into it
    and the next layer receives [sigmoid(act . theta^T + bias)]; the tail is a
    sink whose [act] is the network's output, returned beside the chain. *)
Fixpoint forward (ls : list c_layer) (X : matrix) : list c_layer * matrix :=
  match ls with
  | [] => ([], X)
  | l :: rest =>
      match rest with
      | [] => ([set_act l X], X)
      | _ => let '(rest', Y) := forward rest (affine l <$> X) in
             (set_act l X :: rest', Y)
      end
  end.

(** Contiguous slices of [bs] rows, the last one shorter when [bs] does not
    divide the number of rows. *)
Fixpoint chunks {A} (fuel bs : nat) (rows : list A) : list (list A) :=
  match fuel with
  | O => []
  | S f => match rows with
           | [] => []
           | _ => take bs rows :: chunks f bs (drop bs rows)
           end
  end.

Definition head_in_nodes (cs : list c_layer) : nat :=
  match cs with l :: _ => c_in_nodes l | [] => 0%nat end.

(** One batch through the forward engine, its output rows appended to the
    answer so far. *)
Definition predict_step (acc : list c_layer * list V) (ck : list (list V))
    : list c_layer * list V :=
  let '(cs, out) := acc in
  let '(cs', Y) := forward cs ck in (cs', out ++ concat Y).

(** Modelled from the spec: [neural_predict_prob] of [neural.c] (absent from
    the sources).  The input rows go through the forward engine one batch at
    a time and the tail's activations are the rows of the result. *)
Definition spec_predict_prob (cs : list c_layer) (features preds : list V)
    (n_samples : nat) (bs : Z) : list c_layer * list V :=
  foldl predict_step (cs, [])
        (chunks n_samples (Z.to_nat bs) (rows_of n_samples (head_in_nodes cs) features)).

Definition sigmoid_deriv (a : V) : V := vmul a (vsub vone a).

(** [D . theta]: the error of a layer's outputs carried back to its inputs. *)
Definition back_through (l : c_layer) (d : list V) : list V :=
  (fun i => dot d ((fun o => at_ (c_theta l) (o * c_in_nodes l + i)) <$> seq 0 (c_out_nodes l)))
    <$> seq 0 (c_in_nodes l).

Definition column (m : matrix) (j : nat) : list V := (fun r => at_ r j) <$> m.

(** [theta -= (alpha/bs) * (D^T . A) + alpha*lamb*theta] and
    [bias -= (alpha/bs) * column_sum(D)], [D] the next layer's delta and [A]
    this layer's activations. *)
Definition update (l : c_layer) (A D : matrix) (bs : Z) (alpha lamb : V) : c_layer :=
  let rate := vdiv alpha (of_int bs) in
  {| c_bias := (fun o => vsub (at_ (c_bias l) o) (vmul rate (vsum (column D o))))
                 <$> seq 0 (c_out_nodes l);
     c_theta := (fun k =>
                   let o := (k / c_in_nodes l)%nat in
                   let i := (k mod c_in_nodes l)%nat in
                   let w := at_ (c_theta l) k in
                   vsub w (vadd (vmul rate (dot (column D o) (column A i)))
                                (vmul (vmul alpha lamb) w)))
                 <$> seq 0 (c_out_nodes l * c_in_nodes l);
     c_act := c_act l; c_delta := c_delta l;
     c_in_nodes := c_in_nodes l; c_out_nodes := c_out_nodes l |}.

Definition set_delta (l : c_layer) (m : matrix) : c_layer :=
  {| c_bias := c_bias l; c_theta := c_theta l; c_act := c_act l;
     c_delta := fill (c_delta l) m;
     c_in_nodes := c_in_nodes l; c_out_nodes := c_out_nodes l |}.

(** Modelled from the spec: the backward pass and update engine of
    [neural.c] (absent from the sources) on one batch: forward on the way
    down, the tail's delta is output minus labels, and on the way back each
    layer takes its delta through its old theta and is then updated.  The
    matrix returned is the delta at the input of the first layer of [ls]. *)
Fixpoint backprop (ls : list c_layer) (X Y : matrix) (bs : Z) (alpha lamb : V)
    : list c_layer * matrix :=
  match ls with
  | [] => ([], [])
  | l :: rest =>
      match rest with
      | [] => let D := zip_with (zip_with vsub) X Y in
              ([set_delta (set_act l X) D], D)
      | _ => let '(rest', Dn) := backprop rest (affine l <$> X) Y bs alpha lamb in
             let D := zip_with (zip_with vmul) (back_through l <$> Dn)
                               ((fun r : list V => sigmoid_deriv <$> r) <$> X) in
             (set_delta (set_act (update l X Dn bs alpha lamb) X) D :: rest', D)
      end
  end.

(** Modelled from the spec: [neural_train_iteration] of [neural.c] (absent
    from the sources): one epoch, batch after batch over the rows as given. *)
Definition spec_train_iteration (cs : list c_layer) (features labels : list V)
    (n_samples : nat) (bs : Z) (alpha lamb : V) : list c_layer :=
  let n_labels := match last cs with Some l => c_in_nodes l | None => 0%nat end in
  foldl (fun cs ck => fst (backprop cs (fst <$> ck) (snd <$> ck) bs alpha lamb))
        cs
        (chunks n_samples (Z.to_nat bs)
           (zip (rows_of n_samples (head_in_nodes cs) features)
                (rows_of n_samples n_labels labels))).

(** The modelled core reads [features] and [labels] and leaves them as they
    are. *)
#[export] Instance spec_core : NeuralCore := {
  neural_train_iteration cs features labels n_samples bs alpha lamb :=
    (spec_train_iteration cs features labels n_samples bs alpha lamb,
     features, labels);
  neural_predict_prob cs features preds n_samples bs :=
    let r := spec_predict_prob cs features preds n_samples bs in
    (fst r, features, snd r) }.

End SpecCore.

(** ** A concrete platform

    Scalars as Q16.16 fixed-point numbers ([z] stands for [z / 65536]),
    float32 as saturation to 32 bits, the logistic function as its
    piecewise-linear cut [clamp (x/4 + 1/2)], and a linear congruential
    generator.  Used to run the model on concrete inputs. *)
Module Fixed.

Definition one : Z := 65536.
Definition sat32 (z : Z) : Z := Z.max (-2147483648) (Z.min z 2147483647).
Definition mul (a b : Z) : Z := a * b / one.
Definition div (a b : Z) : Z := a * one / b.
Definition hard_sigmoid (x : Z) : Z := Z.max 0 (Z.min one (x / 4 + one / 2)).

#[export] Instance scalar : Scalar := {
  V := Z; vzero := 0; f32 := sat32;
  init_scale := fun x => mul x 15729 - 7864;
  vmul := mul; vleb := Z.leb; visnan := fun _ => false }.

#[export] Instance arith : Arith := {
  vone := one; vadd := Z.add; vsub := Z.sub; vdiv := div;
  sigmoid := hard_sigmoid; of_int := fun n => n * one }.

Definition lcg (g : Z) : Z := (g * 1103515245 + 12345) mod 2147483648.

Fixpoint draws (n : nat) (g : Z) : list Z * Z :=
  match n with
  | O => ([], g)
  | S k => let '(xs, g') := draws k (lcg g) in ((lcg g mod one) :: xs, g')
  end.

(** A rotation of [0 .. n-1] by an amount read off the generator. *)
Definition rotation (n : nat) (g : Z) : list nat * Z :=
  let k := Z.to_nat (lcg g mod Z.of_nat (Nat.max 1 n)) in
  (drop k (seq 0 n) ++ take k (seq 0 n), lcg g).

#[export] Instance np_random : NpRandom := {
  RNG := Z; rand := draws; permutation := rotation }.

Definition empty_world (seed : Z) : world :=
  {| heap := []; rng := seed; trace := [] |}.

End Fixed.

(** ** The platform of CPython and numpy

    Python floats are IEEE binary64 and their product is the correctly
    rounded one; [float32] and C [float] are binary32, and the conversion
    rounds to nearest, ties to even.  The sigmoid of the modelled core and
    the generator are the stand-ins of [Fixed]. *)
Module IEEE.
Import PrimFloat.

Definition to_single (x : float) : float :=
  match FloatOps.Prim2SF x with
  | SpecFloat.S754_finite s m e =>
      FloatOps.SF2Prim (SpecFloat.binary_round 24 128 s m e)
  | _ => x
  end.

Definition of_Z (z : Z) : float :=
  FloatOps.SF2Prim (SpecFloat.binary_normalize 53 1024 z 0 false).

Definition hard_sigmoid (x : float) : float :=
  let y := (x / 4 + 0x1p-1)%float in
  if (y <? 0)%float then 0%float else if (1 <? y)%float then 1%float else y.

(** [0.24] and [0.12], as Python reads them. *)
#[export] Instance scalar : Scalar := {
  V := float; vzero := 0%float; f32 := to_single;
  init_scale := fun x => (0x1.eb851eb851eb8p-3 * x - 0x1.eb851eb851eb8p-4)%float;
  vmul := mul; vleb := leb; visnan := is_nan }.

#[export] Instance arith : Arith := {
  vone := 1%float; vadd := add; vsub := sub; vdiv := div;
  sigmoid := hard_sigmoid; of_int := of_Z }.

Definition uniform (n : nat) (g : Z) : list float * Z :=
  ((fun z => (of_Z z / 0x1p16)%float) <$> fst (Fixed.draws n g), snd (Fixed.draws n g)).

#[export] Instance np_random : NpRandom := {
  RNG := Z; rand := uniform; permutation := Fixed.rotation }.

Definition empty_world (seed : Z) : world :=
  {| heap := []; rng := seed; trace := [] |}.

End IEEE.

(** ** A core that writes wherever it can

    Nothing in [neural.h] keeps the core from writing through [features],
    [labels] or [preds]: this one leaves the chain alone and fills the
    other two buffers of every call with zeros. *)
Definition wiping_core `{Scalar} : NeuralCore := {|
  neural_train_iteration cs features labels n_samples bs alpha lamb :=
    (cs, (fun _ => vzero) <$> features, (fun _ => vzero) <$> labels);
  neural_predict_prob cs features preds n_samples bs :=
    (cs, (fun _ => vzero) <$> features, (fun _ => vzero) <$> preds) |}.

(** * Properties of the wrapper *)

Ltac munfold :=
  unfold assert_, index, the_array, assert_ndarray, lift_world, np_zeros_int,
    alloc, gets, modify, get, put, bind, ret, raise in *.

(** ** C ints *)

Lemma in_int_spec z : in_int z = true <-> -2147483648 <= z < 2147483648.
Proof. unfold in_int. rewrite andb_true_iff, Z.leb_le, Z.ltb_lt. reflexivity. Qed.

Lemma c_int_ok {St} z (s : St) :
  -2147483648 <= z < 2147483648 -> c_int z s = (Ok z, s).
Proof. intros Hz. unfold c_int. apply in_int_spec in Hz. rewrite Hz. reflexivity. Qed.

Lemma c_int_bad {St} z (s : St) :
  ~ (-2147483648 <= z < 2147483648) -> c_int z s = (Raise OverflowError, s).
Proof.
  intros Hz. unfold c_int. destruct (in_int z) eqn:E; [|reflexivity].
  apply in_int_spec in E. contradiction.
Qed.

(** A size that fits a C int. *)
Definition fits (k : nat) : Prop := Z.of_nat k < 2147483648.

Lemma in_int_fits k : in_int (Z.of_nat k) = true <-> fits k.
Proof. rewrite in_int_spec. unfold fits. lia. Qed.

#[local] Instance fits_dec k : Decision (fits k).
Proof. unfold fits. apply Z.lt_dec. Qed.

Section LayerFacts.
Context `{Sc : Scalar} `{!NpRandom}.

Lemma length_overwrite (old new : list V) :
  length (overwrite old new) = length old.
Proof.
  unfold overwrite.
  rewrite length_app, length_take, length_drop, length_fmap. lia.
Qed.

Lemma layer_set_params_ok l w b t barr tarr :
  heap w !! b = Some barr -> heap w !! t = Some tarr ->
  np_size barr = out_nodes l -> np_size tarr = (out_nodes l * in_nodes l)%nat ->
  layer_set_params b t (l, w) =
    (Ok tt, ({| bias := length (heap w); theta := S (length (heap w));
                act := act l; delta := delta l;
                in_nodes := in_nodes l; out_nodes := out_nodes l |},
             set_heap (heap w ++ [copy_astype_f32 barr; copy_astype_f32 tarr]) w)).
Proof.
  intros Hb Ht Sb St.
  unfold layer_set_params. munfold. simpl.
  rewrite Hb, Sb, Nat.eqb_refl. simpl. rewrite Ht, St, Nat.eqb_refl. simpl.
  rewrite length_app, <- app_assoc. simpl.
  replace (length (heap w) + 1)%nat with (S (length (heap w))) by lia.
  reflexivity.
Qed.

Lemma layer_set_params_bad l w b t barr tarr :
  heap w !! b = Some barr -> heap w !! t = Some tarr ->
  np_size barr <> out_nodes l \/ np_size tarr <> (out_nodes l * in_nodes l)%nat ->
  layer_set_params b t (l, w) = (Raise AssertionError, (l, w)).
Proof.
  intros Hb Ht Hbad.
  unfold layer_set_params. munfold. simpl. rewrite Hb.
  destruct (Nat.eqb_spec (np_size barr) (out_nodes l)) as [E1|Hne]; simpl; [|done].
  rewrite Ht.
  destruct (Nat.eqb_spec (np_size tarr) (out_nodes l * in_nodes l)) as [E2|Hne]; simpl; [|done].
  destruct Hbad as [Hbad|Hbad]; contradiction.
Qed.

Lemma layer_set_batch_ok l w bs :
  0 <= bs ->
  layer_set_batch bs (l, w) =
    (Ok tt, ({| bias := bias l; theta := theta l;
                act := Some (length (heap w)); delta := Some (S (length (heap w)));
                in_nodes := in_nodes l; out_nodes := out_nodes l |},
             set_heap (heap w ++ [np_zeros [Z.to_nat (Z.of_nat (in_nodes l) * bs)];
                                  np_zeros [Z.to_nat (Z.of_nat (in_nodes l) * bs)]]) w)).
Proof.
  intros Hbs. unfold layer_set_batch. munfold. simpl.
  destruct (Z.ltb_spec (Z.of_nat (in_nodes l) * bs) 0) as [Hneg|_]; [nia|].
  simpl. rewrite length_app, <- app_assoc. simpl.
  replace (length (heap w) + 1)%nat with (S (length (heap w))) by lia.
  reflexivity.
Qed.


End LayerFacts.

Section NetFacts.
Context `{Sc : Scalar} `{!NpRandom} `{!NeuralCore}.

(** Two stores with the same objects of the same shapes. *)
Definition shape_eq (h h' : list ndarray) : Prop :=
  forall a : addr, shape <$> h !! a = shape <$> h' !! a.

Lemma shape_eq_refl h : shape_eq h h.
Proof. intros a. reflexivity. Qed.

Lemma shape_eq_trans h1 h2 h3 : shape_eq h1 h2 -> shape_eq h2 h3 -> shape_eq h1 h3.
Proof. intros H12 H23 a. rewrite H12. apply H23. Qed.

Lemma store_data_shape_eq a new h : shape_eq h (store_data a new h).
Proof.
  intros a'. unfold store_data.
  destruct (h !! a) as [arr|] eqn:E; [|reflexivity].
  destruct (decide (a' = a)) as [->|Hne].
  - rewrite list_lookup_insert_eq by (eapply lookup_lt_Some; eassumption).
    rewrite E. reflexivity.
  - rewrite list_lookup_insert_ne by congruence. reflexivity.
Qed.

Lemma store_opt_shape_eq a new h : shape_eq h (store_opt a new h).
Proof. destruct a; [apply store_data_shape_eq | apply shape_eq_refl]. Qed.

Lemma write_layer_shape_eq l c h : shape_eq h (write_layer l c h).
Proof.
  unfold write_layer.
  eapply shape_eq_trans; [apply store_data_shape_eq|].
  eapply shape_eq_trans; [apply store_data_shape_eq|].
  eapply shape_eq_trans; [apply store_opt_shape_eq|].
  apply store_opt_shape_eq.
Qed.

Lemma write_chain_shape_eq ls cs h : shape_eq h (write_chain ls cs h).
Proof.
  revert cs h. induction ls as [|l ls IH]; intros [|c cs] h; simpl;
    try apply shape_eq_refl.
  eapply shape_eq_trans; [apply write_layer_shape_eq | apply IH].
Qed.

Lemma shape_eq_is_Some h h' a : shape_eq h h' -> is_Some (h !! a) -> is_Some (h' !! a).
Proof.
  intros Hs [x Hx]. specialize (Hs a). rewrite Hx in Hs.
  destruct (h' !! a); [eauto | discriminate].
Qed.

Lemma deref_layer_is_Some h l :
  is_Some (deref_layer h l) <->
  is_Some (h !! bias l) /\ is_Some (h !! theta l) /\
  is_Some (act l ≫= (h !!.)) /\ is_Some (delta l ≫= (h !!.)).
Proof.
  unfold deref_layer. split.
  - intros [c Hc].
    destruct (h !! bias l); [|discriminate]. simpl in Hc.
    destruct (h !! theta l); [|discriminate]. simpl in Hc.
    destruct (act l ≫= (h !!.)); [|discriminate]. simpl in Hc.
    destruct (delta l ≫= (h !!.)); [|discriminate]. eauto.
  - intros ([b ->] & [t ->] & [a ->] & [d ->]). simpl. eauto.
Qed.

Lemma deref_layer_shape_eq h h' l :
  shape_eq h h' -> is_Some (deref_layer h l) -> is_Some (deref_layer h' l).
Proof.
  intros Hs. rewrite !deref_layer_is_Some.
  intros (Hb & Ht & Ha & Hd).
  repeat split; try (eapply shape_eq_is_Some; eassumption).
  - destruct (act l); [eapply shape_eq_is_Some; eassumption | exact Ha].
  - destruct (delta l); [eapply shape_eq_is_Some; eassumption | exact Hd].
Qed.

Lemma deref_chain_shape_eq h h' c :
  shape_eq h h' -> is_Some (deref_chain h c) -> is_Some (deref_chain h' c).
Proof.
  unfold deref_chain. rewrite !mapM_is_Some. intros Hs HF.
  eapply Forall_impl; [exact HF|]. intros l. apply deref_layer_shape_eq, Hs.
Qed.

(** The chain after [set_batch]: layer after layer takes two new buffers. *)
Fixpoint rebuf (L : nat) (c : list NetLayer) : list NetLayer :=
  match c with
  | [] => []
  | l :: rest =>
      {| bias := bias l; theta := theta l; act := Some L; delta := Some (S L);
         in_nodes := in_nodes l; out_nodes := out_nodes l |} :: rebuf (S (S L)) rest
  end.

Fixpoint zero_bufs (bs : Z) (c : list NetLayer) : list ndarray :=
  match c with
  | [] => []
  | l :: rest => np_zeros [Z.to_nat (Z.of_nat (in_nodes l) * bs)]
                 :: np_zeros [Z.to_nat (Z.of_nat (in_nodes l) * bs)]
                 :: zero_bufs bs rest
  end.

Lemma length_zero_bufs bs c : length (zero_bufs bs c) = (2 * length c)%nat.
Proof.
  induction c as [|l c IH]; simpl; [reflexivity|]. rewrite IH. lia.
Qed.

Lemma each_layer_set_batch bs i c w :
  0 <= bs ->
  each_layer (fun _ => layer_set_batch bs) i c w =
    (Ok tt, (rebuf (length (heap w)) c, set_heap (heap w ++ zero_bufs bs c) w)).
Proof.
  intros Hbs. revert i w. induction c as [|l c IH]; intros i w; simpl.
  - rewrite app_nil_r. destruct w; reflexivity.
  - rewrite layer_set_batch_ok by assumption.
    rewrite IH. simpl. rewrite length_app. simpl.
    replace (length (heap w) + 2)%nat with (S (S (length (heap w)))) by lia.
    unfold set_heap. simpl. rewrite <- app_assoc. reflexivity.
Qed.

Definition with_batch (bs : Z) (c : list NetLayer) (n : NeuralNet) : NeuralNet :=
  {| layers := layers n; n_features := n_features n; n_labels := n_labels n;
     batch_size := bs; chain := c |}.

Lemma set_batch_ok bs n w :
  0 <= bs < 2147483648 ->
  set_batch bs (n, w) =
    (Ok tt, (with_batch bs (rebuf (length (heap w)) (chain n)) n,
             set_heap (heap w ++ zero_bufs bs (chain n)) w)).
Proof.
  intros Hbs. unfold set_batch, for_chain, bind. rewrite c_int_ok by lia.
  munfold. simpl. rewrite each_layer_set_batch by lia. reflexivity.
Qed.

Lemma set_batch_overflow bs n w :
  ~ (-2147483648 <= bs < 2147483648) ->
  set_batch bs (n, w) = (Raise OverflowError, (n, w)).
Proof.
  intros Hbs. unfold set_batch, bind. rewrite c_int_bad by exact Hbs. reflexivity.
Qed.

Lemma rebuf_nil L c : rebuf L c = [] <-> c = [].
Proof. destruct c; simpl; split; congruence. Qed.

Lemma deref_rebuf h bs c ext :
  Forall (fun l => is_Some (h !! bias l) /\ is_Some (h !! theta l)) c ->
  Forall (fun l => is_Some (deref_layer (h ++ zero_bufs bs c ++ ext) l))
         (rebuf (length h) c).
Proof.
  revert h ext. induction c as [|l c IH]; intros h ext Hc; simpl; [constructor|].
  inversion Hc as [|? ? [Hb Ht] Hc']; subst. constructor.
  - apply deref_layer_is_Some. simpl.
    repeat split.
    + rewrite lookup_app_l by (apply lookup_lt_is_Some; assumption). assumption.
    + rewrite lookup_app_l by (apply lookup_lt_is_Some; assumption). assumption.
    + rewrite lookup_app_r by lia. rewrite Nat.sub_diag. simpl. eauto.
    + rewrite lookup_app_r by lia.
      replace (S (length h) - length h)%nat with 1%nat by lia. simpl. eauto.
  - specialize (IH (h ++ [np_zeros [Z.to_nat (Z.of_nat (in_nodes l) * bs)];
                          np_zeros [Z.to_nat (Z.of_nat (in_nodes l) * bs)]]) ext).
    rewrite length_app in IH. simpl in IH.
    replace (length h + 2)%nat with (S (S (length h))) in IH by lia.
    rewrite <- app_assoc in IH. simpl in IH. apply IH.
    eapply Forall_impl; [exact Hc'|]. simpl. intros l' [Hb' Ht'].
    split; (rewrite lookup_app_l by (apply lookup_lt_is_Some; assumption)); assumption.
Qed.

(** A network the C core can be called on: it has a head and every buffer
    of every layer is set. *)
Definition ready (s : NeuralNet * world) : Prop :=
  chain (fst s) <> [] /\ is_Some (deref_chain (heap (snd s)) (chain (fst s))).

Lemma ready_set_batch bs n w :
  ready (n, w) ->
  ready (with_batch bs (rebuf (length (heap w)) (chain n)) n,
         set_heap (heap w ++ zero_bufs bs (chain n)) w).
Proof.
  intros [Hne Hd]. split; simpl.
  - rewrite rebuf_nil. assumption.
  - unfold deref_chain in *. rewrite mapM_is_Some in *.
    pose proof (deref_rebuf (heap w) bs (chain n) []) as Hr.
    rewrite app_nil_r in Hr. apply Hr.
    eapply Forall_impl; [exact Hd|]. simpl. intros l Hl.
    apply deref_layer_is_Some in Hl. tauto.
Qed.

(** ** The store outside the chain *)

Definition layer_addrs (l : NetLayer) : list addr :=
  bias l :: theta l :: option_list (act l) ++ option_list (delta l).

Fixpoint chain_addrs (c : list NetLayer) : list addr :=
  match c with
  | [] => []
  | l :: rest => layer_addrs l ++ chain_addrs rest
  end.

Lemma store_data_other a a' new h : a' <> a -> store_data a new h !! a' = h !! a'.
Proof.
  intros Hne. unfold store_data. destruct (h !! a); [|reflexivity].
  apply list_lookup_insert_ne. congruence.
Qed.

Lemma store_opt_other a a' new h : a' ∉ option_list a -> store_opt a new h !! a' = h !! a'.
Proof.
  destruct a as [a|]; simpl; [|reflexivity].
  intros Hne. apply store_data_other. intros ->. apply Hne. left.
Qed.

Lemma write_layer_other l c h a :
  a ∉ layer_addrs l -> write_layer l c h !! a = h !! a.
Proof.
  unfold layer_addrs, write_layer. intros Hn.
  apply not_elem_of_cons in Hn as [Hb Hn].
  apply not_elem_of_cons in Hn as [Ht Hn].
  apply not_elem_of_app in Hn as [Ha Hd].
  rewrite store_opt_other by assumption.
  rewrite store_opt_other by assumption.
  rewrite store_data_other by assumption.
  apply store_data_other. assumption.
Qed.

Lemma write_chain_other ls cs h a :
  a ∉ chain_addrs ls -> write_chain ls cs h !! a = h !! a.
Proof.
  revert cs h. induction ls as [|l ls IH]; intros [|c cs] h Hn; simpl; try reflexivity.
  change (a ∉ layer_addrs l ++ chain_addrs ls) in Hn.
  apply not_elem_of_app in Hn as [Hl Hr].
  rewrite IH by assumption. apply write_layer_other. assumption.
Qed.

(** ** The temporaries of a call *)

Lemma length_store_data a new h : length (store_data a new h) = length h.
Proof. unfold store_data. destruct (h !! a); [apply length_insert | reflexivity]. Qed.

Lemma length_store_opt a new h : length (store_opt a new h) = length h.
Proof. destruct a; [apply length_store_data | reflexivity]. Qed.

Lemma length_write_layer l c h : length (write_layer l c h) = length h.
Proof.
  unfold write_layer. rewrite !length_store_opt, !length_store_data. reflexivity.
Qed.

Lemma length_write_chain ls : forall cs h, length (write_chain ls cs h) = length h.
Proof.
  induction ls as [|l ls IH]; intros [|c cs] h; simpl; try reflexivity.
  rewrite IH. apply length_write_layer.
Qed.

Lemma store_data_app_l a new h e :
  (a < length h)%nat -> store_data a new (h ++ e) = store_data a new h ++ e.
Proof.
  intros Hlt. unfold store_data. rewrite lookup_app_l by exact Hlt.
  destruct (h !! a); [|reflexivity]. apply insert_app_l. exact Hlt.
Qed.

Lemma store_data_app_r a new h e :
  (length h <= a)%nat ->
  store_data a new (h ++ e) = h ++ store_data (a - length h) new e.
Proof.
  intros Hge. unfold store_data. rewrite lookup_app_r by exact Hge.
  destruct (e !! (a - length h)%nat); [|reflexivity].
  apply insert_app_r_alt. exact Hge.
Qed.

Lemma store_opt_app_l a new h e :
  is_Some (a ≫= (h !!.)) -> store_opt a new (h ++ e) = store_opt a new h ++ e.
Proof.
  destruct a as [a|]; simpl; intros [x Hx]; [|discriminate].
  apply store_data_app_l. eapply lookup_lt_Some. exact Hx.
Qed.

Lemma write_layer_app l c h e :
  is_Some (deref_layer h l) -> write_layer l c (h ++ e) = write_layer l c h ++ e.
Proof.
  rewrite deref_layer_is_Some. intros ([b Hb] & [t Ht] & Ha & Hd).
  unfold write_layer.
  rewrite store_data_app_l by (eapply lookup_lt_Some; exact Hb).
  rewrite store_data_app_l
    by (rewrite length_store_data; eapply lookup_lt_Some; exact Ht).
  assert (Hk : forall (o : option addr) (h' : list ndarray), length h' = length h ->
            is_Some (o ≫= (h !!.)) -> is_Some (o ≫= (h' !!.))).
  { intros [o|] h' Hlen [x Hx]; simpl in *; [|discriminate].
    apply lookup_lt_is_Some. rewrite Hlen. eapply lookup_lt_Some. exact Hx. }
  rewrite store_opt_app_l by (apply Hk; [rewrite !length_store_data; reflexivity|exact Ha]).
  rewrite store_opt_app_l
    by (apply Hk; [rewrite length_store_opt, !length_store_data; reflexivity|exact Hd]).
  reflexivity.
Qed.

Lemma write_chain_app ls : forall cs h e,
  Forall (fun l => is_Some (deref_layer h l)) ls ->
  write_chain ls cs (h ++ e) = write_chain ls cs h ++ e.
Proof.
  induction ls as [|l ls IH]; intros [|c cs] h e Hall; simpl; try reflexivity.
  inversion Hall as [|? ? Hl Hls]; subst.
  rewrite write_layer_app by exact Hl. apply IH.
  eapply Forall_impl; [exact Hls|]. intros l'.
  apply deref_layer_shape_eq, write_layer_shape_eq.
Qed.

(** On a chain whose pointers are all set, what a call leaves in the store
    is what the core wrote through the chain: its writes through the other
    two pointers went to the temporaries. *)
Lemma core_writes_chain c x y r h :
  is_Some (deref_chain h c) -> core_writes c x y r h = write_chain c (fst (fst r)) h.
Proof.
  unfold deref_chain. rewrite mapM_is_Some. intros Hall. unfold core_writes.
  rewrite write_chain_app by exact Hall.
  set (h1 := write_chain c (fst (fst r)) h).
  assert (Hlen : length h1 = length h) by apply length_write_chain.
  rewrite <- Hlen.
  rewrite (store_data_app_r (length h1)) by lia.
  rewrite (store_data_app_r (S (length h1))) by lia.
  apply take_app_length.
Qed.



(** ** train *)

(** [np.random.permutation(n)] is a permutation of [range(n)]. *)
Definition permutation_ok : Prop :=
  forall n g, fst (permutation n g) ≡ₚ seq 0 n.

Lemma take_rows_ok {S} (a : ndarray) idx n rest (s : S) :
  shape a = n :: rest -> Forall (fun i => i < n)%nat idx ->
  exists r, take_rows a idx s = (Ok r, s) /\ shape r = length idx :: rest.
Proof.
  intros Hs Hidx. unfold take_rows. rewrite Hs.
  assert (forallb (fun i => i <? n)%nat idx = true) as ->.
  { apply forallb_forall. intros x Hx. apply Nat.ltb_lt.
    rewrite Forall_forall in Hidx. apply Hidx. apply list_elem_of_In. assumption. }
  eexists. split; reflexivity.
Qed.

Lemma permutation_in_range n g :
  permutation_ok -> Forall (fun i => i < n)%nat (fst (permutation n g)).
Proof.
  intros Hp. apply Forall_forall. intros x Hx.
  rewrite (Hp n g) in Hx. apply elem_of_seq in Hx. lia.
Qed.

Definition the_call (n : nat) (bs : Z) (alpha lamb : V) : train_call :=
  {| tc_n_samples := n; tc_batch_size := bs; tc_alpha := alpha; tc_lamb := lamb |}.

Lemma c_view_ok n w cs :
  chain n <> [] -> deref_chain (heap w) (chain n) = Some cs ->
  c_view (n, w) = (Ok cs, (n, w)).
Proof.
  intros Hne Hcs. unfold c_view. rewrite Hcs. destruct (chain n); done.
Qed.

(** A call on a chain whose pointers are set, with counts that fit. *)
Lemma call_train_ok xs ys k bs alpha lamb n w cs :
  fits k -> -2147483648 <= bs < 2147483648 ->
  chain n <> [] -> deref_chain (heap w) (chain n) = Some cs ->
  call_train xs ys k bs alpha lamb (n, w) =
    (Ok tt,
     (n, {| heap := write_chain (chain n)
                      (fst (fst (neural_train_iteration cs xs ys k bs
                                   (f32 alpha) (f32 lamb))))
                      (heap w);
            rng := rng w;
            trace := trace w ++ [the_call k bs (f32 alpha) (f32 lamb)] |})).
Proof.
  intros Hk Hbs Hne Hcs. unfold call_train, bind.
  rewrite c_int_ok by (unfold fits in Hk; lia). rewrite c_int_ok by exact Hbs.
  rewrite (c_view_ok _ _ cs) by assumption. unfold modify.
  rewrite core_writes_chain by (rewrite Hcs; eauto). reflexivity.
Qed.

Lemma train_epoch_ok features labels bs alpha lamb n w F L fr fs ls :
  permutation_ok -> ready (n, w) ->
  heap w !! features = Some F -> heap w !! labels = Some L ->
  shape F = fr :: fs -> shape L = fr :: ls ->
  fits fr -> -2147483648 <= bs < 2147483648 ->
  exists cs w',
    train_epoch features labels bs alpha lamb (n, w) = (Ok tt, (n, w')) /\
    heap w' = write_chain (chain n) cs (heap w) /\
    trace w' = trace w ++ [the_call fr bs (f32 alpha) (f32 lamb)].
Proof.
  intros Hp [Hne [cs Hcs]] HF HL SF SL Hfr Hbs. simpl in *.
  unfold train_epoch. munfold. simpl. rewrite HF, SF. simpl.
  unfold np_random_permutation.
  pose proof (permutation_in_range fr (rng w) Hp) as Hidx.
  destruct (permutation fr (rng w)) as [idx g] eqn:Eperm. simpl in *.
  destruct (take_rows_ok (S := NeuralNet * world) F idx fr fs
              (n, {| heap := heap w; rng := g; trace := trace w |}) SF Hidx)
    as (F1 & -> & _).
  cbn [heap]. rewrite HL.
  destruct (take_rows_ok (S := NeuralNet * world) L idx fr ls
              (n, {| heap := heap w; rng := g; trace := trace w |}) SL Hidx)
    as (L1 & -> & _).
  rewrite (call_train_ok _ _ fr bs alpha lamb n _ cs) by assumption.
  eexists _, _. split; [reflexivity|]. simpl. split; reflexivity.
Qed.

(** [alpha] after [k] products by [decay], as [alpha *= decay] computes it. *)
Definition decayed (alpha decay : V) (k : nat) : V :=
  Nat.iter k (fun a => vmul a decay) alpha.

(** [decay ** k] over a unit [e]. *)
Fixpoint vpow (e decay : V) (k : nat) : V :=
  match k with
  | O => e
  | S k' => vmul (vpow e decay k') decay
  end.

Lemma decayed_vpow e alpha decay k :
  (forall a, vmul a e = a) ->
  (forall a b c, vmul (vmul a b) c = vmul a (vmul b c)) ->
  decayed alpha decay k = vmul alpha (vpow e decay k).
Proof.
  intros Hunit Hassoc. induction k as [|k IH]; simpl.
  - symmetry. apply Hunit.
  - unfold decayed in *. simpl. rewrite IH. apply Hassoc.
Qed.

Lemma shape_eq_lookup h h' a (x : ndarray) :
  shape_eq h h' -> h !! a = Some x -> exists y, h' !! a = Some y /\ shape y = shape x.
Proof.
  intros Hs Hx. specialize (Hs a). rewrite Hx in Hs.
  destruct (h' !! a) as [y|]; [|discriminate].
  exists y. split; [reflexivity|]. simpl in Hs. congruence.
Qed.

Section Train.
Variables (features labels : addr) (bs : Z) (lamb decay : V).

Lemma train_loop_ok iters : forall alpha n w F L fr fs ls,
  permutation_ok -> ready (n, w) ->
  heap w !! features = Some F -> heap w !! labels = Some L ->
  shape F = fr :: fs -> shape L = fr :: ls ->
  fits fr -> -2147483648 <= bs < 2147483648 ->
  exists w',
    train_loop iters features labels bs alpha lamb decay (n, w) = (Ok tt, (n, w')) /\
    shape_eq (heap w) (heap w') /\
    (forall a, a ∉ chain_addrs (chain n) -> heap w' !! a = heap w !! a) /\
    trace w' = trace w ++
      ((fun k => the_call fr bs (f32 (decayed alpha decay k)) (f32 lamb))
         <$> seq 0 iters).
Proof.
  induction iters as [|m IH]; intros alpha n w F L fr fs ls Hp Hr HF HL SF SL Hfr Hbs.
  - exists w. simpl. split; [reflexivity|]. split; [apply shape_eq_refl|].
    split; [reflexivity|]. rewrite app_nil_r. reflexivity.
  - destruct (train_epoch_ok features labels bs alpha lamb n w F L fr fs ls
                Hp Hr HF HL SF SL Hfr Hbs) as (cs & w1 & He & Hh & Ht).
    assert (Hs1 : shape_eq (heap w) (heap w1)).
    { rewrite Hh. apply write_chain_shape_eq. }
    destruct (shape_eq_lookup _ _ _ _ Hs1 HF) as (F' & HF' & SF').
    destruct (shape_eq_lookup _ _ _ _ Hs1 HL) as (L' & HL' & SL').
    assert (Hr1 : ready (n, w1)).
    { destruct Hr as [Hne Hd]. split; [exact Hne|].
      eapply deref_chain_shape_eq; eassumption. }
    rewrite SF in SF'. rewrite SL in SL'.
    destruct (IH (vmul alpha decay) n w1 F' L' fr fs ls Hp Hr1 HF' HL' SF' SL' Hfr Hbs)
      as (w' & Hl & Hs & Hfr' & Htr).
    exists w'. split.
    { simpl. unfold bind at 1. rewrite He. exact Hl. }
    split; [eapply shape_eq_trans; eassumption|].
    split.
    { intros a Ha. rewrite Hfr' by assumption. rewrite Hh.
      apply write_chain_other. assumption. }
    rewrite Htr, Ht, <- app_assoc. f_equal. simpl. f_equal.
    rewrite <- fmap_S_seq, <- list_fmap_compose.
    apply list_fmap_ext. intros i k _. unfold compose, the_call, decayed.
    do 2 f_equal. exact (eq_sym (Nat.iter_succ_r k (fun a => vmul a decay) alpha)).
Qed.

End Train.

Lemma rebuf_addrs_fresh a L c :
  (a < L)%nat -> a ∉ chain_addrs c -> a ∉ chain_addrs (rebuf L c).
Proof.
  revert L. induction c as [|l c IH]; intros L Ha Hn; simpl; [exact Hn|].
  change (a ∉ layer_addrs l ++ chain_addrs c) in Hn.
  apply not_elem_of_app in Hn as [Hl Hc].
  unfold layer_addrs in Hl.
  apply not_elem_of_cons in Hl as [Hb Hl].
  apply not_elem_of_cons in Hl as [Ht _].
  rewrite !not_elem_of_cons. repeat split; try assumption; try lia.
  apply IH; [lia | assumption].
Qed.

Lemma train_runs features labels max_iter bs alpha lamb decay n w F L fr fc fs lc ls :
  permutation_ok -> ready (n, w) ->
  heap w !! features = Some F -> heap w !! labels = Some L ->
  shape F = fr :: fc :: fs -> shape L = fr :: lc :: ls ->
  fc = n_features n -> lc = n_labels n -> fits fr -> 0 < bs < 2147483648 ->
  exists n' w',
    train features labels max_iter bs alpha lamb decay (n, w) = (Ok tt, (n', w')) /\
    (forall a, (a < length (heap w))%nat -> a ∉ chain_addrs (chain n) ->
               heap w' !! a = heap w !! a) /\
    trace w' = trace w ++
      ((fun k => the_call fr bs (f32 (decayed alpha decay k)) (f32 lamb))
         <$> seq 0 (Z.to_nat max_iter)).
Proof.
  intros Hp Hr HF HL SF SL -> -> Hfits Hbs.
  assert (Hbs' : -2147483648 <= bs < 2147483648) by lia.
  unfold train. munfold. rewrite HF, HL, SF, SL. simpl.
  rewrite !Nat.eqb_refl. simpl.
  destruct (Z.ltb_spec 0 bs) as [_|Hn]; [|lia]. simpl.
  destruct (Z.eqb_spec bs (batch_size n)) as [Heq|Hne]; simpl.
  - destruct (train_loop_ok features labels bs lamb decay (Z.to_nat max_iter)
                alpha n w F L fr (n_features n :: fs) (n_labels n :: ls)
                Hp Hr HF HL SF SL Hfits Hbs') as (w' & Hl & _ & Hfr & Htr).
    exists n, w'. split; [exact Hl|]. split; [|exact Htr].
    intros a _ Ha. apply Hfr, Ha.
  - rewrite set_batch_ok by lia.
    pose proof (ready_set_batch bs n w Hr) as Hr1.
    set (n1 := with_batch bs (rebuf (length (heap w)) (chain n)) n) in *.
    set (w1 := set_heap (heap w ++ zero_bufs bs (chain n)) w) in *.
    assert (HF1 : heap w1 !! features = Some F).
    { simpl. rewrite lookup_app_l by (eapply lookup_lt_Some; eassumption). exact HF. }
    assert (HL1 : heap w1 !! labels = Some L).
    { simpl. rewrite lookup_app_l by (eapply lookup_lt_Some; eassumption). exact HL. }
    destruct (train_loop_ok features labels bs lamb decay (Z.to_nat max_iter)
                alpha n1 w1 F L fr (n_features n :: fs) (n_labels n :: ls)
                Hp Hr1 HF1 HL1 SF SL Hfits Hbs') as (w' & Hl & _ & Hfr & Htr).
    exists n1, w'. split; [exact Hl|]. split; [|exact Htr].
    intros a Ha Hn. rewrite Hfr.
    + simpl. apply lookup_app_l. exact Ha.
    + simpl. apply rebuf_addrs_fresh; assumption.
Qed.


(** C6, as the code has it: [train] never looks at whether [batch_size]
    divides the number of rows.  With arguments of the right shapes, every
    [batch_size] from 1 that fits a C int is accepted and the call runs to
    the end, whatever the number of rows.  The batch sizes refused are the
    non-positive ones, by an AssertionError, and those past the C ints, by
    the OverflowError of [set_batch]; both before anything is touched. *)
Theorem train_accepts_any_row_count
    features labels max_iter bs alpha lamb decay n w F L fr fc fs lc ls :
  permutation_ok -> ready (n, w) ->
  heap w !! features = Some F -> heap w !! labels = Some L ->
  shape F = fr :: fc :: fs -> shape L = fr :: lc :: ls ->
  fc = n_features n -> lc = n_labels n -> fits fr ->
  (0 < bs < 2147483648 -> exists n' w',
     train features labels max_iter bs alpha lamb decay (n, w) = (Ok tt, (n', w'))) /\
  (bs <= 0 ->
     train features labels max_iter bs alpha lamb decay (n, w)
       = (Raise AssertionError, (n, w))) /\
  (2147483648 <= bs -> batch_size n < 2147483648 ->
     train features labels max_iter bs alpha lamb decay (n, w)
       = (Raise OverflowError, (n, w))).
Proof.
  intros Hp Hr HF HL SF SL Hfc Hlc Hfits. split; [|split]; intros Hbs.
  - destruct (train_runs features labels max_iter bs alpha lamb decay n w F L
                fr fc fs lc ls Hp Hr HF HL SF SL Hfc Hlc Hfits Hbs)
      as (n' & w' & Ht & _). eauto.
  - subst fc lc. unfold train. munfold. rewrite HF, HL, SF, SL. simpl.
    rewrite !Nat.eqb_refl. simpl.
    destruct (Z.ltb_spec 0 bs) as [Hn|_]; [lia|]. reflexivity.
  - intros Hn. subst fc lc. unfold train. munfold. rewrite HF, HL, SF, SL. simpl.
    rewrite !Nat.eqb_refl. simpl.
    destruct (Z.ltb_spec 0 bs) as [_|Hle]; [|lia]. simpl.
    destruct (Z.eqb_spec bs (batch_size n)) as [Heq|_]; [lia|]. simpl.
    rewrite set_batch_overflow by lia. reflexivity.
Qed.

(** C5: when the two row counts differ, or the column count of [features]
    is not [n_features], or that of [labels] is not [n_labels], [train]
    raises (an AssertionError, the wrapper's shape error) and the network
    and the store are exactly as before the call. *)
Theorem train_shape_mismatch
    features labels max_iter bs alpha lamb decay n w F L fr fc fs lr lc ls :
  heap w !! features = Some F -> heap w !! labels = Some L ->
  shape F = fr :: fc :: fs -> shape L = lr :: lc :: ls ->
  fr <> lr \/ fc <> n_features n \/ lc <> n_labels n ->
  train features labels max_iter bs alpha lamb decay (n, w)
    = (Raise AssertionError, (n, w)).
Proof.
  intros HF HL SF SL Hbad.
  unfold train. munfold. rewrite HF, HL, SF, SL. simpl.
  destruct (Nat.eqb_spec fr lr) as [E1|N1]; simpl; [|reflexivity].
  destruct (Nat.eqb_spec fc (n_features n)) as [E2|N2]; simpl; [|reflexivity].
  destruct (Nat.eqb_spec lc (n_labels n)) as [E3|N3]; simpl; [|reflexivity].
  destruct Hbad as [?|[?|?]]; contradiction.
Qed.

(** ** The network [__init__] builds *)

(** The layer objects of a new chain, the first array at address [L]. *)
Fixpoint fresh_chain (L : nat) (ls : list nat) : list NetLayer :=
  match ls with
  | [] => []
  | n :: rest =>
      {| bias := L; theta := S L; act := None; delta := None;
         in_nodes := n; out_nodes := match rest with m :: _ => m | [] => 0%nat end |}
      :: fresh_chain (S (S L)) rest
  end.

Definition init_array (n : nat) (r : list V) : ndarray :=
  copy_astype_f32 {| shape := [n]; data := init_scale <$> r |}.

(** The arrays of a new chain, in allocation order, and the generator left. *)
Fixpoint init_arrays (ls : list nat) (g : RNG) : list ndarray * RNG :=
  match ls with
  | [] => ([], g)
  | n :: rest =>
      let out := match rest with m :: _ => m | [] => 0%nat end in
      let '(rb, g1) := rand out g in
      let '(rt, g2) := rand (out * n) g1 in
      let '(ext, g3) := init_arrays rest g2 in
      (init_array out rb :: init_array (out * n) rt :: ext, g3)
  end.

(** The sizes of a layer are stored once its two arrays are made. *)
Lemma NetLayer_init_sizes in_n out_n w :
  exists l b t g,
    NetLayer_init in_n out_n w =
      (if in_int (Z.of_nat in_n) && in_int (Z.of_nat out_n)
       then Ok l else Raise OverflowError,
       {| heap := heap w ++ [b; t]; rng := g; trace := trace w |}).
Proof.
  unfold NetLayer_init, np_random_rand, alloc, set_heap. simpl.
  destruct (rand _ (rng w)) as [rb g1]. simpl.
  destruct (rand _ g1) as [rt g2]. simpl.
  unfold bind, c_int. rewrite <- app_assoc. simpl.
  eexists _, _, _, _.
  destruct (in_int (Z.of_nat in_n)); simpl;
    [destruct (in_int (Z.of_nat out_n))|]; reflexivity.
Qed.

Lemma fits_0 : fits 0.
Proof. unfold fits. lia. Qed.

Lemma build_chain_eq ls : forall w,
  Forall fits ls ->
  build_chain ls w =
    (Ok tt,
     (fresh_chain (length (heap w)) ls,
      {| heap := heap w ++ fst (init_arrays ls (rng w));
         rng := snd (init_arrays ls (rng w)); trace := trace w |})).
Proof.
  induction ls as [|n rest IH]; intros w Hfit; simpl.
  - rewrite app_nil_r. destruct w; reflexivity.
  - inversion Hfit as [|? ? Hn Hrest]; subst.
    assert (Hout : fits (match rest with m :: _ => m | [] => 0%nat end)).
    { destruct rest; [apply fits_0|]. inversion Hrest; assumption. }
    unfold NetLayer_init, np_random_rand, alloc, set_heap. simpl.
    destruct (rand _ (rng w)) as [rb g1]. simpl.
    destruct (rand _ g1) as [rt g2]. simpl.
    unfold bind, c_int.
    apply in_int_fits in Hn, Hout. rewrite Hn, Hout. unfold ret.
    rewrite IH by exact Hrest. simpl.
    destruct (init_arrays rest g2) as [ext g3]. simpl.
    rewrite !length_app. simpl.
    replace (length (heap w) + 1)%nat with (S (length (heap w))) by lia.
    replace (S (length (heap w)) + 1)%nat with (S (S (length (heap w)))) by lia.
    rewrite <- !app_assoc. reflexivity.
Qed.

(** A size past the C ints stops the construction, the arrays made so far
    left behind. *)
Lemma build_chain_overflow ls : forall w,
  ~ Forall fits ls ->
  exists c w', build_chain ls w = (Raise OverflowError, (c, w')) /\
               (length c < length ls)%nat /\
               exists new, heap w' = heap w ++ new.
Proof.
  induction ls as [|n rest IH]; intros w Hno; [exfalso; apply Hno; constructor|].
  simpl.
  destruct (NetLayer_init_sizes n (match rest with m :: _ => m | [] => 0%nat end) w)
    as (l & b & t & g & ->).
  set (w1 := {| heap := heap w ++ [b; t]; rng := g; trace := trace w |}).
  assert (Hnew : exists new, heap w1 = heap w ++ new) by (exists [b; t]; reflexivity).
  destruct (in_int (Z.of_nat n)
            && in_int (Z.of_nat (match rest with m :: _ => m | [] => 0%nat end))) eqn:E.
  - apply andb_true_iff in E as [En _]. apply in_int_fits in En.
    destruct (IH w1) as (c & w' & -> & Hc & new & Hh).
    { intros Hall. apply Hno. constructor; assumption. }
    exists (l :: c), w'. split; [reflexivity|]. split; [simpl; lia|].
    destruct Hnew as [new1 Hn1]. exists (new1 ++ new).
    rewrite Hh, Hn1, app_assoc. reflexivity.
  - exists [], w1. split; [reflexivity|]. split; [simpl; lia|]. exact Hnew.
Qed.

Lemma length_init_arrays ls g : length (fst (init_arrays ls g)) = (2 * length ls)%nat.
Proof.
  revert g. induction ls as [|n rest IH]; intros g; simpl; [reflexivity|].
  destruct (rand _ g) as [rb g1]. destruct (rand _ g1) as [rt g2].
  specialize (IH g2). destruct (init_arrays rest g2) as [ext g3].
  simpl in *. rewrite IH. lia.
Qed.

Lemma length_fresh_chain L ls : length (fresh_chain L ls) = length ls.
Proof. revert L. induction ls as [|n rest IH]; intros L; simpl; [|rewrite IH]; reflexivity. Qed.

Lemma length_rebuf L c : length (rebuf L c) = length c.
Proof. revert L. induction c as [|l c IH]; intros L; simpl; [|rewrite IH]; reflexivity. Qed.

(** [np.random.rand(n)] has [n] elements. *)
Definition rand_ok : Prop := forall n g, length (fst (rand n g)) = n.
(** A float32 is its own cast. *)
Definition f32_idem : Prop := forall v : V, f32 (f32 v) = f32 v.

Definition fixed32 (a : ndarray) : Prop := Forall (fun v => f32 v = v) (data a).

(** The parameters of a layer are in the store, sized by the layer. *)
Definition params_sized (h : list ndarray) (l : NetLayer) : Prop :=
  exists b t, h !! bias l = Some b /\ h !! theta l = Some t /\
    np_size b = out_nodes l /\ np_size t = (out_nodes l * in_nodes l)%nat.

Definition params_fixed (h : list ndarray) (l : NetLayer) : Prop :=
  exists b t, h !! bias l = Some b /\ h !! theta l = Some t /\ fixed32 b /\ fixed32 t.

Lemma fixed32_init n r : f32_idem -> fixed32 (init_array n r).
Proof.
  intros Hf. unfold fixed32, init_array, copy_astype_f32. simpl.
  apply Forall_fmap, Forall_true. intros v. apply Hf.
Qed.

Lemma np_size_1 (n : nat) (d : list V) : np_size {| shape := [n]; data := d |} = n.
Proof. unfold np_size, prod_list. simpl. lia. Qed.

(** What [__init__] stores for each layer of [fresh_chain]. *)
Lemma fresh_chain_params ls : forall h g tail,
  Forall (fun l =>
            exists b t,
              (h ++ fst (init_arrays ls g) ++ tail) !! bias l = Some b /\
              (h ++ fst (init_arrays ls g) ++ tail) !! theta l = Some t /\
              shape b = [out_nodes l] /\ shape t = [(out_nodes l * in_nodes l)%nat] /\
              (rand_ok -> length (data b) = out_nodes l /\
                          length (data t) = (out_nodes l * in_nodes l)%nat) /\
              (f32_idem -> fixed32 b /\ fixed32 t))
         (fresh_chain (length h) ls).
Proof.
  induction ls as [|n rest IH]; intros h g tail; simpl; [constructor|].
  set (out := match rest with m :: _ => m | [] => 0%nat end).
  pose proof (fun Hr : rand_ok => Hr out g) as Hlb.
  destruct (rand out g) as [rb g1] eqn:E1.
  pose proof (fun Hr : rand_ok => Hr (out * n)%nat g1) as Hlt.
  destruct (rand (out * n) g1) as [rt g2] eqn:E2.
  specialize (IH (h ++ [init_array out rb; init_array (out * n) rt]) g2 tail).
  destruct (init_arrays rest g2) as [ext g3] eqn:E3. simpl in *.
  constructor.
  - exists (init_array out rb), (init_array (out * n) rt). simpl.
    split; [rewrite lookup_app_r by lia; rewrite Nat.sub_diag; reflexivity|].
    split; [rewrite lookup_app_r by lia;
            replace (S (length h) - length h)%nat with 1%nat by lia; reflexivity|].
    split; [reflexivity|]. split; [reflexivity|].
    split.
    + intros Hr. rewrite !length_fmap. split; [apply Hlb | apply Hlt]; exact Hr.
    + intros Hf. split; apply fixed32_init; exact Hf.
  - rewrite length_app in IH. simpl in IH.
    replace (length h + 2)%nat with (S (S (length h))) in IH by lia.
    rewrite <- app_assoc in IH. exact IH.
Qed.

(** (in_nodes, out_nodes) of the layers of a network of sizes [ls]. *)
Fixpoint dims (ls : list nat) : list (nat * nat) :=
  match ls with
  | [] => []
  | n :: rest => (n, match rest with m :: _ => m | [] => 0%nat end) :: dims rest
  end.

Definition layer_dims (l : NetLayer) : nat * nat := (in_nodes l, out_nodes l).

Lemma dims_lookup ls : forall k i o,
  dims ls !! k = Some (i, o) -> ls !! k = Some i /\ o = default 0%nat (ls !! S k).
Proof.
  induction ls as [|n rest IH]; intros [|k] i o Hk; simpl in *; try discriminate.
  - inversion Hk; subst. split; [reflexivity|]. destruct rest; reflexivity.
  - apply IH in Hk. exact Hk.
Qed.

Lemma fresh_chain_dims L ls : layer_dims <$> fresh_chain L ls = dims ls.
Proof.
  revert L. induction ls as [|n rest IH]; intros L; simpl; [reflexivity|].
  rewrite IH. reflexivity.
Qed.

Lemma rebuf_dims L c : layer_dims <$> rebuf L c = layer_dims <$> c.
Proof.
  revert L. induction c as [|l c IH]; intros L; simpl; [reflexivity|].
  rewrite IH. reflexivity.
Qed.

Lemma rebuf_params L c : layer_get_params <$> rebuf L c = layer_get_params <$> c.
Proof.
  revert L. induction c as [|l c IH]; intros L; simpl; [reflexivity|].
  rewrite IH. reflexivity.
Qed.

Lemma fresh_chain_get_params ls : forall L k b t,
  (layer_get_params <$> fresh_chain L ls) !! k = Some (b, t) ->
  exists l, fresh_chain L ls !! k = Some l /\ bias l = b /\ theta l = t.
Proof.
  intros L k b t Hk. rewrite list_lookup_fmap in Hk.
  destruct (fresh_chain L ls !! k) as [l|]; [|discriminate].
  exists l. inversion Hk. auto.
Qed.

Definition new_net (ls : list nat) (L : nat) : NeuralNet :=
  {| layers := ls; n_features := hd 0%nat ls; n_labels := List.last ls 0%nat;
     batch_size := 100;
     chain := rebuf (L + 2 * length ls) (fresh_chain L ls) |}.

Definition new_world (ls : list nat) (w : world) : world :=
  {| heap := heap w ++ fst (init_arrays ls (rng w))
               ++ zero_bufs 100 (fresh_chain (length (heap w)) ls);
     rng := snd (init_arrays ls (rng w)); trace := trace w |}.

Lemma Forall_fits_ends ls :
  Forall fits ls ->
  in_int (Z.of_nat (hd 0%nat ls)) && in_int (Z.of_nat (List.last ls 0%nat)) = true.
Proof.
  intros Hfit. apply andb_true_iff. split; apply in_int_fits.
  - destruct ls; [apply fits_0|]. inversion Hfit; assumption.
  - induction Hfit as [|k [|k' ls] Hk _ IH]; [apply fits_0 | exact Hk | exact IH].
Qed.

Lemma NeuralNet_init_ok ls w :
  (2 <= length ls)%nat -> Forall fits ls ->
  NeuralNet_init ls w = (Ok (new_net ls (length (heap w))), new_world ls w).
Proof.
  intros Hlen Hfit. unfold NeuralNet_init.
  destruct (Nat.ltb_spec (length ls) 2) as [Hlt|_]; [lia|].
  rewrite (Forall_fits_ends ls Hfit). cbn [negb].
  unfold random_init. munfold. simpl.
  destruct ls as [|n0 [|n1 rest]]; simpl in Hlen; try lia.
  cbn [lookup list_lookup].
  set (ls := n0 :: n1 :: rest) in *.
  cbn [fst layers]. rewrite build_chain_eq by exact Hfit.
  change (fresh_chain (length (heap w)) ls)
    with (fresh_chain (length (heap w)) (n0 :: n1 :: rest)) at 1.
  cbn [fresh_chain]. fold (fresh_chain (length (heap w)) ls).
  unfold set_chain. cbn [layers n_features n_labels batch_size chain].
  rewrite set_batch_ok by lia.
  unfold new_net, new_world, with_batch, set_heap.
  cbn [heap rng trace layers n_features n_labels batch_size chain].
  rewrite !length_app, length_init_arrays, <- !app_assoc. reflexivity.
Qed.

Lemma NeuralNet_init_short ls w :
  (length ls < 2)%nat -> NeuralNet_init ls w = (Raise AssertionError, w).
Proof.
  intros Hlen. unfold NeuralNet_init.
  destruct (Nat.ltb_spec (length ls) 2) as [_|Hge]; [reflexivity|lia].
Qed.

(** A size past the C ints: at once for the first and the last, which
    [__init__] stores itself, and in [NetLayer.__init__] for the others. *)
Lemma NeuralNet_init_overflow ls w :
  (2 <= length ls)%nat -> ~ Forall fits ls ->
  fst (NeuralNet_init ls w) = Raise OverflowError /\
  (~ fits (hd 0%nat ls) \/ ~ fits (List.last ls 0%nat) ->
   NeuralNet_init ls w = (Raise OverflowError, w)).
Proof.
  intros Hlen Hno. unfold NeuralNet_init.
  destruct (Nat.ltb_spec (length ls) 2) as [Hlt|_]; [lia|].
  destruct (in_int (Z.of_nat (hd 0%nat ls))
            && in_int (Z.of_nat (List.last ls 0%nat))) eqn:E; cbn [negb].
  - split.
    + unfold random_init. munfold. simpl.
      destruct ls as [|n0 [|n1 rest]]; simpl in Hlen; try lia.
      cbn [lookup list_lookup fst layers].
      destruct (build_chain_overflow (n0 :: n1 :: rest) w Hno)
        as (c & w' & -> & _ & _).
      reflexivity.
    + apply andb_true_iff in E as [E1 E2]. apply in_int_fits in E1, E2. tauto.
  - split; reflexivity.
Qed.

Lemma NeuralNet_init_inv ls w n w' :
  NeuralNet_init ls w = (Ok n, w') ->
  (2 <= length ls)%nat /\ n = new_net ls (length (heap w)) /\ w' = new_world ls w.
Proof.
  intros Hi. destruct (Nat.lt_ge_cases (length ls) 2) as [Hlt|Hge].
  - rewrite NeuralNet_init_short in Hi by exact Hlt. discriminate.
  - destruct (decide (Forall fits ls)) as [Hfit|Hno].
    + rewrite NeuralNet_init_ok in Hi by assumption. inversion Hi. auto.
    + destruct (NeuralNet_init_overflow ls w Hge Hno) as [Ho _].
      rewrite Hi in Ho. discriminate.
Qed.

Lemma NeuralNet_init_fits ls w n w' :
  NeuralNet_init ls w = (Ok n, w') -> Forall fits ls.
Proof.
  intros Hi. destruct (decide (Forall fits ls)) as [Hfit|Hno]; [exact Hfit|].
  destruct (Nat.lt_ge_cases (length ls) 2) as [Hlt|Hge].
  - rewrite NeuralNet_init_short in Hi by exact Hlt. discriminate.
  - destruct (NeuralNet_init_overflow ls w Hge Hno) as [Ho _].
    rewrite Hi in Ho. discriminate.
Qed.

(** C8: the network built from [ls] answers [get_params] with one
    (bias, theta) pair per entry of [ls], in chain order: pair [k] has
    [ls[k+1]] biases and [ls[k+1] * ls[k]] weights (none past the end of
    [ls]), and the last pair, the sink tail's, is two arrays of no element. *)
Theorem get_params_after_init ls w n w' :
  rand_ok -> NeuralNet_init ls w = (Ok n, w') ->
  length (get_params n) = length ls /\
  (forall k b t, get_params n !! k = Some (b, t) ->
     exists i barr tarr,
       ls !! k = Some i /\
       heap w' !! b = Some barr /\ heap w' !! t = Some tarr /\
       shape barr = [default 0%nat (ls !! S k)] /\
       shape tarr = [(default 0%nat (ls !! S k) * i)%nat] /\
       length (data barr) = default 0%nat (ls !! S k) /\
       length (data tarr) = (default 0%nat (ls !! S k) * i)%nat) /\
  (exists b t, last (get_params n) = Some (b, t) /\
     heap w' !! b = Some {| shape := [0%nat]; data := [] |} /\
     heap w' !! t = Some {| shape := [0%nat]; data := [] |}).
Proof.
  intros Hr Hi. apply NeuralNet_init_inv in Hi as (Hlen & -> & ->).
  assert (Hgp : get_params (new_net ls (length (heap w)))
                = layer_get_params <$> fresh_chain (length (heap w)) ls).
  { unfold get_params, new_net. simpl. apply rebuf_params. }
  assert (Hlenp : length (get_params (new_net ls (length (heap w)))) = length ls).
  { rewrite Hgp, length_fmap, length_fresh_chain. reflexivity. }
  assert (Hk : forall k b t,
     get_params (new_net ls (length (heap w))) !! k = Some (b, t) ->
     exists i barr tarr,
       ls !! k = Some i /\
       heap (new_world ls w) !! b = Some barr /\
       heap (new_world ls w) !! t = Some tarr /\
       shape barr = [default 0%nat (ls !! S k)] /\
       shape tarr = [(default 0%nat (ls !! S k) * i)%nat] /\
       length (data barr) = default 0%nat (ls !! S k) /\
       length (data tarr) = (default 0%nat (ls !! S k) * i)%nat).
  { intros k b t Hkb. rewrite Hgp in Hkb.
    apply fresh_chain_get_params in Hkb as (l & Hl & <- & <-).
    pose proof (fresh_chain_params ls (heap w) (rng w)
                  (zero_bufs 100 (fresh_chain (length (heap w)) ls))) as HF.
    rewrite Forall_lookup in HF.
    destruct (HF k l Hl) as (barr & tarr & Hb & Ht & Sb & St & Hlens & _).
    destruct (Hlens Hr) as [Lb Lt].
    assert (Hd : dims ls !! k = Some (in_nodes l, out_nodes l)).
    { rewrite <- (fresh_chain_dims (length (heap w))), list_lookup_fmap, Hl.
      reflexivity. }
    apply dims_lookup in Hd as [Hin Hout].
    exists (in_nodes l), barr, tarr. rewrite <- Hout.
    repeat split; assumption. }
  split; [exact Hlenp|]. split; [exact Hk|].
  rewrite last_lookup, Hlenp.
  destruct (get_params (new_net ls (length (heap w))) !! pred (length ls))
    as [[b t]|] eqn:E.
  - destruct (Hk _ _ _ E) as (i & barr & tarr & _ & Hb & Ht & Sb & St & Lb & Lt).
    replace (S (pred (length ls))) with (length ls) in * by lia.
    rewrite (lookup_ge_None_2 ls (length ls)) in * by lia. simpl in *.
    exists b, t. split; [reflexivity|].
    destruct barr as [sb db], tarr as [st dt]. simpl in *.
    apply nil_length_inv in Lb, Lt. subst. auto.
  - apply lookup_ge_None in E. lia.
Qed.

(** ** predict_label *)

(** No entry of the row is a NaN. *)
Definition nan_free (row : list V) : Prop := Forall (fun x => visnan x = false) row.

(** [j] is the first index of a greatest entry of [row]. *)
Definition first_max (row : list V) (j : nat) : Prop :=
  exists v, row !! j = Some v /\
    (forall k x, row !! k = Some x -> vleb x v = true) /\
    (forall k x, (k < j)%nat -> row !! k = Some x -> vleb v x = false).

(** [j] is the index of the first NaN of [row]. *)
Definition first_nan (row : list V) (j : nat) : Prop :=
  exists v, row !! j = Some v /\ visnan v = true /\
    forall k x, (k < j)%nat -> row !! k = Some x -> visnan x = false.

Section Argmax.
(** [<=] on floats: a total preorder on those that are no NaN, and false on
    a NaN. *)
Hypothesis leb_total : forall a b : V,
  visnan a = false -> visnan b = false -> vleb a b = false -> vleb b a = true.
Hypothesis leb_trans : forall a b c : V,
  visnan a = false -> visnan b = false -> visnan c = false ->
  vleb a b = true -> vleb b c = true -> vleb a c = true.
Hypothesis nan_leb : forall a b : V, visnan a = true -> vleb a b = false.

Lemma leb_refl (x : V) : visnan x = false -> vleb x x = true.
Proof using leb_total.
  intros Hx. destruct (vleb x x) eqn:Hxx; [reflexivity|].
  rewrite (leb_total _ _ Hx Hx Hxx) in Hxx. discriminate.
Qed.

Lemma nan_free_lookup row k (x : V) : nan_free row -> row !! k = Some x -> visnan x = false.
Proof. intros Hf Hk. exact (proj1 (Forall_lookup _ _) Hf k x Hk). Qed.

Lemma argmax_from_spec xs : forall pre bi b,
  nan_free pre -> nan_free xs ->
  first_max pre bi -> pre !! bi = Some b ->
  first_max (pre ++ xs) (argmax_from bi b (length pre) xs).
Proof using leb_total leb_trans.
  induction xs as [|x xs IH]; intros pre bi b Hpre Hxs Hfm Hb; simpl.
  - rewrite app_nil_r. exact Hfm.
  - destruct Hfm as (v & Hv & Hmax & Hfirst).
    assert (v = b) as -> by congruence.
    inversion Hxs as [|? ? Nx Hxs']; subst.
    assert (Nb : visnan b = false) by exact (nan_free_lookup pre bi b Hpre Hb).
    assert (Hpre' : nan_free (pre ++ [x])).
    { apply Forall_app. split; [exact Hpre|]. constructor; [exact Nx|constructor]. }
    rewrite Nx.
    replace (pre ++ x :: xs) with ((pre ++ [x]) ++ xs) by (rewrite <- app_assoc; reflexivity).
    replace (S (length pre)) with (length (pre ++ [x])) by (rewrite length_app; simpl; lia).
    assert (Hbi : (bi < length pre)%nat) by (eapply lookup_lt_Some; eassumption).
    destruct (vleb x b) eqn:Hx.
    + apply IH; [exact Hpre'|exact Hxs'| |rewrite lookup_app_l by exact Hbi; exact Hb].
      exists b. split; [rewrite lookup_app_l by exact Hbi; exact Hb|]. split.
      * intros k y Hk. apply lookup_app_Some in Hk as [Hk|[Hge Hk]].
        -- eapply Hmax; eassumption.
        -- apply list_lookup_singleton_Some in Hk as [_ <-]. exact Hx.
      * intros k y Hlt Hk. rewrite lookup_app_l in Hk by lia.
        eapply Hfirst; eassumption.
    + assert (Hnew : (pre ++ [x]) !! length pre = Some x).
      { rewrite lookup_app_r by lia. rewrite Nat.sub_diag. reflexivity. }
      apply IH; [exact Hpre'|exact Hxs'| |exact Hnew].
      exists x. split; [exact Hnew|]. split.
      * intros k y Hk. apply lookup_app_Some in Hk as [Hk|[Hge Hk]].
        -- apply (leb_trans y b x); try assumption.
           ++ exact (nan_free_lookup pre k y Hpre Hk).
           ++ eapply Hmax; eassumption.
           ++ apply leb_total; assumption.
        -- apply list_lookup_singleton_Some in Hk as [_ <-]. apply leb_refl, Nx.
      * intros k y Hlt Hk. rewrite lookup_app_l in Hk by lia.
        destruct (vleb x y) eqn:Hxy; [|reflexivity].
        assert (Ny : visnan y = false) by exact (nan_free_lookup pre k y Hpre Hk).
        rewrite (leb_trans x y b Nx Ny Nb Hxy (Hmax k y Hk)) in Hx. discriminate.
Qed.

(** The scan stops at the first NaN it meets. *)
Lemma argmax_from_nan xs : forall bi b i p v,
  xs !! p = Some v -> visnan v = true ->
  (forall k x, (k < p)%nat -> xs !! k = Some x -> visnan x = false) ->
  argmax_from bi b i xs = (i + p)%nat.
Proof using nan_leb.
  induction xs as [|x xs IH]; intros bi b i p v Hp Hv Hbefore; [discriminate|].
  destruct p as [|p]; simpl in *.
  - inversion Hp; subst x. rewrite (nan_leb v b Hv), Hv. lia.
  - assert (Nx : visnan x = false) by (apply (Hbefore 0%nat x); [lia|reflexivity]).
    assert (Hrest : forall k y, (k < p)%nat -> xs !! k = Some y -> visnan y = false).
    { intros k y Hk Hy. apply (Hbefore (S k) y); [lia|exact Hy]. }
    rewrite Nx. destruct (vleb x b).
    + rewrite (IH bi b (S i) p v Hp Hv Hrest). lia.
    + rewrite (IH i x (S i) p v Hp Hv Hrest). lia.
Qed.

Lemma argmax_spec row : row <> [] -> nan_free row -> first_max row (argmax row).
Proof using leb_total leb_trans.
  destruct row as [|x xs]; [done|]. intros _ Hfree. unfold argmax.
  inversion Hfree as [|? ? Nx Hxs]; subst. rewrite Nx.
  apply (argmax_from_spec xs [x] 0%nat x); [constructor; [exact Nx|constructor]
                                           |exact Hxs| |reflexivity].
  exists x. split; [reflexivity|]. split.
  - intros [|k] y Hk; simpl in Hk; [|destruct k; discriminate].
    inversion Hk; subst. apply leb_refl, Nx.
  - intros k y Hlt. lia.
Qed.

Lemma argmax_nan row j : first_nan row j -> argmax row = j.
Proof using nan_leb.
  intros (v & Hj & Hv & Hbefore). destruct row as [|x xs]; [discriminate|].
  unfold argmax. destruct j as [|j]; simpl in Hj.
  - inversion Hj; subst x. rewrite Hv. reflexivity.
  - rewrite (Hbefore 0%nat x) by (lia || reflexivity).
    rewrite (argmax_from_nan xs 0%nat x 1%nat j v Hj Hv); [lia|].
    intros k y Hk Hy. apply (Hbefore (S k) y); [lia|exact Hy].
Qed.

End Argmax.

(** Whatever the comparison, the answer of [argmax] is an index of the row. *)
Lemma argmax_from_bound (xs : list V) : forall bi b i,
  argmax_from bi b i xs = bi \/
  (i <= argmax_from bi b i xs < i + length xs)%nat.
Proof.
  induction xs as [|x xs IH]; intros bi b i; simpl; [left; reflexivity|].
  destruct (vleb x b).
  - destruct (IH bi b (S i)) as [E|E]; [left; exact E | right; lia].
  - destruct (visnan x); [right; lia|].
    destruct (IH i x (S i)) as [E|E]; right; lia.
Qed.

Lemma argmax_lt (row : list V) : row <> [] -> (argmax row < length row)%nat.
Proof.
  destruct row as [|x xs]; [done|]. intros _. unfold argmax.
  destruct (visnan x); [simpl; lia|].
  destruct (argmax_from_bound xs 0%nat x 1%nat) as [E|E]; simpl; lia.
Qed.

Lemma rows_of_length r m : forall xs : list V,
  length xs = (r * m)%nat -> Forall (fun row => length row = m) (rows_of r m xs).
Proof.
  induction r as [|r IH]; intros xs Hlen; simpl; constructor.
  - rewrite length_take. simpl in Hlen. lia.
  - apply IH. rewrite length_drop. simpl in Hlen. lia.
Qed.

Lemma length_rows_of r m (xs : list V) : length (rows_of r m xs) = r.
Proof. revert xs. induction r as [|r IH]; intros xs; simpl; [|rewrite IH]; reflexivity. Qed.

Lemma predict_prob_shape features n w (p : ndarray) s' :
  predict_prob features (n, w) = (Ok p, s') ->
  exists F f0, heap w !! features = Some F /\ shape F !! 0%nat = Some f0 /\
    shape F !! 1%nat = Some (n_features n) /\
    shape p = [f0; n_labels n] /\ length (data p) = (f0 * n_labels n)%nat.
Proof.
  unfold predict_prob. munfold. intros Hp.
  destruct (heap w !! features) as [F|] eqn:HF; [|discriminate].
  destruct (shape F !! 1%nat) as [f1|] eqn:Hs1; [|discriminate]. simpl in Hp.
  destruct (Nat.eqb_spec f1 (n_features n)) as [->|Hne]; [|discriminate].
  destruct (shape F !! 0%nat) as [f0|] eqn:Hs0; [|discriminate].
  unfold call_predict in Hp. munfold.
  destruct (c_view (n, w)) as [[cs|e] [n1 w1]]; [|discriminate].
  inversion Hp; subst. simpl.
  exists F, f0. repeat split; try assumption.
  rewrite length_overwrite, length_replicate. unfold prod_list. simpl. lia.
Qed.

(** C9: when [predict_prob] answers a matrix for [features], [predict_label]
    answers, for the same call, the vector with one entry per row of
    [features], entry [i] being what [np.argmax] gives for row [i] of that
    matrix: the index of its first greatest entry when the row has no NaN,
    and the index of its first NaN when it has one, a NaN being maximal for
    numpy.  ([<=] is a total preorder on the floats that are no NaN and
    false on a NaN; the network has at least one label.) *)
Theorem predict_label_row_argmax features n w preds s' :
  (forall a b : V,
     visnan a = false -> visnan b = false -> vleb a b = false -> vleb b a = true) ->
  (forall a b c : V,
     visnan a = false -> visnan b = false -> visnan c = false ->
     vleb a b = true -> vleb b c = true -> vleb a c = true) ->
  (forall a b : V, visnan a = true -> vleb a b = false) ->
  n_labels n <> 0%nat ->
  predict_prob features (n, w) = (Ok preds, s') ->
  exists F r labels,
    heap w !! features = Some F /\ shape F !! 0%nat = Some r /\
    shape preds = [r; n_labels n] /\
    predict_label features (n, w) = (Ok labels, s') /\
    length labels = r /\
    forall i row, rows_of r (n_labels n) (data preds) !! i = Some row ->
      exists j, labels !! i = Some j /\ (j < n_labels n)%nat /\
                (nan_free row -> first_max row j) /\
                (forall p, first_nan row p -> j = p).
Proof.
  intros Htot Htrans Hnan Hm Hp.
  destruct (predict_prob_shape _ _ _ _ _ Hp) as (F & r & HF & Hr & _ & Hs & Hlen).
  exists F, r, (argmax <$> rows_of r (n_labels n) (data preds)).
  split; [exact HF|]. split; [exact Hr|]. split; [exact Hs|]. split; [|split].
  - unfold predict_label, bind. rewrite Hp. unfold np_argmax_axis1. rewrite Hs.
    destruct (Nat.eqb_spec (n_labels n) 0) as [E|_]; [contradiction|]. reflexivity.
  - rewrite length_fmap. apply length_rows_of.
  - intros i row Hrow. exists (argmax row).
    split; [rewrite list_lookup_fmap, Hrow; reflexivity|].
    pose proof (rows_of_length r (n_labels n) (data preds) Hlen) as Hall.
    rewrite Forall_lookup in Hall. specialize (Hall i row Hrow).
    assert (Hne : row <> []) by (intros ->; simpl in Hall; lia).
    split; [rewrite <- Hall; apply argmax_lt, Hne|]. split.
    + intros Hfree. apply (argmax_spec Htot Htrans row Hne Hfree).
    + intros p Hfn. apply (argmax_nan Hnan row p Hfn).
Qed.

(** ** What the C core sees, before and after a call *)

Lemma deref_layer_ext h h' l :
  (forall a, a ∈ layer_addrs l -> h !! a = h' !! a) ->
  deref_layer h l = deref_layer h' l.
Proof.
  intros He. unfold deref_layer, layer_addrs in *.
  rewrite <- (He (bias l)) by (left).
  rewrite <- (He (theta l)) by (right; left).
  assert (Ha : act l ≫= (h !!.) = act l ≫= (h' !!.)).
  { destruct (act l) as [a|] eqn:E; simpl; [|reflexivity].
    apply He. right; right. simpl. left. }
  assert (Hd : delta l ≫= (h !!.) = delta l ≫= (h' !!.)).
  { destruct (delta l) as [d|] eqn:E; simpl; [|reflexivity].
    apply He. right; right. apply elem_of_app. right. simpl. left. }
  rewrite Ha, Hd. reflexivity.
Qed.

Lemma chain_addrs_cons l c : chain_addrs (l :: c) = layer_addrs l ++ chain_addrs c.
Proof. reflexivity. Qed.

Lemma deref_chain_ext h h' c :
  (forall a, a ∈ chain_addrs c -> h !! a = h' !! a) ->
  deref_chain h c = deref_chain h' c.
Proof.
  unfold deref_chain. induction c as [|l c IH]; intros He; simpl; [reflexivity|].
  rewrite (deref_layer_ext h h' l).
  - rewrite IH; [reflexivity|]. intros a Ha. apply He.
    rewrite chain_addrs_cons. apply elem_of_app. right. exact Ha.
  - intros a Ha. apply He. rewrite chain_addrs_cons. apply elem_of_app. left. exact Ha.
Qed.

(** A buffer after the core returned [c'] for it. *)
Definition stored (c c' : c_layer) : c_layer :=
  {| c_bias := overwrite (c_bias c) (c_bias c');
     c_theta := overwrite (c_theta c) (c_theta c');
     c_act := overwrite (c_act c) (c_act c');
     c_delta := overwrite (c_delta c) (c_delta c');
     c_in_nodes := c_in_nodes c; c_out_nodes := c_out_nodes c |}.

Fixpoint stored_chain (cs cs' : list c_layer) : list c_layer :=
  match cs, cs' with
  | c :: r, c' :: r' => stored c c' :: stored_chain r r'
  | _, _ => cs
  end.

Lemma store_data_same a new h (arr : ndarray) :
  h !! a = Some arr ->
  store_data a new h !! a = Some {| shape := shape arr; data := overwrite (data arr) new |}.
Proof.
  intros Ha. unfold store_data. rewrite Ha.
  apply list_lookup_insert_eq. eapply lookup_lt_Some. eassumption.
Qed.

Lemma deref_write_layer h l c c' :
  NoDup (layer_addrs l) -> deref_layer h l = Some c ->
  deref_layer (write_layer l c' h) l = Some (stored c c').
Proof.
  unfold layer_addrs, deref_layer, write_layer. intros Hnd Hd.
  destruct (h !! bias l) as [b|] eqn:Eb; [|discriminate]. simpl in Hd.
  destruct (h !! theta l) as [t|] eqn:Et; [|discriminate]. simpl in Hd.
  destruct (act l) as [a|] eqn:Ea; [|discriminate]. simpl in Hd.
  destruct (h !! a) as [aa|] eqn:Eaa; [|discriminate]. simpl in Hd.
  destruct (delta l) as [d|] eqn:Ed; [|discriminate]. simpl in Hd.
  destruct (h !! d) as [dd|] eqn:Edd; [|discriminate]. simpl in Hd.
  inversion Hd; subst c; clear Hd. simpl in Hnd.
  apply NoDup_cons in Hnd as [Hb Hnd].
  apply NoDup_cons in Hnd as [Ht Hnd].
  apply NoDup_cons in Hnd as [Had _].
  apply not_elem_of_cons in Hb as [Hbt Hb].
  apply not_elem_of_cons in Hb as [Hba Hb].
  apply not_elem_of_cons in Hb as [Hbd _].
  apply not_elem_of_cons in Ht as [Hta Ht].
  apply not_elem_of_cons in Ht as [Htd _].
  apply not_elem_of_cons in Had as [Had _].
  set (h1 := store_data (bias l) (c_bias c') h).
  set (h2 := store_data (theta l) (c_theta c') h1).
  set (h3 := store_opt (Some a) (c_act c') h2).
  set (h4 := store_opt (Some d) (c_delta c') h3).
  assert (E1 : h4 !! bias l = Some {| shape := shape b;
                                      data := overwrite (data b) (c_bias c') |}).
  { unfold h4, h3, h2, store_opt.
    rewrite (store_data_other d) by congruence.
    rewrite (store_data_other a) by congruence.
    rewrite (store_data_other (theta l)) by congruence.
    apply store_data_same. exact Eb. }
  assert (E2 : h4 !! theta l = Some {| shape := shape t;
                                       data := overwrite (data t) (c_theta c') |}).
  { unfold h4, h3, store_opt.
    rewrite (store_data_other d) by congruence.
    rewrite (store_data_other a) by congruence.
    apply store_data_same. unfold h1.
    rewrite (store_data_other (bias l)) by congruence. exact Et. }
  assert (E3 : h4 !! a = Some {| shape := shape aa;
                                 data := overwrite (data aa) (c_act c') |}).
  { unfold h4, store_opt.
    rewrite (store_data_other d) by congruence.
    apply store_data_same. unfold h2, h1.
    rewrite (store_data_other (theta l)) by congruence.
    rewrite (store_data_other (bias l)) by congruence. exact Eaa. }
  assert (E4 : h4 !! d = Some {| shape := shape dd;
                                 data := overwrite (data dd) (c_delta c') |}).
  { unfold h4, store_opt. apply store_data_same. unfold h3, h2, h1, store_opt.
    rewrite (store_data_other a) by congruence.
    rewrite (store_data_other (theta l)) by congruence.
    rewrite (store_data_other (bias l)) by congruence. exact Edd. }
  rewrite E1, E2. simpl. rewrite E3. simpl. rewrite E4. simpl.
  reflexivity.
Qed.

Lemma deref_write_chain c : forall cs cs' h,
  NoDup (chain_addrs c) -> deref_chain h c = Some cs ->
  deref_chain (write_chain c cs' h) c = Some (stored_chain cs cs').
Proof.
  unfold deref_chain.
  induction c as [|l c IH]; intros cs cs' h Hnd Hd.
  - simpl in *. inversion Hd. reflexivity.
  - rewrite chain_addrs_cons in Hnd.
    apply NoDup_app in Hnd as (Hl & Hdisj & Hc).
    simpl in Hd.
    destruct (deref_layer h l) as [x|] eqn:El; [|discriminate]. simpl in Hd.
    destruct (mapM (deref_layer h) c) as [xs|] eqn:Ec; [|discriminate].
    simpl in Hd. inversion Hd; subst cs; clear Hd.
    destruct cs' as [|x' xs'].
    + simpl. rewrite El. simpl. rewrite Ec. reflexivity.
    + cbn [write_chain stored_chain mapM].
      assert (E1 : deref_layer (write_chain c xs' (write_layer l x' h)) l
                   = Some (stored x x')).
      { rewrite <- (deref_write_layer h l x x' Hl El).
        apply deref_layer_ext. intros a Ha.
        apply write_chain_other. apply Hdisj. exact Ha. }
      assert (E2 : mapM (deref_layer (write_layer l x' h)) c = Some xs).
      { rewrite <- Ec. apply deref_chain_ext. intros a Ha.
        apply write_layer_other. intros Hin. exact (Hdisj a Hin Ha). }
      rewrite E1. simpl. rewrite (IH xs xs' _ Hc E2). reflexivity.
Qed.

(** ** Inference seen from outside *)

(** The chain as the core would see it, if it can be called at all. *)
Definition view_of (s : NeuralNet * world) : option (list c_layer) :=
  match chain (fst s) with
  | [] => None
  | _ => deref_chain (heap (snd s)) (chain (fst s))
  end.

Lemma c_view_eq n w :
  c_view (n, w) = match view_of (n, w) with
                  | Some cs => (Ok cs, (n, w))
                  | None => (Raise Segfault, (n, w))
                  end.
Proof.
  unfold c_view, view_of. simpl. destruct (chain n); [reflexivity|].
  destruct (deref_chain _ _); reflexivity.
Qed.

Lemma view_of_deref n w cs :
  view_of (n, w) = Some cs -> is_Some (deref_chain (heap w) (chain n)).
Proof.
  unfold view_of. cbn [fst snd]. destruct (chain n); [discriminate|].
  intros ->. eauto.
Qed.

(** [predict_prob] without the store: the answer and what the core wrote,
    from the argument array, the sizes and the core's view. *)
Definition predict_pure (Fo : option ndarray) (nf nl : nat) (bs : Z)
    (vo : option (list c_layer)) : outcome (ndarray * list c_layer) :=
  match Fo with
  | None => Raise AssertionError
  | Some F =>
      match shape F !! 1%nat with
      | None => Raise IndexError
      | Some f1 =>
          if Nat.eqb f1 nf then
            match shape F !! 0%nat with
            | None => Raise IndexError
            | Some f0 =>
                match vo with
                | None => Raise Segfault
                | Some cs =>
                    let z := np_zeros [f0; nl] in
                    let r := neural_predict_prob cs (f32 <$> data F) (data z) f0 bs in
                    Ok ({| shape := shape z; data := overwrite (data z) (snd r) |},
                        fst (fst r))
                end
            end
          else Raise AssertionError
      end
  end.

Lemma predict_prob_pure features n w :
  predict_prob features (n, w) =
    match predict_pure (heap w !! features) (n_features n) (n_labels n)
                       (batch_size n) (view_of (n, w)) with
    | Ok (p, cs') => (Ok p, (n, set_heap (write_chain (chain n) cs' (heap w)) w))
    | Raise e => (Raise e, (n, w))
    end.
Proof.
  unfold predict_prob, predict_pure. munfold.
  destruct (heap w !! features) as [F|]; [|reflexivity].
  destruct (shape F !! 1%nat) as [f1|]; [|reflexivity]. simpl.
  destruct (Nat.eqb f1 (n_features n)); [|reflexivity].
  destruct (shape F !! 0%nat) as [f0|]; [|reflexivity].
  unfold call_predict. munfold. rewrite c_view_eq.
  destruct (view_of (n, w)) as [cs|] eqn:Ev; [|reflexivity].
  cbn [fst snd]. rewrite core_writes_chain; [reflexivity|].
  exact (view_of_deref n w cs Ev).
Qed.

(** Two networks the core cannot tell apart. *)
Definition same_view (s1 s2 : NeuralNet * world) : Prop :=
  view_of s1 = view_of s2 /\
  n_features (fst s1) = n_features (fst s2) /\
  n_labels (fst s1) = n_labels (fst s2) /\
  batch_size (fst s1) = batch_size (fst s2).

Definition separate (s : NeuralNet * world) : Prop :=
  NoDup (chain_addrs (chain (fst s))).

Lemma view_of_write n w cs cs' :
  separate (n, w) -> view_of (n, w) = Some cs ->
  view_of (n, set_heap (write_chain (chain n) cs' (heap w)) w)
    = Some (stored_chain cs cs').
Proof.
  unfold separate, view_of. simpl. intros Hnd Hv.
  destruct (chain n) as [|l c] eqn:Ec; [discriminate|].
  apply deref_write_chain; assumption.
Qed.

(** One [predict_prob] on two networks with the same view, arrays apart,
    given arrays of the same contents: the same answer, and the same view
    afterwards.  Nothing outside the chain is written. *)
Lemma predict_prob_same f1 f2 n1 w1 n2 w2 :
  same_view (n1, w1) (n2, w2) -> separate (n1, w1) -> separate (n2, w2) ->
  heap w1 !! f1 = heap w2 !! f2 ->
  exists o w1' w2',
    predict_prob f1 (n1, w1) = (o, (n1, w1')) /\
    predict_prob f2 (n2, w2) = (o, (n2, w2')) /\
    same_view (n1, w1') (n2, w2') /\
    (forall a, a ∉ chain_addrs (chain n1) -> heap w1' !! a = heap w1 !! a) /\
    (forall a, a ∉ chain_addrs (chain n2) -> heap w2' !! a = heap w2 !! a).
Proof.
  intros (Hv & Hf & Hl & Hb) S1 S2 HF. simpl in *.
  rewrite !predict_prob_pure. rewrite <- HF, <- Hv, <- Hf, <- Hl, <- Hb.
  destruct (predict_pure (heap w1 !! f1) (n_features n1) (n_labels n1)
              (batch_size n1) (view_of (n1, w1))) as [[p cs']|e] eqn:Ep.
  - eexists _, _, _. split; [reflexivity|]. split; [reflexivity|].
    assert (exists cs, view_of (n1, w1) = Some cs) as [cs Hcs].
    { unfold predict_pure in Ep.
      destruct (heap w1 !! f1) as [F|]; [|discriminate].
      destruct (shape F !! 1%nat); [|discriminate].
      destruct (Nat.eqb _ _); [|discriminate].
      destruct (shape F !! 0%nat); [|discriminate].
      destruct (view_of (n1, w1)); [eauto|discriminate]. }
    split; [|split].
    + unfold same_view. simpl.
      rewrite (view_of_write n1 w1 cs cs' S1 Hcs).
      rewrite (view_of_write n2 w2 cs cs' S2) by (rewrite <- Hv; exact Hcs).
      auto.
    + intros a Ha. simpl. apply write_chain_other. exact Ha.
    + intros a Ha. simpl. apply write_chain_other. exact Ha.
  - eexists _, _, _. split; [reflexivity|]. split; [reflexivity|].
    split; [unfold same_view; simpl; auto|]. split; reflexivity.
Qed.



(** ** set_params on the whole chain *)

(** The chain after [set_params]: layer after layer takes two new arrays. *)
Fixpoint readdr (L : nat) (c : list NetLayer) : list NetLayer :=
  match c with
  | [] => []
  | l :: rest =>
      {| bias := L; theta := S L; act := act l; delta := delta l;
         in_nodes := in_nodes l; out_nodes := out_nodes l |} :: readdr (S (S L)) rest
  end.

Fixpoint copies (vs : list (ndarray * ndarray)) : list ndarray :=
  match vs with
  | [] => []
  | (b, t) :: rest => copy_astype_f32 b :: copy_astype_f32 t :: copies rest
  end.

Definition set_params_body (params : list (addr * addr)) (i : nat) : LM unit :=
  let* p := index params i in layer_set_params (fst p) (snd p).

Definition sized_for (l : NetLayer) (v : ndarray * ndarray) : Prop :=
  np_size (fst v) = out_nodes l /\ np_size (snd v) = (out_nodes l * in_nodes l)%nat.


Lemma length_readdr L c : length (readdr L c) = length c.
Proof. revert L. induction c as [|l c IH]; intros L; simpl; [|rewrite IH]; reflexivity. Qed.



(** ** Which addresses a chain holds *)

Fixpoint param_addrs (c : list NetLayer) : list addr :=
  match c with
  | [] => []
  | l :: rest => bias l :: theta l :: param_addrs rest
  end.

Fixpoint buffer_addrs (c : list NetLayer) : list addr :=
  match c with
  | [] => []
  | l :: rest => (option_list (act l) ++ option_list (delta l)) ++ buffer_addrs rest
  end.

Lemma chain_addrs_perm c : chain_addrs c ≡ₚ param_addrs c ++ buffer_addrs c.
Proof.
  induction c as [|l c IH]; [reflexivity|].
  rewrite chain_addrs_cons, IH. unfold layer_addrs. cbn [param_addrs buffer_addrs].
  set (bufs := option_list (act l) ++ option_list (delta l)).
  change (bias l :: theta l :: bufs) with ([bias l; theta l] ++ bufs).
  change (bias l :: theta l :: param_addrs c) with ([bias l; theta l] ++ param_addrs c).
  rewrite <- !app_assoc. f_equiv.
  rewrite !app_assoc. f_equiv. apply Permutation_app_comm.
Qed.

Lemma elem_of_chain_addrs a c :
  a ∈ chain_addrs c <-> a ∈ param_addrs c \/ a ∈ buffer_addrs c.
Proof. rewrite chain_addrs_perm, elem_of_app. reflexivity. Qed.

Lemma param_addrs_readdr c : forall L, param_addrs (readdr L c) = seq L (2 * length c).
Proof.
  induction c as [|l c IH]; intros L; simpl; [reflexivity|].
  rewrite IH. replace (length c + S (length c + 0))%nat with (S (2 * length c)) by lia.
  reflexivity.
Qed.

Lemma buffer_addrs_readdr c : forall L, buffer_addrs (readdr L c) = buffer_addrs c.
Proof. induction c as [|l c IH]; intros L; simpl; [|rewrite IH]; reflexivity. Qed.

Lemma param_addrs_rebuf c : forall L, param_addrs (rebuf L c) = param_addrs c.
Proof. induction c as [|l c IH]; intros L; simpl; [|rewrite IH]; reflexivity. Qed.

Lemma buffer_addrs_rebuf c : forall L, buffer_addrs (rebuf L c) = seq L (2 * length c).
Proof.
  induction c as [|l c IH]; intros L; simpl; [reflexivity|].
  rewrite IH. replace (length c + S (length c + 0))%nat with (S (2 * length c)) by lia.
  reflexivity.
Qed.

Lemma param_addrs_fresh ls : forall L, param_addrs (fresh_chain L ls) = seq L (2 * length ls).
Proof.
  induction ls as [|n ls IH]; intros L; simpl; [reflexivity|].
  rewrite IH. replace (length ls + S (length ls + 0))%nat with (S (2 * length ls)) by lia.
  reflexivity.
Qed.

Lemma buffer_addrs_fresh ls : forall L, buffer_addrs (fresh_chain L ls) = [].
Proof. induction ls as [|n ls IH]; intros L; simpl; [|rewrite IH]; reflexivity. Qed.

(** Every address of a chain the core can be called on is in the store. *)
Lemma ready_addrs_valid n w a :
  is_Some (deref_chain (heap w) (chain n)) -> a ∈ chain_addrs (chain n) ->
  (a < length (heap w))%nat.
Proof.
  unfold deref_chain. rewrite mapM_is_Some. generalize (chain n). intros c.
  induction c as [|l c IH]; intros Hall Ha.
  - simpl in Ha. apply elem_of_nil in Ha. contradiction.
  - inversion Hall as [|? ? Hl Hc]; subst.
    rewrite chain_addrs_cons in Ha. apply elem_of_app in Ha as [Ha|Ha]; [|auto].
    apply deref_layer_is_Some in Hl as (Hb & Ht & Hac & Hd).
    unfold layer_addrs in Ha.
    apply elem_of_cons in Ha as [->|Ha]; [apply lookup_lt_is_Some; exact Hb|].
    apply elem_of_cons in Ha as [->|Ha]; [apply lookup_lt_is_Some; exact Ht|].
    apply elem_of_app in Ha as [Ha|Ha].
    + destruct (act l) as [x|]; simpl in *; [|apply elem_of_nil in Ha; contradiction].
      apply list_elem_of_singleton in Ha as ->. apply lookup_lt_is_Some; exact Hac.
    + destruct (delta l) as [x|]; simpl in *; [|apply elem_of_nil in Ha; contradiction].
      apply list_elem_of_singleton in Ha as ->. apply lookup_lt_is_Some; exact Hd.
Qed.

Lemma NoDup_fresh_params L k (bufs : list addr) :
  NoDup bufs -> (forall a, a ∈ bufs -> (a < L)%nat) -> NoDup (seq L k ++ bufs).
Proof.
  intros Hnd Hlt. apply NoDup_app. split; [apply NoDup_seq|]. split; [|exact Hnd].
  intros a Ha Hb. apply elem_of_seq in Ha. apply Hlt in Hb. lia.
Qed.

Lemma separate_readdr n w :
  ready (n, w) -> separate (n, w) ->
  NoDup (chain_addrs (readdr (length (heap w)) (chain n))).
Proof.
  unfold separate. simpl. intros [_ Hd] Hnd.
  rewrite chain_addrs_perm, param_addrs_readdr, buffer_addrs_readdr.
  rewrite chain_addrs_perm in Hnd. apply NoDup_app in Hnd as (_ & _ & Hb).
  apply NoDup_fresh_params; [exact Hb|].
  intros a Ha. apply (ready_addrs_valid n w a Hd).
  apply elem_of_chain_addrs. right. exact Ha.
Qed.

Lemma separate_rebuf n w :
  ready (n, w) -> separate (n, w) ->
  NoDup (chain_addrs (rebuf (length (heap w)) (chain n))).
Proof.
  unfold separate. simpl. intros [_ Hd] Hnd.
  rewrite chain_addrs_perm, param_addrs_rebuf, buffer_addrs_rebuf.
  rewrite chain_addrs_perm in Hnd. apply NoDup_app in Hnd as (Hp & _ & _).
  rewrite Permutation_app_comm.
  apply NoDup_fresh_params; [exact Hp|].
  intros a Ha. apply (ready_addrs_valid n w a Hd).
  apply elem_of_chain_addrs. left. exact Ha.
Qed.


(** ** Networks as the wrapper keeps them *)

(** The parameters of a layer: two float32 arrays in the store, sized by the
    layer. *)
Definition params_ok (h : list ndarray) (l : NetLayer) : Prop :=
  exists b t, h !! bias l = Some b /\ h !! theta l = Some t /\
    sized_for l (b, t) /\ fixed32 b /\ fixed32 t.

(** What [__init__] establishes and every method keeps. *)
Record wf_net (s : NeuralNet * world) : Prop := {
  wf_ready : ready s;
  wf_separate : separate s;
  wf_params : Forall (params_ok (heap (snd s))) (chain (fst s));
  wf_dims : layer_dims <$> chain (fst s) = dims (layers (fst s));
  wf_features : n_features (fst s) = hd 0%nat (layers (fst s));
  wf_labels : n_labels (fst s) = List.last (layers (fst s)) 0%nat;
  wf_batch : 0 < batch_size (fst s);
  wf_len : (2 <= length (layers (fst s)))%nat;
  wf_int : Forall fits (layers (fst s)) }.

Lemma length_dims ls : length (dims ls) = length ls.
Proof. induction ls as [|n ls IH]; simpl; [|rewrite IH]; reflexivity. Qed.



(** The arrays [get_params] hands out, read in the store. *)
Definition held (h : list ndarray) (l : NetLayer) (v : ndarray * ndarray) : Prop :=
  h !! bias l = Some (fst v) /\ h !! theta l = Some (snd v).

Lemma params_ok_values h c :
  Forall (params_ok h) c ->
  exists vs, Forall2 (held h) c vs /\ Forall2 sized_for c vs /\
             Forall (fun v => fixed32 (fst v) /\ fixed32 (snd v)) vs.
Proof.
  induction 1 as [|l c (b & t & Hb & Ht & Hs & Fb & Ft) _ (vs & H1 & H2 & H3)].
  - exists []. repeat constructor.
  - exists ((b, t) :: vs). split; [|split]; constructor; try assumption.
    + split; assumption.
    + split; assumption.
Qed.

Lemma lookup_app2_0 {A} (h : list A) x y : (h ++ [x; y]) !! length h = Some x.
Proof. rewrite lookup_app_r by lia. rewrite Nat.sub_diag. reflexivity. Qed.

Lemma lookup_app2_1 {A} (h : list A) x y : (h ++ [x; y]) !! S (length h) = Some y.
Proof.
  rewrite lookup_app_r by lia.
  replace (S (length h) - length h)%nat with 1%nat by lia. reflexivity.
Qed.

Lemma deref_layer_app h e l x :
  deref_layer h l = Some x -> deref_layer (h ++ e) l = Some x.
Proof.
  unfold deref_layer. intros Hd.
  destruct (h !! bias l) as [b|] eqn:Eb; [|discriminate]. simpl in Hd.
  destruct (h !! theta l) as [t|] eqn:Et; [|discriminate]. simpl in Hd.
  destruct (act l) as [a|] eqn:Ea; [|discriminate]. simpl in Hd.
  destruct (h !! a) as [aa|] eqn:Eaa; [|discriminate]. simpl in Hd.
  destruct (delta l) as [d|] eqn:Ed; [|discriminate]. simpl in Hd.
  destruct (h !! d) as [dd|] eqn:Edd; [|discriminate]. simpl in Hd.
  rewrite (lookup_app_l_Some _ _ _ _ Eb). simpl.
  rewrite (lookup_app_l_Some _ _ _ _ Et). simpl.
  rewrite (lookup_app_l_Some _ _ _ _ Eaa). simpl.
  rewrite (lookup_app_l_Some _ _ _ _ Edd). simpl. exact Hd.
Qed.

Lemma deref_chain_app h e c cs :
  deref_chain h c = Some cs -> deref_chain (h ++ e) c = Some cs.
Proof.
  unfold deref_chain. revert cs. induction c as [|l c IH]; intros cs Hd; simpl in *.
  - exact Hd.
  - destruct (deref_layer h l) as [x|] eqn:El; [|discriminate]. simpl in Hd.
    destruct (mapM (deref_layer h) c) as [xs|] eqn:Ec; [|discriminate].
    rewrite (deref_layer_app h e l x El). simpl.
    rewrite (IH xs eq_refl). exact Hd.
Qed.

Lemma held_app h e l v : held h l v -> held (h ++ e) l v.
Proof.
  intros [Hb Ht]. split; apply lookup_app_l_Some; assumption.
Qed.



Lemma view_of_ready s : ready s -> exists cs, view_of s = Some cs /\
  deref_chain (heap (snd s)) (chain (fst s)) = Some cs.
Proof.
  intros [Hne [cs Hcs]]. exists cs. split; [|exact Hcs].
  unfold view_of. destruct (chain (fst s)); [contradiction|exact Hcs].
Qed.




Lemma Forall_rebuf (P : NetLayer -> Prop) L c :
  (forall l a d, P l -> P {| bias := bias l; theta := theta l; act := a; delta := d;
                             in_nodes := in_nodes l; out_nodes := out_nodes l |}) ->
  Forall P c -> Forall P (rebuf L c).
Proof.
  intros HP Hc. revert L. induction Hc as [|l c Hl _ IH]; intros L; simpl; constructor.
  - apply HP, Hl.
  - apply IH.
Qed.

Lemma prod_list_1 n : prod_list [n] = n.
Proof. unfold prod_list. simpl. lia. Qed.

(** [__init__] gives a network as the wrapper keeps it. *)
Lemma NeuralNet_init_wf ls w n w' :
  f32_idem -> NeuralNet_init ls w = (Ok n, w') -> wf_net (n, w').
Proof.
  intros Hf Hi. pose proof (NeuralNet_init_fits ls w n w' Hi) as Hfit.
  apply NeuralNet_init_inv in Hi as (Hlen & -> & ->).
  set (L := length (heap w)).
  pose proof (fresh_chain_params ls (heap w) (rng w) (zero_bufs 100 (fresh_chain L ls)))
    as Hfp. fold L in Hfp.
  assert (HL : length (heap w ++ fst (init_arrays ls (rng w))) = (L + 2 * length ls)%nat).
  { rewrite length_app, length_init_arrays. reflexivity. }
  constructor; simpl.
  - split; simpl.
    + rewrite rebuf_nil. destruct ls; simpl in *; [lia|discriminate].
    + unfold deref_chain. rewrite mapM_is_Some.
      pose proof (deref_rebuf (heap w ++ fst (init_arrays ls (rng w))) 100
                    (fresh_chain L ls) []) as Hr.
      rewrite app_nil_r, HL, <- app_assoc in Hr. apply Hr.
      pose proof (fresh_chain_params ls (heap w) (rng w) []) as Hfp0. fold L in Hfp0.
      rewrite app_nil_r in Hfp0.
      eapply Forall_impl; [exact Hfp0|]. simpl.
      intros l (b & t & Hb & Ht & _). rewrite Hb, Ht. eauto.
  - unfold separate. simpl.
    rewrite chain_addrs_perm, param_addrs_rebuf, buffer_addrs_rebuf.
    rewrite param_addrs_fresh, length_fresh_chain.
    fold L. rewrite <- seq_app. apply NoDup_seq.
  - apply Forall_rebuf.
    + intros l a d (b & t & Hb & Ht & Hrest). exists b, t. simpl. auto.
    + eapply Forall_impl; [exact Hfp|]. simpl.
      intros l (b & t & Hb & Ht & Sb & St & _ & Hfx). destruct (Hfx Hf) as [Fb Ft].
      exists b, t. split; [exact Hb|]. split; [exact Ht|].
      split; [|split; assumption].
      unfold sized_for, np_size. simpl. rewrite Sb, St, !prod_list_1. auto.
  - rewrite rebuf_dims. apply fresh_chain_dims.
  - reflexivity.
  - reflexivity.
  - lia.
  - exact Hlen.
  - exact Hfit.
Qed.

(** ** set_params in general *)

Lemma layer_set_params_inv b t l w l' w' :
  layer_set_params b t (l, w) = (Ok tt, (l', w')) ->
  exists barr tarr,
    heap w !! b = Some barr /\ heap w !! t = Some tarr /\ sized_for l (barr, tarr) /\
    l' = {| bias := length (heap w); theta := S (length (heap w));
            act := act l; delta := delta l;
            in_nodes := in_nodes l; out_nodes := out_nodes l |} /\
    w' = set_heap (heap w ++ [copy_astype_f32 barr; copy_astype_f32 tarr]) w.
Proof.
  intros Hs.
  destruct (heap w !! b) as [barr|] eqn:Eb.
  2:{ unfold layer_set_params in Hs. munfold. simpl in Hs. rewrite Eb in Hs.
      discriminate. }
  destruct (heap w !! t) as [tarr|] eqn:Et.
  2:{ unfold layer_set_params in Hs. munfold. simpl in Hs. rewrite Eb in Hs.
      destruct (Nat.eqb _ _); simpl in Hs; [|discriminate].
      rewrite Et in Hs. discriminate. }
  destruct (decide (np_size barr = out_nodes l)) as [Sb|Sb].
  2:{ rewrite (layer_set_params_bad l w b t barr tarr Eb Et) in Hs by auto.
      discriminate. }
  destruct (decide (np_size tarr = (out_nodes l * in_nodes l)%nat)) as [St|St].
  2:{ rewrite (layer_set_params_bad l w b t barr tarr Eb Et) in Hs by auto.
      discriminate. }
  rewrite (layer_set_params_ok l w b t barr tarr Eb Et Sb St) in Hs.
  inversion Hs; subst. exists barr, tarr. unfold sized_for. auto.
Qed.

Lemma each_layer_set_params_inv ps c : forall i w c' w',
  each_layer (set_params_body ps) i c w = (Ok tt, (c', w')) ->
  exists vs, c' = readdr (length (heap w)) c /\ w' = set_heap (heap w ++ copies vs) w.
Proof.
  induction c as [|l c IH]; intros i w c' w' He.
  - simpl in He. inversion He; subst. exists []. simpl. rewrite app_nil_r.
    destruct w'; auto.
  - cbn [each_layer] in He.
    destruct (set_params_body ps i (l, w)) as [[[]|e] [l1 w1]] eqn:E1; [|discriminate].
    destruct (each_layer (set_params_body ps) (S i) c w1) as [r [c2 w2]] eqn:E2.
    inversion He; subst; clear He.
    unfold set_params_body, index, bind in E1.
    destruct (ps !! i) as [[b t]|]; [|discriminate]. unfold ret in E1. simpl in E1.
    apply layer_set_params_inv in E1 as (barr & tarr & _ & _ & _ & -> & ->).
    apply IH in E2 as (vs & -> & ->).
    exists ((barr, tarr) :: vs). cbn [heap set_heap readdr copies].
    rewrite length_app. simpl.
    replace (length (heap w) + 2)%nat with (S (S (length (heap w)))) by lia.
    split; [reflexivity|]. unfold set_heap. simpl. rewrite <- app_assoc. reflexivity.
Qed.

Lemma set_params_inv ps n w n' w' :
  set_params ps (n, w) = (Ok tt, (n', w')) ->
  exists vs, n' = set_chain (readdr (length (heap w)) (chain n)) n /\
             w' = set_heap (heap w ++ copies vs) w.
Proof.
  unfold set_params.
  change (fun i : nat => let* p := index ps i in layer_set_params (fst p) (snd p))
    with (set_params_body ps).
  unfold for_chain. munfold. cbn [fst]. intros Hs.
  destruct (Nat.eqb _ _); [|discriminate].
  destruct (each_layer (set_params_body ps) 0 (chain n) w) as [r [c' w1]] eqn:E.
  inversion Hs; subst.
  apply each_layer_set_params_inv in E as (vs & -> & ->). eauto.
Qed.

(** The store with the array at [a] replaced: a caller writing into an array
    it holds. *)
Definition caller_writes (a : addr) (arr : ndarray) (w : world) : world :=
  set_heap (<[a := arr]> (heap w)) w.

Lemma view_of_caller_writes a arr n w :
  a ∉ chain_addrs (chain n) ->
  view_of (n, caller_writes a arr w) = view_of (n, w).
Proof.
  intros Ha. unfold view_of, caller_writes. simpl.
  destruct (chain n) as [|l c] eqn:Ec; [reflexivity|]. rewrite <- Ec in *.
  apply deref_chain_ext. intros a' Ha'.
  apply list_lookup_insert_ne. intros ->. contradiction.
Qed.

Lemma deref_layer_bias h l x :
  deref_layer h l = Some x -> exists b t, h !! bias l = Some b /\ h !! theta l = Some t /\
    c_bias x = data b /\ c_theta x = data t.
Proof.
  unfold deref_layer. intros Hd.
  destruct (h !! bias l) as [b|]; [|discriminate]. simpl in Hd.
  destruct (h !! theta l) as [t|]; [|discriminate]. simpl in Hd.
  destruct (act l ≫= (h !!.)) as [a|]; [|discriminate]. simpl in Hd.
  destruct (delta l ≫= (h !!.)) as [d|]; [|discriminate]. simpl in Hd.
  inversion Hd; subst. simpl. exists b, t. repeat split; reflexivity.
Qed.

Lemma insert_shape_is_Some (h : list ndarray) a arr x :
  is_Some (h !! x) -> is_Some (<[a := arr]> h !! x).
Proof.
  intros Hx. apply lookup_lt_is_Some. rewrite length_insert.
  apply lookup_lt_is_Some. exact Hx.
Qed.

Lemma deref_layer_insert_is_Some h a arr l :
  is_Some (deref_layer h l) -> is_Some (deref_layer (<[a := arr]> h) l).
Proof.
  rewrite !deref_layer_is_Some. intros (Hb & Ht & Ha & Hd).
  repeat split; try (apply insert_shape_is_Some; assumption).
  - destruct (act l); simpl in *; [apply insert_shape_is_Some; assumption | exact Ha].
  - destruct (delta l); simpl in *; [apply insert_shape_is_Some; assumption | exact Hd].
Qed.

(** C3, as the code has it: [set_params] stores copies, [get_params] hands
    out the layers' own arrays.  After a successful [set_params], whatever a
    caller writes into an array that existed before the call (the arrays it
    passed in among them) leaves what the core sees, and so what
    [predict_prob] answers, as it was.  The pairs [get_params] returns are the
    very arrays the layers hold: a caller writing into the bias array of pair
    [k] changes the bias the core sees for layer [k]. *)
Theorem set_params_copies_get_params_aliases n w :
  ready (n, w) -> separate (n, w) ->
  (forall ps n' w' a arr,
     set_params ps (n, w) = (Ok tt, (n', w')) ->
     (a < length (heap w))%nat -> a ∉ buffer_addrs (chain n) ->
     view_of (n', caller_writes a arr w') = view_of (n', w') /\
     forall f, f <> a ->
       fst (predict_prob f (n', caller_writes a arr w')) = fst (predict_prob f (n', w'))) /\
  (forall k b t arr,
     get_params n !! k = Some (b, t) ->
     exists l cs,
       chain n !! k = Some l /\ bias l = b /\ theta l = t /\
       view_of (n, caller_writes b arr w) = Some cs /\
       c_bias <$> cs !! k = Some (data arr)).
Proof.
  intros Hr Hsep. split.
  - intros ps n' w' a arr Hs Ha Hbuf.
    apply set_params_inv in Hs as (vs & -> & ->).
    assert (Hn : a ∉ chain_addrs (chain (set_chain (readdr (length (heap w)) (chain n)) n))).
    { simpl. intros Hin. apply elem_of_chain_addrs in Hin as [Hin|Hin].
      - rewrite param_addrs_readdr in Hin. apply elem_of_seq in Hin. lia.
      - rewrite buffer_addrs_readdr in Hin. contradiction. }
    pose proof (view_of_caller_writes a arr _ (set_heap (heap w ++ copies vs) w) Hn) as Hv.
    split; [exact Hv|]. intros f Hf.
    assert (Hsep' : separate (set_chain (readdr (length (heap w)) (chain n)) n,
                              set_heap (heap w ++ copies vs) w)).
    { unfold separate. simpl. apply separate_readdr; assumption. }
    destruct (predict_prob_same f f
                (set_chain (readdr (length (heap w)) (chain n)) n)
                (caller_writes a arr (set_heap (heap w ++ copies vs) w))
                (set_chain (readdr (length (heap w)) (chain n)) n)
                (set_heap (heap w ++ copies vs) w))
      as (o & w1 & w2 & -> & -> & _); try assumption.
    + unfold same_view. rewrite Hv. auto.
    + simpl. apply list_lookup_insert_ne. congruence.
    + reflexivity.
  - intros k b t arr Hk. unfold get_params in Hk. rewrite list_lookup_fmap in Hk.
    destruct (chain n !! k) as [l|] eqn:El; [|discriminate].
    inversion Hk; subst b t; clear Hk.
    destruct Hr as [Hne Hd]. simpl in Hne, Hd.
    assert (Hd' : is_Some (deref_chain (<[bias l := arr]> (heap w)) (chain n))).
    { unfold deref_chain in *. rewrite mapM_is_Some in *.
      eapply Forall_impl; [exact Hd|]. intros l'. apply deref_layer_insert_is_Some. }
    destruct Hd' as [cs Hcs].
    exists l, cs. split; [reflexivity|]. split; [reflexivity|]. split; [reflexivity|].
    split.
    + unfold view_of, caller_writes. simpl. destruct (chain n); [contradiction|exact Hcs].
    + unfold deref_chain in Hcs. apply mapM_Some in Hcs.
      destruct (Forall2_lookup_l _ _ _ _ _ Hcs El) as (x & Hx & Hdx).
      rewrite Hx. simpl. f_equal.
      apply deref_layer_bias in Hdx as (b0 & t0 & Hb0 & _ & -> & _).
      rewrite list_lookup_insert_eq in Hb0.
      * inversion Hb0. reflexivity.
      * apply lookup_lt_Some in Hb0. rewrite length_insert in Hb0. exact Hb0.
Qed.

(** ** What a call leaves alone *)

Lemma take_rows_state {S} (a : ndarray) idx (s : S) o s' :
  take_rows a idx s = (o, s') -> s' = s.
Proof.
  unfold take_rows. destruct (shape a); [inversion 1; reflexivity|].
  destruct (forallb _ _); inversion 1; reflexivity.
Qed.







(** ** dumps and loads *)


Fixpoint flat (vs : list (ndarray * ndarray)) : list ndarray :=
  match vs with
  | [] => []
  | (b, t) :: rest => b :: t :: flat rest
  end.

Lemma length_flat vs : length (flat vs) = (2 * length vs)%nat.
Proof. induction vs as [|[b t] vs IH]; simpl; [reflexivity|]. rewrite IH. lia. Qed.

Lemma length_copies vs : length (copies vs) = (2 * length vs)%nat.
Proof. induction vs as [|[b t] vs IH]; simpl; [reflexivity|]. rewrite IH. lia. Qed.










Definition copy2 (v : ndarray * ndarray) : ndarray * ndarray :=
  (copy_astype_f32 (fst v), copy_astype_f32 (snd v)).



Lemma held_readdr c : forall vs h tail,
  length c = length vs ->
  Forall2 (held (h ++ copies vs ++ tail)) (readdr (length h) c) (copy2 <$> vs).
Proof.
  induction c as [|l c IH]; intros [|[vb vt] vs] h tail Hlen; try discriminate.
  - constructor.
  - simpl in Hlen. rewrite fmap_cons. cbn [readdr copies].
    change (h ++ (copy_astype_f32 vb :: copy_astype_f32 vt :: copies vs) ++ tail)
      with (h ++ [copy_astype_f32 vb; copy_astype_f32 vt] ++ (copies vs ++ tail)).
    rewrite app_assoc. constructor.
    + split; simpl; apply lookup_app_l_Some; [apply lookup_app2_0 | apply lookup_app2_1].
    + specialize (IH vs (h ++ [copy_astype_f32 vb; copy_astype_f32 vt]) tail).
      rewrite length_app in IH. simpl in IH.
      replace (length h + 2)%nat with (S (S (length h))) in IH by lia.
      apply IH. lia.
Qed.



(** What the forward pass reads of a layer. *)
Definition params_of (x : c_layer) : list V * list V * nat * nat :=
  (c_bias x, c_theta x, c_in_nodes x, c_out_nodes x).

Definition deref_params (h : list ndarray) (l : NetLayer)
    : option (list V * list V * nat * nat) :=
  b ← h !! bias l; t ← h !! theta l;
  Some (data b, data t, in_nodes l, out_nodes l).

Lemma deref_chain_params h c : forall cs,
  deref_chain h c = Some cs -> mapM (deref_params h) c = Some (params_of <$> cs).
Proof.
  unfold deref_chain. induction c as [|l c IH]; intros cs Hd; simpl in Hd.
  - inversion Hd. reflexivity.
  - destruct (deref_layer h l) as [x|] eqn:El; [|discriminate]. simpl in Hd.
    destruct (mapM (deref_layer h) c) as [xs|] eqn:Ec; [|discriminate].
    simpl in Hd. inversion Hd; subst. simpl. rewrite (IH xs eq_refl). simpl.
    unfold deref_layer in El. unfold deref_params.
    destruct (h !! bias l) as [b|]; [|discriminate]. simpl in *.
    destruct (h !! theta l) as [t|]; [|discriminate]. simpl in *.
    destruct (act l ≫= (h !!.)) as [a|]; [|discriminate]. simpl in El.
    destruct (delta l ≫= (h !!.)) as [d|]; [|discriminate]. simpl in El.
    inversion El; subst. reflexivity.
Qed.

Lemma deref_params_held h c1 : forall c2 vs,
  Forall2 (held h) c1 vs -> Forall2 (held h) c2 vs ->
  layer_dims <$> c1 = layer_dims <$> c2 ->
  mapM (deref_params h) c1 = mapM (deref_params h) c2.
Proof.
  induction c1 as [|l1 c1 IH]; intros c2 vs H1 H2 Hd.
  - inversion H1; subst. inversion H2; subst. reflexivity.
  - inversion H1 as [|? v ? vs' [Hb1 Ht1] H1']; subst.
    inversion H2 as [|l2 ? c2' ? [Hb2 Ht2] H2']; subst.
    rewrite !fmap_cons in Hd. inversion Hd as [[Hin Hout Hrest]].
    simpl. rewrite (IH c2' vs' H1' H2' Hrest).
    unfold deref_params. rewrite Hb1, Ht1, Hb2, Ht2. simpl.
    rewrite Hin, Hout. reflexivity.
Qed.

(** The forward pass reads the parameters and the sizes of the layers, and
    nothing else of the chain or of the batch size. *)
Definition core_params_only : Prop :=
  forall cs1 cs2 f p1 p2 n bs1 bs2,
    params_of <$> cs1 = params_of <$> cs2 -> length p1 = length p2 ->
    0 < bs1 -> 0 < bs2 ->
    snd (neural_predict_prob cs1 f p1 n bs1) = snd (neural_predict_prob cs2 f p2 n bs2).

Definition answer (r : outcome (ndarray * list c_layer)) : outcome ndarray :=
  match r with Ok (p, _) => Ok p | Raise e => Raise e end.

Lemma predict_prob_answer f n w :
  fst (predict_prob f (n, w)) =
    answer (predict_pure (heap w !! f) (n_features n) (n_labels n) (batch_size n)
                         (view_of (n, w))).
Proof.
  rewrite predict_prob_pure.
  destruct (predict_pure _ _ _ _ _) as [[p cs]|e]; reflexivity.
Qed.

Lemma predict_pure_params Fo nf nl bs1 bs2 cs1 cs2 :
  core_params_only -> params_of <$> cs1 = params_of <$> cs2 -> 0 < bs1 -> 0 < bs2 ->
  answer (predict_pure Fo nf nl bs1 (Some cs1)) = answer (predict_pure Fo nf nl bs2 (Some cs2)).
Proof.
  intros Hcore Hp H1 H2. unfold predict_pure.
  destruct Fo as [F|]; [|reflexivity].
  destruct (shape F !! 1%nat) as [f1|]; [|reflexivity].
  destruct (Nat.eqb f1 nf); [|reflexivity].
  destruct (shape F !! 0%nat) as [f0|]; [|reflexivity].
  simpl. rewrite (Hcore cs1 cs2 _ _ _ f0 bs1 bs2 Hp eq_refl H1 H2). reflexivity.
Qed.




Lemma Forall2_held_app h e c vs :
  Forall2 (held h) c vs -> Forall2 (held (h ++ e)) c vs.
Proof. intros Hh. eapply Forall2_impl; [exact Hh|]. intros l v. apply held_app. Qed.



End NetFacts.

(** * The forward pass of the core reads parameters only *)

Section SpecFacts.
Context `{Sc : Scalar} `{!Arith}.

Lemma affine_params l1 l2 x : params_of l1 = params_of l2 -> affine l1 x = affine l2 x.
Proof.
  unfold params_of. intros Hp. inversion Hp as [[Hb Ht Hi Ho]].
  unfold affine, theta_row. rewrite Hb, Ht, Hi, Ho. reflexivity.
Qed.

(** One row through the whole chain. *)
Fixpoint out_row (ls : list c_layer) (x : list V) : list V :=
  match ls with
  | [] => x
  | l :: rest => match rest with
                 | [] => x
                 | _ => out_row rest (affine l x)
                 end
  end.

Lemma forward_rows ls : forall X : list (list V), snd (forward ls X) = out_row ls <$> X.
Proof.
  induction ls as [|l rest IH]; intros X.
  - simpl. rewrite list_fmap_id. reflexivity.
  - destruct rest as [|l' rest'].
    + simpl. rewrite list_fmap_id. reflexivity.
    + change (forward (l :: l' :: rest') X)
        with (let '(r, Y) := forward (l' :: rest') (affine l <$> X) in (set_act l X :: r, Y)).
      specialize (IH (affine l <$> X)).
      destruct (forward (l' :: rest') (affine l <$> X)) as [r Y]. simpl in IH. simpl.
      rewrite IH, <- list_fmap_compose. reflexivity.
Qed.

Lemma forward_params_kept ls : forall X : list (list V),
  params_of <$> fst (forward ls X) = params_of <$> ls.
Proof.
  induction ls as [|l rest IH]; intros X; [reflexivity|].
  destruct rest as [|l' rest']; [reflexivity|].
  change (forward (l :: l' :: rest') X)
    with (let '(r, Y) := forward (l' :: rest') (affine l <$> X) in (set_act l X :: r, Y)).
  specialize (IH (affine l <$> X)).
  destruct (forward (l' :: rest') (affine l <$> X)) as [r Y]. simpl in IH.
  cbn [fst]. rewrite !fmap_cons, IH. reflexivity.
Qed.

Lemma out_row_params ls1 : forall ls2 x,
  params_of <$> ls1 = params_of <$> ls2 -> out_row ls1 x = out_row ls2 x.
Proof.
  induction ls1 as [|l1 r1 IH]; intros [|l2 r2] x Hp; try discriminate; [reflexivity|].
  rewrite !fmap_cons in Hp.
  assert (Hl : params_of l1 = params_of l2) by congruence.
  assert (Hr : params_of <$> r1 = params_of <$> r2) by congruence.
  destruct r1 as [|a1 r1'], r2 as [|a2 r2']; try discriminate; [reflexivity|].
  change (out_row (l1 :: a1 :: r1') x) with (out_row (a1 :: r1') (affine l1 x)).
  change (out_row (l2 :: a2 :: r2') x) with (out_row (a2 :: r2') (affine l2 x)).
  rewrite (affine_params l1 l2 x Hl). apply IH. exact Hr.
Qed.

Lemma concat_chunks {A} fuel : forall (bs : nat) (rows : list A),
  (0 < bs)%nat -> (length rows <= fuel)%nat -> concat (chunks fuel bs rows) = rows.
Proof.
  induction fuel as [|f IH]; intros bs rows Hbs Hlen; simpl.
  - destruct rows; [reflexivity | simpl in Hlen; lia].
  - destruct rows as [|r rows]; [reflexivity|].
    cbn [concat]. rewrite IH; [apply take_drop | exact Hbs |].
    rewrite length_drop. simpl in *. lia.
Qed.

Lemma predict_fold cks : forall cs cs0 out,
  params_of <$> cs = params_of <$> cs0 ->
  snd (foldl predict_step (cs, out) cks)
    = out ++ concat ((fun ck => concat (out_row cs0 <$> ck)) <$> cks).
Proof.
  induction cks as [|ck cks IH]; intros cs cs0 out Hp; simpl.
  - rewrite app_nil_r. reflexivity.
  - pose proof (forward_rows cs ck) as Hr. pose proof (forward_params_kept cs ck) as Hk.
    destruct (forward cs ck) as [cs' Y]. simpl in Hr, Hk.
    rewrite (IH cs' cs0); [|congruence].
    rewrite <- app_assoc. subst Y.
    f_equal. f_equal. f_equal. apply list_fmap_ext. intros i x _.
    apply out_row_params. exact Hp.
Qed.

Lemma concat_fmap_concat {A B} (f : A -> list B) (xss : list (list A)) :
  concat ((fun xs => concat (f <$> xs)) <$> xss) = concat (f <$> concat xss).
Proof.
  induction xss as [|xs xss IH]; [reflexivity|].
  rewrite fmap_cons. cbn [concat]. rewrite fmap_app, concat_app, IH. reflexivity.
Qed.

(** The answer of the modelled [neural_predict_prob]: every input row
    through the chain, whatever the batch size. *)
Lemma spec_predict_rows cs features preds n bs :
  0 < bs ->
  snd (spec_predict_prob cs features preds n bs)
    = concat (out_row cs <$> rows_of n (head_in_nodes cs) features).
Proof.
  intros Hbs. unfold spec_predict_prob.
  rewrite (predict_fold _ cs cs [] eq_refl). simpl.
  rewrite concat_fmap_concat, concat_chunks; [reflexivity | lia |].
  rewrite length_rows_of. lia.
Qed.

Lemma head_in_nodes_params cs1 cs2 :
  params_of <$> cs1 = params_of <$> cs2 -> head_in_nodes cs1 = head_in_nodes cs2.
Proof.
  destruct cs1 as [|l1 r1], cs2 as [|l2 r2]; try discriminate; [reflexivity|].
  rewrite !fmap_cons. unfold params_of. intros Hp. inversion Hp. simpl. congruence.
Qed.

Lemma spec_core_params_only : core_params_only (H0 := spec_core).
Proof.
  intros cs1 cs2 f p1 p2 n bs1 bs2 Hp _ H1 H2. simpl.
  rewrite !spec_predict_rows by assumption.
  rewrite (head_in_nodes_params cs1 cs2 Hp).
  f_equal. apply list_fmap_ext. intros i x _. apply out_row_params. exact Hp.
Qed.

End SpecFacts.

(** * Serialization round trip *)

Section Serialization.
Context `{Sc : Scalar} `{!NpRandom} `{!Arith}.


End Serialization.

(** * The model run on concrete networks *)

Module Examples.
Import Fixed.

Lemma sat32_idem : f32_idem.
Proof. intros v. simpl. unfold sat32. lia. Qed.

Lemma draws_length : rand_ok.
Proof.
  intros n. simpl. induction n as [|n IH]; intros g; simpl; [reflexivity|].
  specialize (IH (lcg g)). destruct (draws n (lcg g)). simpl in *. rewrite IH. reflexivity.
Qed.

Lemma rotation_perm : permutation_ok.
Proof.
  intros n g. simpl. rewrite Permutation_app_comm, take_drop. reflexivity.
Qed.

Lemma leb_total (a b : Z) :
  visnan a = false -> visnan b = false -> (a <=? b) = false -> (b <=? a) = true.
Proof. intros _ _ H. apply Z.leb_gt in H. apply Z.leb_le. lia. Qed.

Lemma leb_trans (a b c : Z) :
  visnan a = false -> visnan b = false -> visnan c = false ->
  (a <=? b) = true -> (b <=? c) = true -> (a <=? c) = true.
Proof. intros _ _ _. rewrite !Z.leb_le. lia. Qed.

Lemma no_nan (a b : Z) : visnan a = true -> (a <=? b) = false.
Proof. discriminate. Qed.

(** [nn = NeuralNet([2, 1])], then a 3x2 feature matrix and a 3x1 label
    matrix. *)
Definition w0 : world := empty_world 42.

Definition net1 : NeuralNet :=
  {| layers := [2; 1]%nat; n_features := 2; n_labels := 1; batch_size := 100;
     chain := [ {| bias := 0; theta := 1; act := Some 4%nat; delta := Some 5%nat;
                   in_nodes := 2; out_nodes := 1 |};
                {| bias := 2; theta := 3; act := Some 6%nat; delta := Some 7%nat;
                   in_nodes := 1; out_nodes := 0 |} ] |}.

Definition w1 : world := snd (NeuralNet_init [2; 1]%nat w0).

Lemma net1_init : NeuralNet_init [2; 1]%nat w0 = (Ok net1, w1).
Proof. reflexivity. Qed.

Definition features1 : ndarray :=
  {| shape := [3; 2]%nat; data := [65536; 0; 0; 65536; 65536; 65536] |}.
Definition labels1 : ndarray :=
  {| shape := [3; 1]%nat; data := [65536; 0; 65536] |}.

(** The store after the two arrays are made: [features1] at 8, [labels1] at 9. *)
Definition w2 : world := snd (alloc labels1 (snd (alloc features1 w1))).

Lemma net1_wf : wf_net (net1, w1).
Proof. exact (NeuralNet_init_wf _ _ _ _ sat32_idem net1_init). Qed.

Lemma net1_ready2 : ready (net1, w2).
Proof. split; [discriminate|]. eexists. reflexivity. Qed.






(** C3, against the claim: writing [1.0] into the bias array that
    [get_params()] returned for the first layer changes the bias the core
    sees and what [predict_prob] answers on [features1]. *)
Lemma get_params_returns_live_arrays :
  get_params net1 !! 0%nat = Some (0%nat, 1%nat) /\
  (c_bias <$> view_of (net1, w2) ≫= (.!! 0%nat),
   c_bias <$> view_of (net1, caller_writes 0 {| shape := [1%nat]; data := [65536] |} w2)
                ≫= (.!! 0%nat))
    = (Some [-6998], Some [65536]) /\
  (fst (predict_prob 8 (net1, w2)),
   fst (predict_prob 8 (net1, caller_writes 0 {| shape := [1%nat]; data := [65536] |} w2)))
    = (Ok {| shape := [3; 1]%nat; data := [30707; 29506; 29195] |},
       Ok {| shape := [3; 1]%nat; data := [48840; 47640; 47328] |}).
Proof. repeat split; reflexivity. Qed.

Lemma set_params_copies_get_params_aliases_witness :
  ready (net1, w1) /\ separate (net1, w1) /\
  (forall ps n' w' a arr,
     set_params ps (net1, w1) = (Ok tt, (n', w')) ->
     (a < length (heap w1))%nat -> a ∉ buffer_addrs (chain net1) ->
     view_of (n', caller_writes a arr w') = view_of (n', w') /\
     forall f, f <> a ->
       fst (predict_prob f (n', caller_writes a arr w')) = fst (predict_prob f (n', w'))) /\
  (forall k b t arr,
     get_params net1 !! k = Some (b, t) ->
     exists l cs,
       chain net1 !! k = Some l /\ bias l = b /\ theta l = t /\
       view_of (net1, caller_writes b arr w1) = Some cs /\
       c_bias <$> cs !! k = Some (data arr)).
Proof.
  split; [exact (wf_ready _ net1_wf)|]. split; [exact (wf_separate _ net1_wf)|].
  exact (set_params_copies_get_params_aliases net1 w1
           (wf_ready _ net1_wf) (wf_separate _ net1_wf)).
Defined.


Lemma features1_at : heap w2 !! 8%nat = Some features1.
Proof. reflexivity. Qed.

Lemma labels1_at : heap w2 !! 9%nat = Some labels1.
Proof. reflexivity. Qed.


(** Labels passed where features are expected: one column instead of two. *)
Lemma train_shape_mismatch_witness :
  heap w2 !! 9%nat = Some labels1 /\ heap w2 !! 8%nat = Some features1 /\
  shape labels1 = [3; 1]%nat /\ shape features1 = [3; 2]%nat /\
  (3%nat <> 3%nat \/ 1%nat <> n_features net1 \/ 2%nat <> n_labels net1) /\
  train 9 8 3 2 32768 0 58982 (net1, w2) = (Raise AssertionError, (net1, w2)).
Proof.
  assert (Hbad : 3%nat <> 3%nat \/ 1%nat <> n_features net1 \/ 2%nat <> n_labels net1).
  { right. left. discriminate. }
  split; [exact labels1_at|]. split; [exact features1_at|].
  split; [reflexivity|]. split; [reflexivity|]. split; [exact Hbad|].
  exact (train_shape_mismatch 9 8 3 2 32768 0 58982 net1 w2 labels1 features1
           3 1 [] 3 2 [] labels1_at features1_at eq_refl eq_refl Hbad).
Defined.

(** C6, against the claim: three rows and a batch size of two, and [train]
    returns normally. *)
Lemma train_runs_on_three_rows_by_two :
  shape <$> heap w2 !! 8%nat = Some [3; 2]%nat /\
  (3 mod 2 =? 0) = false /\
  fst (train 8 9 1 2 32768 0 65536 (net1, w2)) = Ok tt.
Proof. repeat split; reflexivity. Qed.

Lemma train_accepts_any_row_count_witness :
  permutation_ok /\ ready (net1, w2) /\
  heap w2 !! 8%nat = Some features1 /\ heap w2 !! 9%nat = Some labels1 /\
  shape features1 = [3; 2]%nat /\ shape labels1 = [3; 1]%nat /\
  2%nat = n_features net1 /\ 1%nat = n_labels net1 /\ fits 3 /\
  (0 < 2 < 2147483648 -> exists n' w',
     train 8 9 1 2 32768 0 65536 (net1, w2) = (Ok tt, (n', w'))) /\
  (2 <= 0 ->
     train 8 9 1 2 32768 0 65536 (net1, w2) = (Raise AssertionError, (net1, w2))) /\
  (2147483648 <= 2 -> batch_size net1 < 2147483648 ->
     train 8 9 1 2 32768 0 65536 (net1, w2) = (Raise OverflowError, (net1, w2))).
Proof.
  assert (Hfits : fits 3) by (unfold fits; lia).
  split; [exact rotation_perm|]. split; [exact net1_ready2|].
  split; [exact features1_at|]. split; [exact labels1_at|].
  split; [reflexivity|]. split; [reflexivity|].
  split; [reflexivity|]. split; [reflexivity|]. split; [exact Hfits|].
  exact (train_accepts_any_row_count 8 9 1 2 32768 0 65536 net1 w2 features1 labels1
           3 2 [] 1 [] rotation_perm net1_ready2 features1_at labels1_at
           eq_refl eq_refl eq_refl eq_refl Hfits).
Defined.

(** A batch size past the C ints is turned down by [set_batch], not by a
    check of [train]. *)
Lemma train_overflows_on_a_huge_batch :
  train 8 9 1 2147483648 32768 0 65536 (net1, w2) = (Raise OverflowError, (net1, w2)).
Proof. reflexivity. Qed.





Lemma get_params_after_init_witness :
  rand_ok /\ NeuralNet_init [2; 1]%nat w0 = (Ok net1, w1) /\
  length (get_params net1) = length [2; 1]%nat /\
  (forall k b t, get_params net1 !! k = Some (b, t) ->
     exists i barr tarr,
       [2; 1]%nat !! k = Some i /\
       heap w1 !! b = Some barr /\ heap w1 !! t = Some tarr /\
       shape barr = [default 0%nat ([2; 1]%nat !! S k)] /\
       shape tarr = [(default 0%nat ([2; 1]%nat !! S k) * i)%nat] /\
       length (data barr) = default 0%nat ([2; 1]%nat !! S k) /\
       length (data tarr) = (default 0%nat ([2; 1]%nat !! S k) * i)%nat) /\
  (exists b t, last (get_params net1) = Some (b, t) /\
     heap w1 !! b = Some {| shape := [0%nat]; data := [] |} /\
     heap w1 !! t = Some {| shape := [0%nat]; data := [] |}).
Proof.
  split; [exact draws_length|]. split; [exact net1_init|].
  exact (get_params_after_init [2; 1]%nat w0 net1 w1 draws_length net1_init).
Defined.

Definition preds1 : ndarray :=
  {| shape := [3; 1]%nat; data := [30707; 29506; 29195] |}.

Lemma predict1 :
  predict_prob 8 (net1, w2) = (Ok preds1, snd (predict_prob 8 (net1, w2))).
Proof. reflexivity. Qed.

(** [NeuralNet([2, 2])]: two labels, and [features1] at 8. *)
Definition net9 : NeuralNet :=
  {| layers := [2; 2]%nat; n_features := 2; n_labels := 2; batch_size := 100;
     chain := [ {| bias := 0; theta := 1; act := Some 4%nat; delta := Some 5%nat;
                   in_nodes := 2; out_nodes := 2 |};
                {| bias := 2; theta := 3; act := Some 6%nat; delta := Some 7%nat;
                   in_nodes := 2; out_nodes := 0 |} ] |}.
Definition w9 : world := snd (alloc features1 (snd (NeuralNet_init [2; 2]%nat w0))).
Definition preds9 : ndarray :=
  {| shape := [3; 2]%nat; data := [29506; 32225; 32815; 32631; 31303; 32400] |}.

Lemma net9_init : fst (NeuralNet_init [2; 2]%nat w0) = Ok net9.
Proof. reflexivity. Qed.

Lemma predict9 :
  predict_prob 8 (net9, w9) = (Ok preds9, snd (predict_prob 8 (net9, w9))).
Proof. reflexivity. Qed.

(** The labels of the three rows: the greater entry is the second, the
    first, the second. *)
Lemma predict_label9 : fst (predict_label 8 (net9, w9)) = Ok [1; 0; 1]%nat.
Proof. reflexivity. Qed.

(** [nn.set_params] with a first-layer theta of shape (1, 2), made at 9
    beside a bias at 8 and a 1x1 label matrix at 10; [get_params] then hands
    out the layer's own theta, at 12, a well-shaped feature matrix. *)
Definition w10 : world :=
  snd (alloc {| shape := [1; 1]%nat; data := [65536] |}
    (snd (alloc {| shape := [1; 2]%nat; data := [6554; -6554] |}
      (snd (alloc {| shape := [1%nat]; data := [0] |} w1))))).
Definition s10 : NeuralNet * world :=
  snd (set_params [(8, 9); (2, 3)]%nat (net1, w10)).


End Examples.

(** * The same arrays under a core that writes through every pointer *)

Module WipingExamples.
Import Fixed.
Import Examples.
#[local] Existing Instance wiping_core | 0.

(** The core wipes the features and labels it is handed; those are the
    temporaries of the call, gone when it returns, and the store is as it
    was, the arrays at 8 and 9 with it. *)
Lemma wiped_temporaries :
  neural_train_iteration [] [1; 2] [3] 1 1 0 0 = ([], [0; 0], [0]) /\
  fst (train 8 9 1 100 32768 0 65536 (net1, w2)) = Ok tt /\
  heap (snd (snd (train 8 9 1 100 32768 0 65536 (net1, w2)))) = heap w2 /\
  heap w2 !! 8%nat = Some features1 /\ heap w2 !! 9%nat = Some labels1.
Proof. repeat split; reflexivity. Qed.


End WipingExamples.

(** * Python's floats *)

(** ** The order of Python's floats

    [<=] on floats is what [SFleb] is on their specification: a total
    preorder on the floats that are no NaN, and false whenever one side is
    a NaN. *)
Definition sf_nan (x : SpecFloat.spec_float) : bool :=
  match x with SpecFloat.S754_nan => true | _ => false end.

Ltac by_compare :=
  repeat match goal with
  | |- context [(?a ?= ?b)%Z] => destruct (Z.compare_spec a b)
  | H : context [(?a ?= ?b)%Z] |- _ => destruct (Z.compare_spec a b)
  | |- context [PosDef.Pos.compare_cont Eq ?a ?b] =>
      change (PosDef.Pos.compare_cont Eq a b) with (Pos.compare a b);
      destruct (Pos.compare_spec a b)
  | H : context [PosDef.Pos.compare_cont Eq ?a ?b] |- _ =>
      change (PosDef.Pos.compare_cont Eq a b) with (Pos.compare a b) in H;
      destruct (Pos.compare_spec a b)
  end; simpl in *; try reflexivity; try discriminate; try lia.

Lemma SFcompare_refl x : sf_nan x = false -> SpecFloat.SFcompare x x = Some Eq.
Proof.
  destruct x as [[]|[]| |[] m e]; simpl; try discriminate; intros _; try reflexivity.
  all: rewrite Z.compare_refl;
       change (PosDef.Pos.compare_cont Eq m m) with (Pos.compare m m);
       rewrite Pos.compare_refl; reflexivity.
Qed.

Lemma sf_nan_eqb x : negb (SpecFloat.SFeqb x x) = sf_nan x.
Proof.
  unfold SpecFloat.SFeqb. destruct (sf_nan x) eqn:E.
  - destruct x; try discriminate. reflexivity.
  - rewrite SFcompare_refl by exact E. reflexivity.
Qed.

Lemma SFleb_total x y :
  sf_nan x = false -> sf_nan y = false ->
  SpecFloat.SFleb x y = false -> SpecFloat.SFleb y x = true.
Proof.
  unfold SpecFloat.SFleb.
  destruct x as [[]|[]| |[] m1 e1], y as [[]|[]| |[] m2 e2]; simpl;
    try discriminate; try reflexivity; intros _ _; by_compare.
Qed.

Lemma SFleb_trans x y z :
  SpecFloat.SFleb x y = true -> SpecFloat.SFleb y z = true ->
  SpecFloat.SFleb x z = true.
Proof.
  unfold SpecFloat.SFleb.
  destruct x as [[]|[]| |[] m1 e1], y as [[]|[]| |[] m2 e2],
           z as [[]|[]| |[] m3 e3];
    simpl; try discriminate; try reflexivity; by_compare.
Qed.

Lemma is_nan_spec (x : PrimFloat.float) :
  PrimFloat.is_nan x = sf_nan (FloatOps.Prim2SF x).
Proof. unfold PrimFloat.is_nan. rewrite FloatAxioms.eqb_spec. apply sf_nan_eqb. Qed.

Lemma float_leb_total (a b : @V IEEE.scalar) :
  visnan a = false -> visnan b = false -> vleb a b = false -> vleb b a = true.
Proof.
  simpl. rewrite !is_nan_spec, !FloatAxioms.leb_spec. apply SFleb_total.
Qed.

Lemma float_leb_trans (a b c : @V IEEE.scalar) :
  visnan a = false -> visnan b = false -> visnan c = false ->
  vleb a b = true -> vleb b c = true -> vleb a c = true.
Proof. intros _ _ _. simpl. rewrite !FloatAxioms.leb_spec. apply SFleb_trans. Qed.

Lemma float_leb_nan (a b : @V IEEE.scalar) : visnan a = true -> vleb a b = false.
Proof.
  simpl. rewrite is_nan_spec, FloatAxioms.leb_spec.
  destruct (FloatOps.Prim2SF a); try discriminate. reflexivity.
Qed.


Module FloatExamples.
Import IEEE.
Import PrimFloat.

(** [nn = NeuralNet([2, 2])], a 3x2 feature matrix at 8 and a 3x2 label
    matrix at 9. *)
Definition fnet : NeuralNet :=
  {| layers := [2; 2]%nat; n_features := 2; n_labels := 2; batch_size := 100;
     chain := [ {| bias := 0; theta := 1; act := Some 4%nat; delta := Some 5%nat;
                   in_nodes := 2; out_nodes := 2 |};
                {| bias := 2; theta := 3; act := Some 6%nat; delta := Some 7%nat;
                   in_nodes := 2; out_nodes := 0 |} ] |}.

Lemma fnet_init : fst (NeuralNet_init [2; 2]%nat (empty_world 42)) = Ok fnet.
Proof. reflexivity. Qed.



(** [np.argmax] on rows with a NaN: the first NaN is the answer, wherever
    the greatest number is. *)
Lemma argmax_stops_at_nan :
  argmax [nan; 0x1.8p-1; 0x1p-2]%float = 0%nat /\
  argmax [0x1p-2; nan; 0x1.8p-1]%float = 1%nat /\
  argmax [0x1.8p-1; 0x1p-2; nan; nan]%float = 2%nat /\
  argmax [0x1p-2; 0x1.8p-1; 0x1p-1; 0x1.8p-1]%float = 1%nat.
Proof. repeat split; reflexivity. Qed.

(** [nn = NeuralNet([2, 2])] again, and at 8 a matrix of three rows, the
    second with a NaN: the answer has a row of NaN there. *)
Definition ffeatures9 : ndarray :=
  {| shape := [3; 2]%nat; data := [1; 0; nan; 1; 0; 1]%float |}.
Definition fw9 : world :=
  snd (alloc ffeatures9 (snd (NeuralNet_init [2; 2]%nat (empty_world 42)))).
Definition fpreds9 : ndarray :=
  {| shape := [3; 2]%nat;
     data := [0x1.cd0a9p-2; 0x1.f78628p-2; nan; nan;
              0x1.005e34p-1; 0x1.fdddc2p-2]%float |}.

Lemma fpredict9 :
  predict_prob 8 (fnet, fw9) = (Ok fpreds9, snd (predict_prob 8 (fnet, fw9))).
Proof. reflexivity. Qed.

(** The labels of the three rows: the second entry is the greater, the
    first is the first NaN, the first entry is the greater. *)
Lemma fpredict_label9 : fst (predict_label 8 (fnet, fw9)) = Ok [1; 0; 0]%nat.
Proof. reflexivity. Qed.

Lemma predict_label_row_argmax_witness :
  (forall a b : float,
     is_nan a = false -> is_nan b = false -> (a <=? b)%float = false ->
     (b <=? a)%float = true) /\
  (forall a b c : float,
     is_nan a = false -> is_nan b = false -> is_nan c = false ->
     (a <=? b)%float = true -> (b <=? c)%float = true -> (a <=? c)%float = true) /\
  (forall a b : float, is_nan a = true -> (a <=? b)%float = false) /\
  n_labels fnet <> 0%nat /\
  predict_prob 8 (fnet, fw9) = (Ok fpreds9, snd (predict_prob 8 (fnet, fw9))) /\
  exists F r labels,
    heap fw9 !! 8%nat = Some F /\ shape F !! 0%nat = Some r /\
    shape fpreds9 = [r; n_labels fnet] /\
    predict_label 8 (fnet, fw9) = (Ok labels, snd (predict_prob 8 (fnet, fw9))) /\
    length labels = r /\
    forall i row, rows_of r (n_labels fnet) (data fpreds9) !! i = Some row ->
      exists j, labels !! i = Some j /\ (j < n_labels fnet)%nat /\
                (nan_free row -> first_max row j) /\
                (forall p, first_nan row p -> j = p).
Proof.
  assert (Hn : n_labels fnet <> 0%nat) by discriminate.
  split; [exact float_leb_total|]. split; [exact float_leb_trans|].
  split; [exact float_leb_nan|].
  split; [exact Hn|]. split; [exact fpredict9|].
  exact (predict_label_row_argmax 8 fnet fw9 fpreds9 _ float_leb_total
           float_leb_trans float_leb_nan Hn fpredict9).
Defined.

End FloatExamples.


(** * Further properties of the wrapper *)

Section Lifecycle.
Context `{Sc : Scalar} `{!NpRandom} `{!NeuralCore}.

Lemma last_default (ls : list nat) : ls <> [] -> last ls = Some (List.last ls 0%nat).
Proof.
  induction ls as [|a ls IH]; [done|]. intros _.
  destruct ls as [|b ls]; [reflexivity|].
  change (last (a :: b :: ls)) with (last (b :: ls)).
  change (List.last (a :: b :: ls) 0%nat) with (List.last (b :: ls) 0%nat).
  apply IH. discriminate.
Qed.

Lemma length_new_world ls w :
  exists new, heap (new_world ls w) = heap w ++ new /\ length new = (4 * length ls)%nat.
Proof.
  unfold new_world. simpl. eexists. split; [reflexivity|].
  rewrite length_app, length_init_arrays, length_zero_bufs, length_fresh_chain. lia.
Qed.

(** X1: [NeuralNet.__init__] raises AssertionError, the store untouched, on
    fewer than two sizes.  On two or more it raises OverflowError when one
    of them does not fit a C int, the store untouched when that is the first
    or the last, and succeeds when they all fit: the new network keeps the
    list, takes its first entry as feature count and its last as label
    count, has batch size 100 and one layer per entry, and the call adds
    four arrays per layer to the store without a call into the core. *)
Theorem NeuralNet_init_outcome ls w :
  ((length ls < 2)%nat -> NeuralNet_init ls w = (Raise AssertionError, w)) /\
  ((2 <= length ls)%nat -> ~ Forall fits ls ->
     fst (NeuralNet_init ls w) = Raise OverflowError /\
     (~ fits (hd 0%nat ls) \/ ~ fits (List.last ls 0%nat) ->
      NeuralNet_init ls w = (Raise OverflowError, w))) /\
  ((2 <= length ls)%nat -> Forall fits ls ->
     exists n w' new,
       NeuralNet_init ls w = (Ok n, w') /\
       layers n = ls /\ ls !! 0%nat = Some (n_features n) /\
       last ls = Some (n_labels n) /\ batch_size n = 100 /\
       length (chain n) = length ls /\
       heap w' = heap w ++ new /\ length new = (4 * length ls)%nat /\
       trace w' = trace w).
Proof.
  split; [|split]; intros Hlen.
  - apply NeuralNet_init_short. exact Hlen.
  - intros Hno. apply NeuralNet_init_overflow; assumption.
  - intros Hfit. destruct (length_new_world ls w) as (new & Hh & Hn).
    exists (new_net ls (length (heap w))), (new_world ls w), new.
    split; [apply NeuralNet_init_ok; assumption|].
    split; [reflexivity|].
    split; [destruct ls; [simpl in Hlen; lia | reflexivity]|].
    split; [apply last_default; destruct ls; [simpl in Hlen; lia | discriminate]|].
    split; [reflexivity|].
    split; [simpl; rewrite length_rebuf, length_fresh_chain; reflexivity|].
    split; [exact Hh|]. split; [exact Hn|]. reflexivity.
Qed.

(** X2: in the chain [__init__] builds, layer [k] has [ls[k]] inputs and
    [ls[k+1]] outputs, so each layer's inputs are the outputs of the layer
    before it; the first layer takes the network's features, and the last
    layer, the sink, takes the network's labels and has no output. *)
Theorem init_chain_dimensions ls w n w' :
  NeuralNet_init ls w = (Ok n, w') ->
  (forall k l, chain n !! k = Some l ->
     ls !! k = Some (in_nodes l) /\ out_nodes l = default 0%nat (ls !! S k)) /\
  (forall k l l', chain n !! k = Some l -> chain n !! S k = Some l' ->
     in_nodes l' = out_nodes l) /\
  (forall l, chain n !! 0%nat = Some l -> in_nodes l = n_features n) /\
  (forall l, last (chain n) = Some l -> in_nodes l = n_labels n /\ out_nodes l = 0%nat).
Proof.
  intros Hi. apply NeuralNet_init_inv in Hi as (Hlen & -> & ->).
  set (n := new_net ls (length (heap w))).
  assert (Hd : layer_dims <$> chain n = dims ls).
  { unfold n, new_net. simpl. rewrite rebuf_dims. apply fresh_chain_dims. }
  assert (Hk : forall k l, chain n !! k = Some l ->
     ls !! k = Some (in_nodes l) /\ out_nodes l = default 0%nat (ls !! S k)).
  { intros k l Hl. apply dims_lookup. rewrite <- Hd, list_lookup_fmap, Hl. reflexivity. }
  assert (Hcl : length (chain n) = length ls).
  { rewrite <- (length_dims ls), <- Hd, length_fmap. reflexivity. }
  split; [exact Hk|]. split; [|split].
  - intros k l l' Hl Hl'. destruct (Hk _ _ Hl) as [_ ->].
    destruct (Hk _ _ Hl') as [-> _]. reflexivity.
  - intros l Hl. destruct (Hk _ _ Hl) as [Hin0 _].
    unfold n, new_net. simpl. destruct ls; simpl in *; congruence.
  - intros l Hl. rewrite last_lookup in Hl. destruct (Hk _ _ Hl) as [Hin Hout].
    rewrite Hcl in Hin, Hout. split.
    + assert (Hlast : last ls = Some (List.last ls 0%nat)).
      { apply last_default. destruct ls; [simpl in Hlen; lia | discriminate]. }
      rewrite last_lookup in Hlast. unfold n, new_net. simpl. congruence.
    + rewrite Hout. replace (S (pred (length ls))) with (length ls) by lia.
      rewrite lookup_ge_None_2 by lia. reflexivity.
Qed.

(** ** set_batch *)

Definition zeros_for (bs : Z) (l : NetLayer) : ndarray :=
  np_zeros [Z.to_nat (Z.of_nat (in_nodes l) * bs)].

Lemma rebuf_buffers bs c : forall h ext,
  Forall (fun l => exists a d,
            act l = Some a /\ delta l = Some d /\ a <> d /\
            (length h <= a)%nat /\ (length h <= d)%nat /\
            (h ++ zero_bufs bs c ++ ext) !! a = Some (zeros_for bs l) /\
            (h ++ zero_bufs bs c ++ ext) !! d = Some (zeros_for bs l))
         (rebuf (length h) c).
Proof.
  induction c as [|l c IH]; intros h ext; simpl; [constructor|].
  constructor.
  - exists (length h), (S (length h)). simpl.
    split; [reflexivity|]. split; [reflexivity|]. split; [lia|].
    split; [lia|]. split; [lia|].
    change (h ++ np_zeros [Z.to_nat (Z.of_nat (in_nodes l) * bs)]
              :: np_zeros [Z.to_nat (Z.of_nat (in_nodes l) * bs)]
              :: zero_bufs bs c ++ ext)
      with (h ++ [zeros_for bs l; zeros_for bs l] ++ (zero_bufs bs c ++ ext)).
    rewrite app_assoc.
    split; apply lookup_app_l_Some; [apply lookup_app2_0 | apply lookup_app2_1].
  - specialize (IH (h ++ [zeros_for bs l; zeros_for bs l]) ext).
    rewrite length_app in IH. simpl in IH.
    replace (length h + 2)%nat with (S (S (length h))) in IH by lia.
    rewrite <- app_assoc in IH.
    eapply Forall_impl; [exact IH|]. simpl.
    intros l' (a & d & Ha & Hd & Hne & La & Ld & Za & Zd).
    exists a, d. repeat split; try assumption; lia.
Qed.

(** X3: [set_batch] with a batch size that is not negative and fits a C int
    succeeds: the network takes the new batch size, every layer gets two new
    arrays of [in_nodes * batch_size] float32 zeros as [act] and [delta],
    all of them distinct, and nothing else changes: the sizes, the parameter
    arrays [get_params] returns, and every array already in the store. *)
Theorem set_batch_reallocates bs n w :
  0 <= bs < 2147483648 ->
  exists n' w',
    set_batch bs (n, w) = (Ok tt, (n', w')) /\
    batch_size n' = bs /\ layers n' = layers n /\
    n_features n' = n_features n /\ n_labels n' = n_labels n /\
    get_params n' = get_params n /\
    layer_dims <$> chain n' = layer_dims <$> chain n /\
    (forall a x, heap w !! a = Some x -> heap w' !! a = Some x) /\
    Forall (fun l => exists a d,
              act l = Some a /\ delta l = Some d /\
              (length (heap w) <= a)%nat /\ (length (heap w) <= d)%nat /\
              heap w' !! a = Some (zeros_for bs l) /\
              heap w' !! d = Some (zeros_for bs l)) (chain n') /\
    NoDup (buffer_addrs (chain n')) /\
    rng w' = rng w /\ trace w' = trace w.
Proof.
  intros Hbs. eexists _, _. split; [apply set_batch_ok; exact Hbs|]. simpl.
  split; [reflexivity|]. split; [reflexivity|]. split; [reflexivity|].
  split; [reflexivity|].
  split; [unfold get_params; simpl; apply rebuf_params|].
  split; [apply rebuf_dims|].
  split; [intros a x Ha; apply lookup_app_l_Some; exact Ha|].
  split.
  { pose proof (rebuf_buffers bs (chain n) (heap w) []) as Hr.
    rewrite app_nil_r in Hr. eapply Forall_impl; [exact Hr|]. simpl.
    intros l (a & d & Ha & Hd & _ & La & Ld & Za & Zd). exists a, d. auto 7. }
  split; [rewrite buffer_addrs_rebuf; apply NoDup_seq|].
  split; reflexivity.
Qed.

(** X4: [set_batch] stores the batch size, a C int, before it allocates.
    A batch size that does not fit a C int raises OverflowError and nothing
    changes.  With a negative one that fits, and a first layer that has
    inputs, [np.zeros] raises ValueError at the first layer: no buffer is
    replaced and the store is untouched, but the network's batch size is
    already the negative one. *)
Theorem set_batch_negative bs n w l rest :
  chain n = l :: rest -> in_nodes l <> 0%nat ->
  (-2147483648 <= bs < 0 ->
     set_batch bs (n, w) = (Raise ValueError, (with_batch bs (chain n) n, w))) /\
  (~ (-2147483648 <= bs < 2147483648) ->
     set_batch bs (n, w) = (Raise OverflowError, (n, w))).
Proof.
  intros Hc Hin. split; intros Hbs; [|apply set_batch_overflow; exact Hbs].
  unfold set_batch, for_chain, bind. rewrite c_int_ok by lia.
  munfold. simpl. rewrite Hc.
  cbn [each_layer]. unfold layer_set_batch. munfold. simpl.
  destruct (Z.ltb_spec (Z.of_nat (in_nodes l) * bs) 0) as [_|Hge]; [|nia].
  unfold with_batch, set_chain. simpl. reflexivity.
Qed.

(** ** train *)

(** The network after a [train] with batch size [bs] that passed its
    asserts: as it was, or with new buffers when the batch size changed. *)
Definition net_after (bs : Z) (n : NeuralNet) (w : world) : NeuralNet :=
  if bs =? batch_size n then n
  else with_batch bs (rebuf (length (heap w)) (chain n)) n.

Definition world_after (bs : Z) (n : NeuralNet) (w : world) : world :=
  if bs =? batch_size n then w
  else set_heap (heap w ++ zero_bufs bs (chain n)) w.

Lemma train_asserts_pass features labels max_iter bs alpha lamb decay n w F L
    fr fc fs lc ls :
  heap w !! features = Some F -> heap w !! labels = Some L ->
  shape F = fr :: fc :: fs -> shape L = fr :: lc :: ls ->
  fc = n_features n -> lc = n_labels n -> 0 < bs < 2147483648 ->
  train features labels max_iter bs alpha lamb decay (n, w)
    = train_loop (Z.to_nat max_iter) features labels bs alpha lamb decay
        (net_after bs n w, world_after bs n w).
Proof.
  intros HF HL SF SL -> -> Hbs. unfold train, net_after, world_after. munfold.
  rewrite HF, HL, SF, SL. simpl. rewrite !Nat.eqb_refl. simpl.
  destruct (Z.ltb_spec 0 bs) as [_|Hn]; [|lia]. simpl.
  destruct (Z.eqb_spec bs (batch_size n)) as [Heq|Hne]; simpl; [reflexivity|].
  rewrite set_batch_ok by lia. reflexivity.
Qed.

Lemma net_after_params bs n w : get_params (net_after bs n w) = get_params n.
Proof.
  unfold net_after. destruct (bs =? batch_size n); [reflexivity|].
  unfold get_params. simpl. apply rebuf_params.
Qed.

Lemma net_after_batch bs n w : batch_size (net_after bs n w) = bs.
Proof.
  unfold net_after. destruct (Z.eqb_spec bs (batch_size n)) as [->|_]; reflexivity.
Qed.

Lemma world_after_keeps bs n w a x :
  heap w !! a = Some x -> heap (world_after bs n w) !! a = Some x.
Proof.
  unfold world_after. destruct (bs =? batch_size n); [auto|].
  simpl. apply lookup_app_l_Some.
Qed.

(** X5: [train] with [max_iter <= 0], well-shaped arguments and a positive
    batch size that fits a C int returns normally without a single call
    into the core and without drawing a permutation; parameters and every
    array of the store stay as they were.  The batch size is still taken
    over, with new buffers when it differs from the network's; when it is
    the network's own, nothing at all changes. *)
Theorem train_no_epochs features labels max_iter bs alpha lamb decay n w F L
    fr fc fs lc ls :
  heap w !! features = Some F -> heap w !! labels = Some L ->
  shape F = fr :: fc :: fs -> shape L = fr :: lc :: ls ->
  fc = n_features n -> lc = n_labels n -> 0 < bs < 2147483648 -> max_iter <= 0 ->
  exists n' w',
    train features labels max_iter bs alpha lamb decay (n, w) = (Ok tt, (n', w')) /\
    trace w' = trace w /\ rng w' = rng w /\
    get_params n' = get_params n /\ batch_size n' = bs /\
    (forall a x, heap w !! a = Some x -> heap w' !! a = Some x) /\
    (bs = batch_size n -> n' = n /\ w' = w).
Proof.
  intros HF HL SF SL Hfc Hlc Hbs Hmax.
  exists (net_after bs n w), (world_after bs n w). split.
  { rewrite (train_asserts_pass _ _ _ _ _ _ _ _ _ F L fr fc fs lc ls) by assumption.
    replace (Z.to_nat max_iter) with 0%nat by lia. reflexivity. }
  split; [unfold world_after; destruct (bs =? batch_size n); reflexivity|].
  split; [unfold world_after; destruct (bs =? batch_size n); reflexivity|].
  split; [apply net_after_params|]. split; [apply net_after_batch|].
  split; [intros a x; apply world_after_keeps|].
  intros ->. unfold net_after, world_after. rewrite Z.eqb_refl. auto.
Qed.

(** ** What calls into the core keep *)

(** [h'] is [h] after any number of calls into the core on the chain [c]. *)
Inductive written (c : list NetLayer) : list ndarray -> list ndarray -> Prop :=
| written_refl h : written c h h
| written_step h cs h' : written c (write_chain c cs h) h' -> written c h h'.

(** Every array is still there, with its shape, and float32 if it was. *)
Definition keeps_arrays (h h' : list ndarray) : Prop :=
  length h' = length h /\
  forall a x, h !! a = Some x ->
    exists y, h' !! a = Some y /\ shape y = shape x /\ (fixed32 x -> fixed32 y).

Lemma keeps_arrays_refl h : keeps_arrays h h.
Proof. split; [reflexivity|]. intros a x Hx. exists x. auto. Qed.

Lemma keeps_arrays_trans h1 h2 h3 :
  keeps_arrays h1 h2 -> keeps_arrays h2 h3 -> keeps_arrays h1 h3.
Proof.
  intros [L12 H12] [L23 H23]. split; [congruence|]. intros a x Hx.
  destruct (H12 a x Hx) as (y & Hy & Sy & Fy).
  destruct (H23 a y Hy) as (z & Hz & Sz & Fz).
  exists z. split; [exact Hz|]. split; [congruence|auto].
Qed.

Lemma fixed32_overwrite (old new : list V) :
  f32_idem -> Forall (fun v => f32 v = v) old ->
  Forall (fun v => f32 v = v) (overwrite old new).
Proof.
  intros Hf Hold. unfold overwrite. apply Forall_app. split.
  - apply Forall_take, Forall_fmap, Forall_true. intros v. apply Hf.
  - apply Forall_drop. exact Hold.
Qed.

Lemma store_data_keeps a new h : f32_idem -> keeps_arrays h (store_data a new h).
Proof.
  intros Hf. unfold store_data. destruct (h !! a) as [arr|] eqn:Ea;
    [|apply keeps_arrays_refl].
  split; [apply length_insert|]. intros a' x Hx.
  destruct (decide (a' = a)) as [->|Hne].
  - rewrite list_lookup_insert_eq by (eapply lookup_lt_Some; eassumption).
    eexists. split; [reflexivity|]. simpl.
    assert (x = arr) as -> by congruence.
    split; [reflexivity|]. intros Hx32. apply fixed32_overwrite; assumption.
  - rewrite list_lookup_insert_ne by congruence. exists x. auto.
Qed.

Lemma store_opt_keeps a new h : f32_idem -> keeps_arrays h (store_opt a new h).
Proof.
  intros Hf. destruct a; [apply store_data_keeps, Hf | apply keeps_arrays_refl].
Qed.

Lemma write_layer_keeps l c h : f32_idem -> keeps_arrays h (write_layer l c h).
Proof.
  intros Hf. unfold write_layer.
  set (h1 := store_data (bias l) (c_bias c) h).
  set (h2 := store_data (theta l) (c_theta c) h1).
  set (h3 := store_opt (act l) (c_act c) h2).
  apply (keeps_arrays_trans h h1); [apply store_data_keeps, Hf|].
  apply (keeps_arrays_trans h1 h2); [apply store_data_keeps, Hf|].
  apply (keeps_arrays_trans h2 h3); apply store_opt_keeps, Hf.
Qed.

Lemma write_chain_keeps ls cs h : f32_idem -> keeps_arrays h (write_chain ls cs h).
Proof.
  intros Hf. revert cs h. induction ls as [|l ls IH]; intros [|c cs] h; simpl;
    try apply keeps_arrays_refl.
  eapply keeps_arrays_trans; [apply write_layer_keeps, Hf | apply IH].
Qed.

Lemma written_keeps c h h' : f32_idem -> written c h h' -> keeps_arrays h h'.
Proof.
  intros Hf. induction 1 as [h|h cs h' _ IH]; [apply keeps_arrays_refl|].
  eapply keeps_arrays_trans; [apply write_chain_keeps, Hf | exact IH].
Qed.

Lemma written_other c h h' a :
  written c h h' -> a ∉ chain_addrs c -> h' !! a = h !! a.
Proof.
  induction 1 as [h|h cs h' _ IH]; intros Ha; [reflexivity|].
  rewrite IH by exact Ha. apply write_chain_other. exact Ha.
Qed.

Lemma written_trans c h1 h2 h3 : written c h1 h2 -> written c h2 h3 -> written c h1 h3.
Proof.
  induction 1 as [h|h cs h' _ IH]; intros H23; [exact H23|].
  eapply written_step. apply IH. exact H23.
Qed.

Lemma call_train_written fs ls ns bs alpha lamb n w o n1 w1 :
  call_train fs ls ns bs alpha lamb (n, w) = (o, (n1, w1)) ->
  n1 = n /\ written (chain n) (heap w) (heap w1).
Proof.
  unfold call_train, bind, c_int.
  destruct (in_int (Z.of_nat ns));
    [|intros Hc; inversion Hc; subst; split; [reflexivity|apply written_refl]].
  destruct (in_int bs);
    [|intros Hc; inversion Hc; subst; split; [reflexivity|apply written_refl]].
  unfold ret, modify. rewrite c_view_eq.
  destruct (view_of (n, w)) as [cs|] eqn:Ev; intros Hc; inversion Hc; subst; clear Hc.
  - split; [reflexivity|]. cbn [heap].
    rewrite core_writes_chain by (eapply view_of_deref; exact Ev).
    eapply written_step. apply written_refl.
  - split; [reflexivity|apply written_refl].
Qed.

Lemma train_epoch_written features labels bs alpha lamb n w o n1 w1 :
  train_epoch features labels bs alpha lamb (n, w) = (o, (n1, w1)) ->
  n1 = n /\ written (chain n) (heap w) (heap w1).
Proof.
  unfold train_epoch. munfold. intros He.
  destruct (heap w !! features) as [F|];
    [|inversion He; subst; split; [reflexivity|apply written_refl]].
  destruct (shape F !! 0%nat) as [fr|];
    [|inversion He; subst; split; [reflexivity|apply written_refl]].
  unfold np_random_permutation in He.
  destruct (permutation fr (rng w)) as [idx g].
  set (w0 := {| heap := heap w; rng := g; trace := trace w |}) in *.
  destruct (take_rows F idx (n, w0)) as [[F1|e] s1] eqn:E1;
    pose proof (take_rows_state _ _ _ _ _ E1) as ->;
    [|inversion He; subst; split; [reflexivity|apply written_refl]].
  cbn [heap w0] in He.
  destruct (heap w !! labels) as [L|];
    [|inversion He; subst; split; [reflexivity|apply written_refl]].
  destruct (take_rows L idx (n, w0)) as [[L1|e] s1] eqn:E2;
    pose proof (take_rows_state _ _ _ _ _ E2) as ->;
    [|inversion He; subst; split; [reflexivity|apply written_refl]].
  apply call_train_written in He. exact He.
Qed.

Lemma train_loop_written features labels bs lamb decay iters :
  forall alpha n w o n1 w1,
  train_loop iters features labels bs alpha lamb decay (n, w) = (o, (n1, w1)) ->
  n1 = n /\ written (chain n) (heap w) (heap w1).
Proof.
  induction iters as [|k IH]; intros alpha n w o n1 w1 Hl.
  - simpl in Hl. inversion Hl; subst. split; [reflexivity|apply written_refl].
  - simpl in Hl. unfold bind at 1 in Hl.
    destruct (train_epoch features labels bs alpha lamb (n, w)) as [[[]|e] [n2 w2]] eqn:Ee;
      apply train_epoch_written in Ee as [-> Hw].
    + apply IH in Hl as [-> Hw2]. split; [reflexivity|].
      eapply written_trans; eassumption.
    + inversion Hl; subst. split; [reflexivity|exact Hw].
Qed.

(** What [train] does in general: either it fails an assert and changes
    nothing, or it takes the batch size over and then only writes, through
    the core, into the arrays of the chain. *)
Lemma train_cases features labels max_iter bs alpha lamb decay n w o n1 w1 :
  train features labels max_iter bs alpha lamb decay (n, w) = (o, (n1, w1)) ->
  (n1 = n /\ w1 = w /\ o <> Ok tt) \/
  (0 < bs /\ n1 = net_after bs n w /\
   written (chain n1) (heap (world_after bs n w)) (heap w1)).
Proof.
  unfold train. munfold. intros Ht.
  destruct (heap w !! features) as [F|]; [|inversion Ht; left; done].
  destruct (heap w !! labels) as [L|]; [|inversion Ht; left; done].
  destruct (shape F !! 0%nat) as [f0|]; [|inversion Ht; left; done].
  destruct (shape L !! 0%nat) as [l0|]; [|inversion Ht; left; done].
  destruct (Nat.eqb f0 l0); [|inversion Ht; left; done].
  destruct (shape F !! 1%nat) as [f1|]; [|inversion Ht; left; done].
  cbn [fst] in Ht.
  destruct (Nat.eqb f1 (n_features n)); [|inversion Ht; left; done].
  destruct (shape L !! 1%nat) as [l1|]; [|inversion Ht; left; done].
  destruct (Nat.eqb l1 (n_labels n)); [|inversion Ht; left; done].
  destruct (Z.ltb_spec 0 bs) as [Hbs|_]; [|inversion Ht; left; done].
  unfold net_after, world_after.
  destruct (Z.eqb_spec bs (batch_size n)) as [Heq|Hne]; simpl in Ht.
  - right. split; [exact Hbs|]. apply train_loop_written in Ht as [-> Hw]. auto.
  - destruct (Z.lt_ge_cases bs 2147483648) as [Hlt|Hge].
    + right. split; [exact Hbs|]. rewrite set_batch_ok in Ht by lia.
      apply train_loop_written in Ht as [-> Hw]. auto.
    + rewrite set_batch_overflow in Ht by lia. inversion Ht. left. done.
Qed.

Lemma written_shape_eq c h h' : written c h h' -> shape_eq h h'.
Proof.
  induction 1 as [h|h cs h' _ IH]; [apply shape_eq_refl|].
  eapply shape_eq_trans; [apply write_chain_shape_eq | exact IH].
Qed.

(** X6: whatever its outcome, [train] leaves the network's sizes and the
    arrays [get_params] returns the same objects (the core trains them in
    place), and every array of the store keeps its shape.  When it returns
    normally, the network's batch size is the one that was passed. *)
Theorem train_keeps_objects features labels max_iter bs alpha lamb decay n w o n' w' :
  train features labels max_iter bs alpha lamb decay (n, w) = (o, (n', w')) ->
  get_params n' = get_params n /\ layers n' = layers n /\
  n_features n' = n_features n /\ n_labels n' = n_labels n /\
  (forall a x, heap w !! a = Some x ->
     exists y, heap w' !! a = Some y /\ shape y = shape x) /\
  (o = Ok tt -> batch_size n' = bs).
Proof.
  intros Ht. apply train_cases in Ht as [(-> & -> & Ho)|(Hbs & -> & Hw)].
  - repeat split; try reflexivity.
    + intros a x Hx. exists x. auto.
    + intros ->. contradiction.
  - split; [apply net_after_params|].
    split; [unfold net_after; destruct (bs =? batch_size n); reflexivity|].
    split; [unfold net_after; destruct (bs =? batch_size n); reflexivity|].
    split; [unfold net_after; destruct (bs =? batch_size n); reflexivity|].
    split; [|intros _; apply net_after_batch].
    intros a x Hx. apply (world_after_keeps bs n w) in Hx.
    apply (shape_eq_lookup _ _ _ _ (written_shape_eq _ _ _ Hw) Hx).
Qed.

(** ** The invariant is kept *)

Lemma keeps_arrays_is_Some h h' a :
  keeps_arrays h h' -> is_Some (h !! a) -> is_Some (h' !! a).
Proof. intros [_ Hk] [x Hx]. destruct (Hk a x Hx) as (y & Hy & _). eauto. Qed.

Lemma deref_layer_keeps h h' l :
  keeps_arrays h h' -> is_Some (deref_layer h l) -> is_Some (deref_layer h' l).
Proof.
  intros Hk. rewrite !deref_layer_is_Some. intros (Hb & Ht & Ha & Hd).
  repeat split; try (eapply keeps_arrays_is_Some; eassumption).
  - destruct (act l); simpl in *; [eapply keeps_arrays_is_Some; eassumption | exact Ha].
  - destruct (delta l); simpl in *; [eapply keeps_arrays_is_Some; eassumption | exact Hd].
Qed.

Lemma params_ok_keeps h h' l : keeps_arrays h h' -> params_ok h l -> params_ok h' l.
Proof.
  intros [_ Hk] (b & t & Hb & Ht & [Sb St] & Fb & Ft).
  destruct (Hk _ _ Hb) as (b' & Hb' & Sb' & Fb').
  destruct (Hk _ _ Ht) as (t' & Ht' & St' & Ft').
  exists b', t'. split; [exact Hb'|]. split; [exact Ht'|].
  split; [|auto]. unfold sized_for, np_size in *. simpl in *.
  rewrite Sb', St'. auto.
Qed.

Lemma wf_net_keeps n w w' :
  keeps_arrays (heap w) (heap w') -> wf_net (n, w) -> wf_net (n, w').
Proof.
  intros Hk Hwf. constructor; simpl.
  - destruct (wf_ready _ Hwf) as [Hne Hd]. split; [exact Hne|]. simpl in *.
    unfold deref_chain in *. rewrite mapM_is_Some in *.
    eapply Forall_impl; [exact Hd|]. intros l. apply deref_layer_keeps, Hk.
  - exact (wf_separate _ Hwf).
  - eapply Forall_impl; [exact (wf_params _ Hwf)|]. intros l. apply params_ok_keeps, Hk.
  - exact (wf_dims _ Hwf).
  - exact (wf_features _ Hwf).
  - exact (wf_labels _ Hwf).
  - exact (wf_batch _ Hwf).
  - exact (wf_len _ Hwf).
  - exact (wf_int _ Hwf).
Qed.

Lemma keeps_arrays_app_params h e l : params_ok h l -> params_ok (h ++ e) l.
Proof.
  intros (b & t & Hb & Ht & Hrest). exists b, t.
  split; [apply lookup_app_l_Some, Hb|]. split; [apply lookup_app_l_Some, Ht|]. exact Hrest.
Qed.

Lemma wf_net_rebuf bs n w :
  0 < bs -> wf_net (n, w) ->
  wf_net (with_batch bs (rebuf (length (heap w)) (chain n)) n,
          set_heap (heap w ++ zero_bufs bs (chain n)) w).
Proof.
  intros Hbs Hwf. constructor; simpl.
  - apply ready_set_batch. exact (wf_ready _ Hwf).
  - unfold separate. simpl.
    apply separate_rebuf; [exact (wf_ready _ Hwf) | exact (wf_separate _ Hwf)].
  - apply Forall_rebuf.
    + intros l a d (b & t & Hb & Ht & Hrest). exists b, t. simpl. auto.
    + eapply Forall_impl; [exact (wf_params _ Hwf)|]. intros l.
      apply keeps_arrays_app_params.
  - rewrite rebuf_dims. exact (wf_dims _ Hwf).
  - exact (wf_features _ Hwf).
  - exact (wf_labels _ Hwf).
  - exact Hbs.
  - exact (wf_len _ Hwf).
  - exact (wf_int _ Hwf).
Qed.

Lemma wf_net_after bs n w :
  0 < bs -> wf_net (n, w) -> wf_net (net_after bs n w, world_after bs n w).
Proof.
  intros Hbs Hwf. unfold net_after, world_after.
  destruct (bs =? batch_size n); [exact Hwf | apply wf_net_rebuf; assumption].
Qed.

(** X7: [train] keeps the network as the wrapper keeps it, whether it
    returns or raises: afterwards every layer still has its four arrays in
    the store, all distinct, the parameters are float32 arrays of the
    layer's sizes, the layer sizes follow the list of sizes and the batch
    size is positive. *)
Theorem train_keeps_wf features labels max_iter bs alpha lamb decay n w o n' w' :
  f32_idem -> wf_net (n, w) ->
  train features labels max_iter bs alpha lamb decay (n, w) = (o, (n', w')) ->
  wf_net (n', w').
Proof.
  intros Hf Hwf Ht. apply train_cases in Ht as [(-> & -> & _)|(Hbs & -> & Hw)];
    [exact Hwf|].
  apply (wf_net_keeps _ (world_after bs n w)).
  - apply (written_keeps _ _ _ Hf Hw).
  - apply wf_net_after; assumption.
Qed.

(** X8: [predict_prob] keeps the network as the wrapper keeps it, whether
    it returns or raises, and never touches the network object, the random
    generator or the record of training calls: it only writes, through the
    core, into the arrays of the chain. *)
Theorem predict_prob_keeps_wf features n w o n' w' :
  f32_idem -> wf_net (n, w) ->
  predict_prob features (n, w) = (o, (n', w')) ->
  wf_net (n', w') /\ n' = n /\ rng w' = rng w /\ trace w' = trace w /\
  (forall a, a ∉ chain_addrs (chain n) -> heap w' !! a = heap w !! a).
Proof.
  intros Hf Hwf. rewrite predict_prob_pure.
  destruct (predict_pure _ _ _ _ _) as [[p cs']|e]; intros Hp; inversion Hp; subst.
  - split; [|split; [reflexivity|]].
    + apply (wf_net_keeps _ w); [|exact Hwf]. simpl. apply write_chain_keeps, Hf.
    + split; [reflexivity|]. split; [reflexivity|].
      intros a Ha. simpl. apply write_chain_other, Ha.
  - split; [exact Hwf|]. split; [reflexivity|]. split; [reflexivity|].
    split; reflexivity.
Qed.

(** X9: [set_batch] with a positive batch size that fits a C int succeeds
    and keeps the network as the wrapper keeps it. *)
Theorem set_batch_keeps_wf bs n w :
  0 < bs < 2147483648 -> wf_net (n, w) ->
  exists n' w', set_batch bs (n, w) = (Ok tt, (n', w')) /\ wf_net (n', w').
Proof.
  intros Hbs Hwf. eexists _, _. split; [apply set_batch_ok; lia|].
  apply wf_net_rebuf; [lia|exact Hwf].
Qed.

(** ** predict_prob *)


(** ** __init__ *)

(** X11: a network [__init__] returns is as the wrapper keeps it: every
    layer has its four arrays in the store, no array is held twice, the
    parameters are float32 arrays with [out_nodes] and
    [out_nodes * in_nodes] elements, the layer sizes follow the list of
    sizes, and the batch size is positive. *)
Theorem init_establishes_wf ls w n w' :
  f32_idem -> NeuralNet_init ls w = (Ok n, w') -> wf_net (n, w').
Proof. intros Hf Hi. exact (NeuralNet_init_wf ls w n w' Hf Hi). Qed.

(** ** set_params, layer by layer *)

Lemma layer_set_params_cases b t l w :
  (exists barr tarr,
     heap w !! b = Some barr /\ heap w !! t = Some tarr /\ sized_for l (barr, tarr) /\
     layer_set_params b t (l, w) =
       (Ok tt, ({| bias := length (heap w); theta := S (length (heap w));
                   act := act l; delta := delta l;
                   in_nodes := in_nodes l; out_nodes := out_nodes l |},
                set_heap (heap w ++ [copy_astype_f32 barr; copy_astype_f32 tarr]) w))) \/
  (exists e, layer_set_params b t (l, w) = (Raise e, (l, w))).
Proof.
  destruct (heap w !! b) as [barr|] eqn:Eb.
  2:{ right. exists TypeError. unfold layer_set_params. munfold. simpl.
      rewrite Eb. reflexivity. }
  destruct (heap w !! t) as [tarr|] eqn:Et.
  2:{ right. unfold layer_set_params. munfold. simpl. rewrite Eb.
      destruct (Nat.eqb _ _); simpl; [|eauto]. rewrite Et. eauto. }
  destruct (decide (np_size barr = out_nodes l)) as [Sb|Sb].
  2:{ right. exists AssertionError. apply (layer_set_params_bad l w b t barr tarr Eb Et). auto. }
  destruct (decide (np_size tarr = (out_nodes l * in_nodes l)%nat)) as [St|St].
  2:{ right. exists AssertionError. apply (layer_set_params_bad l w b t barr tarr Eb Et). auto. }
  left. exists barr, tarr. split; [reflexivity|]. split; [reflexivity|].
  split; [split; assumption|].
  apply layer_set_params_ok; assumption.
Qed.

(** The arrays [vs] are those the pairs of [ps] from index [i] on name. *)
Definition named (h : list ndarray) (ps : list (addr * addr)) (i : nat)
    (vs : list (ndarray * ndarray)) : Prop :=
  forall j v, vs !! j = Some v ->
    exists b t, ps !! (i + j)%nat = Some (b, t) /\
                h !! b = Some (fst v) /\ h !! t = Some (snd v).

(** Whatever the outcome, the loop of [set_params] has replaced the
    parameters of a first stretch of layers, all of them if it succeeded,
    and left the others alone. *)
Lemma each_layer_set_params_prefix ps c : forall i w o c' w',
  each_layer (set_params_body ps) i c w = (o, (c', w')) ->
  exists k vs,
    (k <= length c)%nat /\ length vs = k /\
    c' = readdr (length (heap w)) (take k c) ++ drop k c /\
    w' = set_heap (heap w ++ copies vs) w /\
    Forall2 sized_for (take k c) vs /\ named (heap w') ps i vs /\
    (o = Ok tt -> k = length c) /\ (o <> Ok tt -> (k < length c)%nat).
Proof.
  induction c as [|l c IH]; intros i w o c' w' He.
  - simpl in He. inversion He; subst. exists 0%nat, []. simpl.
    rewrite app_nil_r. split; [lia|]. split; [reflexivity|]. split; [reflexivity|].
    split; [destruct w'; reflexivity|]. split; [constructor|].
    split; [intros j v Hj; discriminate|]. split; [reflexivity|]. intros Ho. done.
  - cbn [each_layer] in He.
    assert (Hfail : forall e, set_params_body ps i (l, w) = (Raise e, (l, w)) ->
      exists k vs,
        (k <= length (l :: c))%nat /\ length vs = k /\
        c' = readdr (length (heap w)) (take k (l :: c)) ++ drop k (l :: c) /\
        w' = set_heap (heap w ++ copies vs) w /\
        Forall2 sized_for (take k (l :: c)) vs /\ named (heap w') ps i vs /\
        (o = Ok tt -> k = length (l :: c)) /\ (o <> Ok tt -> (k < length (l :: c))%nat)).
    { intros e Hb. rewrite Hb in He. inversion He; subst.
      exists 0%nat, []. simpl. rewrite app_nil_r.
      split; [lia|]. split; [reflexivity|]. split; [reflexivity|].
      split; [destruct w'; reflexivity|]. split; [constructor|].
      split; [intros j v Hj; discriminate|]. split; [discriminate|]. intros _. lia. }
    unfold set_params_body at 1, index, bind at 1 in He.
    destruct (ps !! i) as [[b t]|] eqn:Ep.
    2:{ apply (Hfail IndexError). unfold set_params_body, index, bind. rewrite Ep. reflexivity. }
    unfold ret at 1 in He. cbn [fst snd] in He.
    destruct (layer_set_params_cases b t l w)
      as [(barr & tarr & Hb & Ht & Hsz & Hok)|[e Hbad]].
    2:{ apply (Hfail e). unfold set_params_body, index, bind. rewrite Ep.
        unfold ret. cbn [fst snd]. exact Hbad. }
    clear Hfail. rewrite Hok in He.
    destruct (each_layer (set_params_body ps) (S i) c
                (set_heap (heap w ++ [copy_astype_f32 barr; copy_astype_f32 tarr]) w))
      as [r [c2 w2]] eqn:E2.
    inversion He; subst; clear He.
    apply IH in E2 as (k & vs & Hk & Hlen & -> & -> & Hsz2 & Hnamed & Hok2 & Hbad2).
    exists (S k), ((barr, tarr) :: vs). cbn [heap set_heap] in *.
    rewrite length_app in *. simpl length in *.
    replace (length (heap w) + 2)%nat with (S (S (length (heap w)))) in * by lia.
    split; [lia|]. split; [simpl; lia|]. split; [reflexivity|].
    split; [unfold set_heap; simpl; rewrite <- app_assoc; reflexivity|].
    split; [constructor; assumption|].
    split.
    { intros [|j] v Hj; simpl in Hj.
      - inversion Hj; subst. exists b, t. rewrite Nat.add_0_r.
        split; [exact Ep|]. simpl.
        rewrite <- app_assoc.
        split; apply lookup_app_l_Some; assumption.
      - destruct (Hnamed j v Hj) as (b' & t' & Hp' & Hb' & Ht').
        exists b', t'. replace (i + S j)%nat with (S i + j)%nat by lia.
        split; [exact Hp'|]. simpl in *. auto. }
    split; [intros Ho; rewrite (Hok2 Ho); reflexivity|].
    intros Ho. specialize (Hbad2 Ho). lia.
Qed.

Lemma set_params_cases ps n w o n' w' :
  set_params ps (n, w) = (o, (n', w')) ->
  (length ps <> length (layers n) /\ o = Raise AssertionError /\ n' = n /\ w' = w) \/
  (length ps = length (layers n) /\
   exists k vs,
     (k <= length (chain n))%nat /\ length vs = k /\
     n' = set_chain (readdr (length (heap w)) (take k (chain n)) ++ drop k (chain n)) n /\
     w' = set_heap (heap w ++ copies vs) w /\
     Forall2 sized_for (take k (chain n)) vs /\ named (heap w') ps 0 vs /\
     (o = Ok tt -> k = length (chain n)) /\ (o <> Ok tt -> (k < length (chain n))%nat)).
Proof.
  unfold set_params.
  change (fun i : nat => let* p := index ps i in layer_set_params (fst p) (snd p))
    with (set_params_body ps).
  unfold for_chain. munfold. cbn [fst]. intros Hs.
  destruct (Nat.eqb_spec (length ps) (length (layers n))) as [Hlen|Hlen].
  - right. split; [exact Hlen|].
    destruct (each_layer (set_params_body ps) 0 (chain n) w) as [r [c' w1]] eqn:E.
    inversion Hs; subst; clear Hs.
    apply each_layer_set_params_prefix in E
      as (k & vs & Hk & Hl & -> & -> & Hsz & Hnamed & Hok & Hbad).
    exists k, vs. auto 10.
  - left. inversion Hs; subst. auto.
Qed.



(** X13: after a successful [set_params(ps)], [get_params()] returns one
    pair of new arrays per layer, and pair [j] holds the float32 copies,
    shapes kept, of the two arrays that pair [j] of [ps] names, which are
    themselves still in the store as they were. *)
Theorem get_params_after_set_params ps n w n' w' :
  set_params ps (n, w) = (Ok tt, (n', w')) ->
  length (get_params n') = length (chain n) /\
  forall j b' t', get_params n' !! j = Some (b', t') ->
    exists b t barr tarr,
      ps !! j = Some (b, t) /\
      heap w' !! b = Some barr /\ heap w' !! t = Some tarr /\
      heap w' !! b' = Some (copy_astype_f32 barr) /\
      heap w' !! t' = Some (copy_astype_f32 tarr) /\
      (length (heap w) <= b')%nat /\ (length (heap w) <= t')%nat.
Proof.
  intros Hs. apply set_params_cases in Hs as [(_ & Ho & _)|(Hlen & k & vs & Hk & Hl & -> & -> & Hsz & Hnamed & Hok & _)];
    [discriminate|].
  specialize (Hok eq_refl). rewrite Hok in *. clear Hok Hk.
  rewrite firstn_all in Hsz. rewrite firstn_all, drop_all, app_nil_r.
  unfold get_params. cbn [fst snd chain set_chain heap set_heap] in *.
  split; [rewrite length_fmap, length_readdr; reflexivity|].
  intros j b' t' Hj. rewrite list_lookup_fmap in Hj.
  destruct (readdr (length (heap w)) (chain n) !! j) as [l'|] eqn:El; [|discriminate].
  inversion Hj; subst b' t'; clear Hj.
  pose proof (held_readdr (chain n) vs (heap w) [] (eq_sym Hl)) as Hh.
  rewrite app_nil_r in Hh.
  destruct (Forall2_lookup_l _ _ _ _ _ Hh El) as (cv & Hcv & Hb' & Ht').
  rewrite list_lookup_fmap in Hcv.
  destruct (vs !! j) as [v|] eqn:Ev; [|discriminate]. inversion Hcv; subst cv; clear Hcv.
  destruct (Hnamed j v Ev) as (b & t & Hp & Hb & Ht). simpl in Hp.
  exists b, t, (fst v), (snd v).
  split; [exact Hp|]. split; [exact Hb|]. split; [exact Ht|].
  split; [exact Hb'|]. split; [exact Ht'|].
  assert (Hin : bias l' ∈ param_addrs (readdr (length (heap w)) (chain n)) /\
                theta l' ∈ param_addrs (readdr (length (heap w)) (chain n))).
  { clear -El. revert j El. generalize (length (heap w)).
    induction (chain n) as [|l0 c IH]; intros L j El; [discriminate|].
    destruct j as [|j]; simpl in *.
    - inversion El; subst. simpl. split; [left | right; left].
    - destruct (IH _ _ El) as [Hb Ht]. split; right; right; assumption. }
  rewrite param_addrs_readdr in Hin. destruct Hin as [Hib Hit].
  apply elem_of_seq in Hib, Hit. lia.
Qed.

(** ** set_params keeps the invariant *)







(** ** loads *)

#[local] Instance sized_for_dec l v : Decision (sized_for l v).
Proof.
  unfold sized_for, Decision.
  destruct (decide (np_size (fst v) = out_nodes l)) as [Sb|Sb]; [|right; tauto].
  destruct (decide (np_size (snd v) = (out_nodes l * in_nodes l)%nat)) as [St|St];
    [left; auto | right; tauto].
Qed.






(** ** The shuffle of an epoch *)

(** Example [i] of a C-ordered array: its [i]-th row, flattened. *)
Definition sample (a : ndarray) (i : nat) : list V :=
  take (prod_list (tail (shape a))) (drop (i * prod_list (tail (shape a))) (data a)).

(** The buffer of an array has as many elements as its shape says. *)
Definition full (a : ndarray) : Prop := length (data a) = np_size a.

Lemma length_sample a r rest i :
  shape a = r :: rest -> full a -> (i < r)%nat ->
  length (sample a i) = prod_list rest.
Proof.
  unfold sample, full, np_size. intros -> Hfull Hi. simpl in *.
  rewrite length_take, length_drop, Hfull. nia.
Qed.

Lemma length_concat_uniform (c : nat) (rs : list (list V)) :
  Forall (fun r => length r = c) rs -> length (concat rs) = (length rs * c)%nat.
Proof.
  induction 1 as [|r rs Hr _ IH]; simpl; [reflexivity|]. rewrite length_app, IH, Hr. reflexivity.
Qed.

Lemma nth_chunk (c : nat) (rs : list (list V)) : forall j r,
  Forall (fun r => length r = c) rs -> rs !! j = Some r ->
  take c (drop (j * c) (concat rs)) = r.
Proof.
  induction rs as [|r0 rs IH]; intros j r Hall Hj; [discriminate|].
  inversion Hall as [|? ? Hr0 Hrs]; subst. destruct j as [|j]; simpl in *.
  - inversion Hj; subst. apply take_app_length.
  - rewrite drop_app_add' by reflexivity. apply IH; assumption.
Qed.

(** X17: the shuffle of an epoch keeps every example with its label.  With
    [idx] the permutation drawn for the epoch, the trainer is called on two
    buffers of [features.shape[0]] samples each, every element converted to
    float32; sample [j] of the first is example [idx[j]] of [features],
    sample [j] of the second is the label row of that same example, and
    [idx] lists every example once. *)
Theorem train_epoch_shuffles_pairs features labels bs alpha lamb n w F L fr fs ls :
  permutation_ok ->
  heap w !! features = Some F -> heap w !! labels = Some L ->
  shape F = fr :: fs -> shape L = fr :: ls -> full F -> full L ->
  exists xs ys,
    let idx := fst (permutation fr (rng w)) in
    train_epoch features labels bs alpha lamb (n, w) =
      call_train (f32 <$> xs) (f32 <$> ys) fr bs alpha lamb
        (n, {| heap := heap w; rng := snd (permutation fr (rng w)); trace := trace w |}) /\
    idx ≡ₚ seq 0 fr /\
    length xs = (fr * prod_list fs)%nat /\ length ys = (fr * prod_list ls)%nat /\
    forall j i, idx !! j = Some i ->
      take (prod_list fs) (drop (j * prod_list fs) xs) = sample F i /\
      take (prod_list ls) (drop (j * prod_list ls) ys) = sample L i.
Proof.
  intros Hp HF HL SF SL FF FL.
  pose proof (permutation_in_range fr (rng w) Hp) as Hidx.
  pose proof (Hp fr (rng w)) as Hperm.
  set (idx := fst (permutation fr (rng w))) in *.
  exists (concat (sample F <$> idx)), (concat (sample L <$> idx)).
  assert (HrF : Forall (fun r => length r = prod_list fs) (sample F <$> idx)).
  { apply Forall_fmap. eapply Forall_impl; [exact Hidx|]. simpl.
    intros i Hi. apply (length_sample F fr fs i SF FF Hi). }
  assert (HrL : Forall (fun r => length r = prod_list ls) (sample L <$> idx)).
  { apply Forall_fmap. eapply Forall_impl; [exact Hidx|]. simpl.
    intros i Hi. apply (length_sample L fr ls i SL FL Hi). }
  assert (Hlen : length idx = fr).
  { rewrite Hperm. apply length_seq. }
  cbv zeta. split; [|split; [exact Hperm|split; [|split]]].
  - unfold train_epoch. munfold. simpl. rewrite HF, SF. simpl.
    unfold np_random_permutation. subst idx.
    destruct (permutation fr (rng w)) as [idx g] eqn:Eperm. simpl in *.
    unfold take_rows. rewrite SF.
    assert (forallb (fun i => i <? fr)%nat idx = true) as ->.
    { apply forallb_forall. intros x Hx. apply Nat.ltb_lt.
      rewrite Forall_forall in Hidx. apply Hidx. apply list_elem_of_In. assumption. }
    unfold ret. cbn [heap]. rewrite HL, SL.
    assert (forallb (fun i => i <? fr)%nat idx = true) as ->.
    { apply forallb_forall. intros x Hx. apply Nat.ltb_lt.
      rewrite Forall_forall in Hidx. apply Hidx. apply list_elem_of_In. assumption. }
    unfold sample. rewrite SF, SL. reflexivity.
  - rewrite (length_concat_uniform _ _ HrF), length_fmap, Hlen. reflexivity.
  - rewrite (length_concat_uniform _ _ HrL), length_fmap, Hlen. reflexivity.
  - intros j i Hj. split; apply nth_chunk; try assumption;
      rewrite list_lookup_fmap, Hj; reflexivity.
Qed.

(** ** predict_label *)

(** X18: [predict_label] runs [predict_prob] first, so it rejects what
    [predict_prob] rejects, with the same exception and the same state.  On
    a network without labels (a last size of 0) it raises ValueError after
    the core has run, since no row has a greatest entry.  Otherwise it
    answers one label below [n_labels] for every row of [features]. *)
Theorem predict_label_outcome features n w :
  (forall e s', predict_prob features (n, w) = (Raise e, s') ->
     predict_label features (n, w) = (Raise e, s')) /\
  (forall p s', predict_prob features (n, w) = (Ok p, s') -> n_labels n = 0%nat ->
     predict_label features (n, w) = (Raise ValueError, s')) /\
  (forall p s' F r, predict_prob features (n, w) = (Ok p, s') -> n_labels n <> 0%nat ->
     heap w !! features = Some F -> shape F !! 0%nat = Some r ->
     exists labels,
       predict_label features (n, w) = (Ok labels, s') /\ length labels = r /\
       Forall (fun j => j < n_labels n)%nat labels).
Proof.
  split; [|split].
  - intros e s' Hp. unfold predict_label, bind. rewrite Hp. reflexivity.
  - intros p s' Hp Hz.
    destruct (predict_prob_shape _ _ _ _ _ Hp) as (F & r & _ & _ & _ & Hs & _).
    unfold predict_label, bind. rewrite Hp. unfold np_argmax_axis1. rewrite Hs, Hz.
    reflexivity.
  - intros p s' F r Hp Hnz HF Hr.
    destruct (predict_prob_shape _ _ _ _ _ Hp) as (F' & r' & HF' & Hr' & _ & Hs & Hlen).
    assert (F' = F) as -> by congruence. assert (r' = r) as -> by congruence.
    exists (argmax <$> rows_of r (n_labels n) (data p)).
    split; [|split].
    + unfold predict_label, bind. rewrite Hp. unfold np_argmax_axis1. rewrite Hs.
      destruct (Nat.eqb_spec (n_labels n) 0) as [E|_]; [contradiction|]. reflexivity.
    + rewrite length_fmap. apply length_rows_of.
    + apply Forall_fmap.
      eapply Forall_impl; [exact (rows_of_length r (n_labels n) (data p) Hlen)|].
      simpl. intros row Hrow. rewrite <- Hrow. apply argmax_lt.
      intros ->. simpl in Hrow. lia.
Qed.

(** ** The batch size and the answers *)

Lemma held_rebuf h c : forall L vs,
  Forall2 (held h) c vs -> Forall2 (held h) (rebuf L c) vs.
Proof.
  induction c as [|l c IH]; intros L vs Hh; inversion Hh; subst; simpl;
    constructor; [assumption|apply IH; assumption].
Qed.

(** X19: where the forward pass of the core reads the parameters only,
    [set_batch] with a positive batch size that fits a C int does not
    change what [predict_prob] answers for any array that was in the
    store. *)
Theorem set_batch_keeps_predictions bs n w :
  core_params_only -> wf_net (n, w) -> 0 < bs < 2147483648 ->
  exists n' w',
    set_batch bs (n, w) = (Ok tt, (n', w')) /\
    forall f, (f < length (heap w))%nat ->
      fst (predict_prob f (n', w')) = fst (predict_prob f (n, w)).
Proof.
  intros Hcore Hwf Hbs. eexists _, _. split; [apply set_batch_ok; lia|].
  intros f Hf. rewrite !predict_prob_answer.
  pose proof (ready_set_batch bs n w (wf_ready _ Hwf)) as Hr'.
  destruct (view_of_ready _ Hr') as (cs' & -> & Hcs').
  destruct (view_of_ready _ (wf_ready _ Hwf)) as (cs & -> & Hcs).
  cbn [fst snd heap set_heap chain with_batch set_chain n_features n_labels batch_size]
    in *.
  rewrite (lookup_app_l _ _ _ Hf).
  apply predict_pure_params; [exact Hcore| |lia|exact (wf_batch _ Hwf)].
  destruct (params_ok_values _ _ (wf_params _ Hwf)) as (vs & Hheld & _ & _).
  cbn [fst snd] in Hheld.
  apply deref_chain_params in Hcs'.
  apply (deref_chain_app _ (zero_bufs bs (chain n))) in Hcs.
  assert (H1 : Forall2 (held (heap w ++ zero_bufs bs (chain n)))
                 (rebuf (length (heap w)) (chain n)) vs)
    by (apply held_rebuf, Forall2_held_app, Hheld).
  assert (H2 : Forall2 (held (heap w ++ zero_bufs bs (chain n))) (chain n) vs)
    by (apply Forall2_held_app, Hheld).
  rewrite (deref_params_held _ _ _ vs H1 H2 (rebuf_dims _ _)) in Hcs'.
  apply deref_chain_params in Hcs. congruence.
Qed.

(** ** random_init on a network in use *)

Lemma fresh_chain_no_buffers ls : forall L,
  Forall (fun l => act l = None /\ delta l = None) (fresh_chain L ls).
Proof. induction ls as [|k ls IH]; intros L; simpl; constructor; auto. Qed.

(** X20: [random_init] called on a network in use (at least two sizes, all
    of them fitting a C int) gives every layer two new parameter arrays,
    the old ones left in the store as they were, and no layer any [act] or
    [delta] buffer, while the network keeps its batch size: a later [train]
    with that batch size does not call [set_batch], so the network is not
    one the core can be called on until [set_batch] is, with a batch size
    that is not negative and fits a C int. *)
Theorem random_init_drops_buffers n w :
  (2 <= length (layers n))%nat -> Forall fits (layers n) ->
  exists n' w' new,
    random_init (n, w) = (Ok tt, (n', w')) /\
    layers n' = layers n /\ batch_size n' = batch_size n /\
    layer_dims <$> chain n' = dims (layers n) /\
    Forall (fun l => act l = None /\ delta l = None) (chain n') /\
    param_addrs (chain n') = seq (length (heap w)) (2 * length (layers n)) /\
    heap w' = heap w ++ new /\ length new = (2 * length (layers n))%nat /\
    trace w' = trace w /\
    ~ ready (n', w') /\
    (forall bs, 0 <= bs < 2147483648 -> ready (snd (set_batch bs (n', w')))).
Proof.
  intros Hlen Hfit. unfold random_init. munfold. cbn [fst].
  destruct (layers n) as [|n0 [|n1 rest]] eqn:El; simpl in Hlen; try lia.
  cbn [lookup list_lookup]. rewrite <- El in *. rewrite build_chain_eq by exact Hfit.
  assert (Hc : match fresh_chain (length (heap w)) (layers n) with
               | [] => n
               | _ => set_chain (fresh_chain (length (heap w)) (layers n)) n
               end = set_chain (fresh_chain (length (heap w)) (layers n)) n).
  { rewrite El. reflexivity. }
  rewrite Hc. clear Hc.
  eexists _, _, _. split; [reflexivity|]. cbn [layers set_chain batch_size chain heap trace].
  split; [reflexivity|]. split; [reflexivity|].
  split; [apply fresh_chain_dims|].
  split; [apply fresh_chain_no_buffers|].
  split; [apply param_addrs_fresh|].
  split; [reflexivity|]. split; [apply length_init_arrays|]. split; [reflexivity|].
  split.
  - intros [_ [cs Hcs]]. cbn [fst snd chain set_chain heap] in Hcs.
    rewrite El in Hcs. simpl in Hcs.
    unfold deref_chain in Hcs. simpl in Hcs. unfold deref_layer in Hcs. simpl in Hcs.
    destruct (_ !! length (heap w)); simpl in Hcs; [|discriminate].
    destruct (_ !! S (length (heap w))); simpl in Hcs; discriminate.
  - intros bs Hbs. rewrite set_batch_ok by exact Hbs. cbn [snd].
    split; cbn [fst snd chain with_batch set_chain heap set_heap].
    + rewrite rebuf_nil. rewrite El. simpl. discriminate.
    + unfold deref_chain. rewrite mapM_is_Some.
      set (h := heap w ++ fst (init_arrays (layers n) (rng w))).
      pose proof (deref_rebuf h bs (fresh_chain (length (heap w)) (layers n)) []) as Hr.
      rewrite app_nil_r in Hr. apply Hr.
      pose proof (fresh_chain_params (layers n) (heap w) (rng w) []) as Hp.
      rewrite app_nil_r in Hp. eapply Forall_impl; [exact Hp|]. simpl.
      intros l (b & t & Hb & Ht & _). unfold h. rewrite Hb, Ht. split; eauto.
Qed.

(** ** Arrays made by the caller *)

(** Arrays the caller makes do not disturb a network. *)
Lemma wf_net_grown n w w' e :
  heap w' = heap w ++ e -> wf_net (n, w) -> wf_net (n, w').
Proof.
  intros Hh Hwf. constructor; cbn [fst snd].
  - destruct (wf_ready _ Hwf) as [Hne [cs Hcs]]. split; [exact Hne|].
    cbn [fst snd] in *. rewrite Hh. exists cs. apply deref_chain_app. exact Hcs.
  - exact (wf_separate _ Hwf).
  - rewrite Hh. eapply Forall_impl; [exact (wf_params _ Hwf)|].
    intros l. apply keeps_arrays_app_params.
  - exact (wf_dims _ Hwf).
  - exact (wf_features _ Hwf).
  - exact (wf_labels _ Hwf).
  - exact (wf_batch _ Hwf).
  - exact (wf_len _ Hwf).
  - exact (wf_int _ Hwf).
Qed.

End Lifecycle.

(** * The further properties on the concrete networks *)

Module LifecycleExamples.
Import Fixed.
Import Examples.

Lemma net1_wf2 : wf_net (net1, w2).
Proof. exact (wf_net_grown net1 w1 w2 [features1; labels1] eq_refl net1_wf). Qed.


Lemma init_chain_dimensions_witness :
  NeuralNet_init [2; 1]%nat w0 = (Ok net1, w1) /\
  (forall k l, chain net1 !! k = Some l ->
     [2; 1]%nat !! k = Some (in_nodes l) /\
     out_nodes l = default 0%nat ([2; 1]%nat !! S k)) /\
  (forall k l l', chain net1 !! k = Some l -> chain net1 !! S k = Some l' ->
     in_nodes l' = out_nodes l) /\
  (forall l, chain net1 !! 0%nat = Some l -> in_nodes l = n_features net1) /\
  (forall l, last (chain net1) = Some l ->
     in_nodes l = n_labels net1 /\ out_nodes l = 0%nat).
Proof.
  split; [exact net1_init|].
  exact (init_chain_dimensions [2; 1]%nat w0 net1 w1 net1_init).
Defined.

Lemma set_batch_reallocates_witness :
  0 <= 2 < 2147483648 /\
  exists n' w',
    set_batch 2 (net1, w1) = (Ok tt, (n', w')) /\
    batch_size n' = 2 /\ layers n' = layers net1 /\
    n_features n' = n_features net1 /\ n_labels n' = n_labels net1 /\
    get_params n' = get_params net1 /\
    layer_dims <$> chain n' = layer_dims <$> chain net1 /\
    (forall a x, heap w1 !! a = Some x -> heap w' !! a = Some x) /\
    Forall (fun l => exists a d,
              act l = Some a /\ delta l = Some d /\
              (length (heap w1) <= a)%nat /\ (length (heap w1) <= d)%nat /\
              heap w' !! a = Some (zeros_for 2 l) /\
              heap w' !! d = Some (zeros_for 2 l)) (chain n') /\
    NoDup (buffer_addrs (chain n')) /\
    rng w' = rng w1 /\ trace w' = trace w1.
Proof.
  assert (Hbs : 0 <= 2 < 2147483648) by lia.
  split; [exact Hbs|]. exact (set_batch_reallocates 2 net1 w1 Hbs).
Defined.

Definition head1 : NetLayer :=
  {| bias := 0; theta := 1; act := Some 4%nat; delta := Some 5%nat;
     in_nodes := 2; out_nodes := 1 |}.
Definition tail1 : NetLayer :=
  {| bias := 2; theta := 3; act := Some 6%nat; delta := Some 7%nat;
     in_nodes := 1; out_nodes := 0 |}.

Lemma set_batch_negative_witness :
  chain net1 = head1 :: [tail1] /\ in_nodes head1 <> 0%nat /\
  (-2147483648 <= -1 < 0 ->
     set_batch (-1) (net1, w1)
       = (Raise ValueError, (with_batch (-1) (chain net1) net1, w1))) /\
  (~ (-2147483648 <= -1 < 2147483648) ->
     set_batch (-1) (net1, w1) = (Raise OverflowError, (net1, w1))).
Proof.
  assert (Hin : in_nodes head1 <> 0%nat) by discriminate.
  split; [reflexivity|]. split; [exact Hin|].
  exact (set_batch_negative (-1) net1 w1 head1 [tail1] eq_refl Hin).
Defined.

Lemma train_no_epochs_witness :
  heap w2 !! 8%nat = Some features1 /\ heap w2 !! 9%nat = Some labels1 /\
  shape features1 = [3; 2]%nat /\ shape labels1 = [3; 1]%nat /\
  2%nat = n_features net1 /\ 1%nat = n_labels net1 /\ 0 < 2 < 2147483648 /\
  0 <= 0 /\
  exists n' w',
    train 8 9 0 2 32768 0 58982 (net1, w2) = (Ok tt, (n', w')) /\
    trace w' = trace w2 /\ rng w' = rng w2 /\
    get_params n' = get_params net1 /\ batch_size n' = 2 /\
    (forall a x, heap w2 !! a = Some x -> heap w' !! a = Some x) /\
    (2 = batch_size net1 -> n' = net1 /\ w' = w2).
Proof.
  assert (Hbs : 0 < 2 < 2147483648) by lia. assert (Hmax : 0 <= 0) by lia.
  split; [exact features1_at|]. split; [exact labels1_at|].
  split; [reflexivity|]. split; [reflexivity|].
  split; [reflexivity|]. split; [reflexivity|]. split; [exact Hbs|]. split; [exact Hmax|].
  exact (train_no_epochs 8 9 0 2 32768 0 58982 net1 w2 features1 labels1
           3 2 [] 1 [] features1_at labels1_at eq_refl eq_refl eq_refl eq_refl Hbs Hmax).
Defined.

(** One epoch at batch size 2 on the three examples. *)
Definition s6 : NeuralNet * world := snd (train 8 9 1 2 32768 0 65536 (net1, w2)).

Lemma train1 : train 8 9 1 2 32768 0 65536 (net1, w2) = (Ok tt, (fst s6, snd s6)).
Proof. reflexivity. Qed.

Lemma train_keeps_objects_witness :
  train 8 9 1 2 32768 0 65536 (net1, w2) = (Ok tt, (fst s6, snd s6)) /\
  get_params (fst s6) = get_params net1 /\ layers (fst s6) = layers net1 /\
  n_features (fst s6) = n_features net1 /\ n_labels (fst s6) = n_labels net1 /\
  (forall a x, heap w2 !! a = Some x ->
     exists y, heap (snd s6) !! a = Some y /\ shape y = shape x) /\
  (Ok tt = Ok tt -> batch_size (fst s6) = 2).
Proof.
  split; [exact train1|].
  exact (train_keeps_objects 8 9 1 2 32768 0 65536 net1 w2 (Ok tt) (fst s6) (snd s6) train1).
Defined.

Lemma train_keeps_wf_witness :
  f32_idem /\ wf_net (net1, w2) /\
  train 8 9 1 2 32768 0 65536 (net1, w2) = (Ok tt, (fst s6, snd s6)) /\
  wf_net (fst s6, snd s6).
Proof.
  split; [exact sat32_idem|]. split; [exact net1_wf2|]. split; [exact train1|].
  exact (train_keeps_wf 8 9 1 2 32768 0 65536 net1 w2 (Ok tt) (fst s6) (snd s6)
           sat32_idem net1_wf2 train1).
Defined.

Definition s8 : NeuralNet * world := snd (predict_prob 8 (net1, w2)).

Lemma predict1_state : predict_prob 8 (net1, w2) = (Ok preds1, (fst s8, snd s8)).
Proof. reflexivity. Qed.

Lemma predict_prob_keeps_wf_witness :
  f32_idem /\ wf_net (net1, w2) /\
  predict_prob 8 (net1, w2) = (Ok preds1, (fst s8, snd s8)) /\
  wf_net (fst s8, snd s8) /\ fst s8 = net1 /\
  rng (snd s8) = rng w2 /\ trace (snd s8) = trace w2 /\
  (forall a, a ∉ chain_addrs (chain net1) -> heap (snd s8) !! a = heap w2 !! a).
Proof.
  split; [exact sat32_idem|]. split; [exact net1_wf2|]. split; [exact predict1_state|].
  exact (predict_prob_keeps_wf 8 net1 w2 (Ok preds1) (fst s8) (snd s8)
           sat32_idem net1_wf2 predict1_state).
Defined.

Lemma set_batch_keeps_wf_witness :
  0 < 2 < 2147483648 /\ wf_net (net1, w1) /\
  exists n' w', set_batch 2 (net1, w1) = (Ok tt, (n', w')) /\ wf_net (n', w').
Proof.
  assert (Hbs : 0 < 2 < 2147483648) by lia.
  split; [exact Hbs|]. split; [exact net1_wf|].
  exact (set_batch_keeps_wf 2 net1 w1 Hbs net1_wf).
Defined.

Lemma init_establishes_wf_witness :
  f32_idem /\ NeuralNet_init [2; 1]%nat w0 = (Ok net1, w1) /\ wf_net (net1, w1).
Proof.
  split; [exact sat32_idem|]. split; [exact net1_init|].
  exact (init_establishes_wf [2; 1]%nat w0 net1 w1 sat32_idem net1_init).
Defined.



Lemma set_params10 :
  set_params [(8, 9); (2, 3)]%nat (net1, w10) = (Ok tt, (fst s10, snd s10)).
Proof. reflexivity. Qed.

Lemma get_params_after_set_params_witness :
  set_params [(8, 9); (2, 3)]%nat (net1, w10) = (Ok tt, (fst s10, snd s10)) /\
  length (get_params (fst s10)) = length (chain net1) /\
  forall j b' t', get_params (fst s10) !! j = Some (b', t') ->
    exists b t barr tarr,
      [(8, 9); (2, 3)]%nat !! j = Some (b, t) /\
      heap (snd s10) !! b = Some barr /\ heap (snd s10) !! t = Some tarr /\
      heap (snd s10) !! b' = Some (copy_astype_f32 barr) /\
      heap (snd s10) !! t' = Some (copy_astype_f32 tarr) /\
      (length (heap w10) <= b')%nat /\ (length (heap w10) <= t')%nat.
Proof.
  split; [exact set_params10|].
  exact (get_params_after_set_params [(8, 9); (2, 3)]%nat net1 w10 (fst s10) (snd s10)
           set_params10).
Defined.





Lemma train_epoch_shuffles_pairs_witness :
  permutation_ok /\
  heap w2 !! 8%nat = Some features1 /\ heap w2 !! 9%nat = Some labels1 /\
  shape features1 = [3; 2]%nat /\ shape labels1 = [3; 1]%nat /\
  full features1 /\ full labels1 /\
  exists xs ys,
    let idx := fst (permutation 3 (rng w2)) in
    train_epoch 8 9 2 32768 0 (net1, w2) =
      call_train (f32 <$> xs) (f32 <$> ys) 3 2 32768 0
        (net1, {| heap := heap w2; rng := snd (permutation 3 (rng w2));
                  trace := trace w2 |}) /\
    idx ≡ₚ seq 0 3 /\
    length xs = (3 * prod_list [2%nat])%nat /\ length ys = (3 * prod_list [1%nat])%nat /\
    forall j i, idx !! j = Some i ->
      take (prod_list [2%nat]) (drop (j * prod_list [2%nat]) xs) = sample features1 i /\
      take (prod_list [1%nat]) (drop (j * prod_list [1%nat]) ys) = sample labels1 i.
Proof.
  assert (FF : full features1) by reflexivity.
  assert (FL : full labels1) by reflexivity.
  split; [exact rotation_perm|]. split; [exact features1_at|]. split; [exact labels1_at|].
  split; [reflexivity|]. split; [reflexivity|]. split; [exact FF|]. split; [exact FL|].
  exact (train_epoch_shuffles_pairs 8 9 2 32768 0 net1 w2 features1 labels1 3 [2%nat] [1%nat]
           rotation_perm features1_at labels1_at eq_refl eq_refl FF FL).
Defined.

Lemma set_batch_keeps_predictions_witness :
  core_params_only /\ wf_net (net1, w2) /\ 0 < 2 < 2147483648 /\
  exists n' w',
    set_batch 2 (net1, w2) = (Ok tt, (n', w')) /\
    forall f, (f < length (heap w2))%nat ->
      fst (predict_prob f (n', w')) = fst (predict_prob f (net1, w2)).
Proof.
  assert (Hbs : 0 < 2 < 2147483648) by lia.
  split; [exact spec_core_params_only|]. split; [exact net1_wf2|]. split; [exact Hbs|].
  exact (set_batch_keeps_predictions 2 net1 w2 spec_core_params_only net1_wf2 Hbs).
Defined.

Lemma random_init_drops_buffers_witness :
  (2 <= length (layers net1))%nat /\ Forall fits (layers net1) /\
  exists n' w' new,
    random_init (net1, w1) = (Ok tt, (n', w')) /\
    layers n' = layers net1 /\ batch_size n' = batch_size net1 /\
    layer_dims <$> chain n' = dims (layers net1) /\
    Forall (fun l => act l = None /\ delta l = None) (chain n') /\
    param_addrs (chain n') = seq (length (heap w1)) (2 * length (layers net1)) /\
    heap w' = heap w1 ++ new /\ length new = (2 * length (layers net1))%nat /\
    trace w' = trace w1 /\
    ~ ready (n', w') /\
    (forall bs, 0 <= bs < 2147483648 -> ready (snd (set_batch bs (n', w')))).
Proof.
  assert (Hlen : (2 <= length (layers net1))%nat) by (simpl; lia).
  assert (Hfit : Forall fits (layers net1)) by exact (wf_int _ net1_wf).
  split; [exact Hlen|]. split; [exact Hfit|].
  exact (random_init_drops_buffers net1 w1 Hlen Hfit).
Defined.

End LifecycleExamples.
